(** * TGA codec and blend engine of lab2cpp: a shallow embedding

    The development follows the image tool with the lookup-table blend
    engine: namespaces [TGA] and [Blend], functions [combineRGB] and
    [rotate180].  The repository also holds two earlier copies of that tool
    and the batch program [project2.cpp]; the blend and channel operations
    of the latter are embedded in [Project2], to compare the two.

    Bytes and integers are modelled as [Z] with the conversions of the C++
    code written out; a [std::vector<uint8_t>] is a [list Z]; a file is the
    list of its bytes; the file system is a finite map from paths to files;
    an exception is a value of [exn].  A product of two extents is an [int]
    in the code: where it leaves the range of [int] the behaviour is
    undefined, and the model returns [Undefined]. *)

From Stdlib Require Import ZArith Lia.
From stdpp Require Import base numbers list strings gmap.
From Stdlib Require Import Ascii.

Local Open Scope Z_scope.

(** ** Machine integers *)

(** Conversion of an [int] to [uint8_t]: reduction modulo 2^8. *)
Definition to_uint8 (v : Z) : Z := v `mod` 256.

(** [is_byte v]: [v] is a value of type [uint8_t]. *)
Definition is_byte (v : Z) : Prop := 0 <= v < 256.
Definition is_u16 (v : Z) : Prop := 0 <= v < 65536.

(** Integer division of C++ truncates toward zero. *)
Definition idiv (a b : Z) : Z := Z.quot a b.

(** The range of [int]. *)
Definition INT_MIN : Z := - 2 ^ 31.
Definition INT_MAX : Z := 2 ^ 31 - 1.
Definition in_int (v : Z) : bool := (INT_MIN <=? v) && (v <=? INT_MAX).

(** The value of an [int] sum.  A sum that leaves the range of [int] is
    undefined in C++; the model takes the two's-complement value that the
    32-bit addition gives. *)
Definition int_wrap (v : Z) : Z := (v + 2 ^ 31) `mod` 2 ^ 32 - 2 ^ 31.

(** Element access [v[i]] of a byte vector; reading outside of the vector is
    undefined in C++, the model reads 0 there. *)
Definition at_ (v : list Z) (i : Z) : Z := default 0 (v !! Z.to_nat i).

(** ** Image container *)

Module Image.

Record t := mk {
  width  : Z;          (* uint16_t *)
  height : Z;          (* uint16_t *)
  pixels : list Z      (* B, G, R *)
}.

Definition PIXEL_SIZE : Z := 3.

(** Byte offset of [px(x, y)]: bottom-left origin in memory.  The row
    offset [y * width + x] is computed in [int]; [None] where it leaves the
    range (undefined behaviour).  The [assert] on the coordinates, which
    is compiled out under [NDEBUG], is not part of the model: the
    properties of [px] are stated for coordinates that satisfy it. *)
Definition px (img : t) (x y : Z) : option Z :=
  if in_int (y * width img) && in_int (y * width img + x)
  then Some ((y * width img + x) * PIXEL_SIZE)
  else None.

End Image.

Abbreviation Image := Image.t.

(** The invariant of a pixel buffer: 16-bit extents, one B,G,R triplet of
    bytes per pixel. *)
Definition valid_image (img : Image) : Prop :=
  is_u16 (Image.width img) /\ is_u16 (Image.height img) /\
  Z.of_nat (length (Image.pixels img))
    = Image.width img * Image.height img * Image.PIXEL_SIZE /\
  Forall is_byte (Image.pixels img).

(** ** Errors: the [std::runtime_error]s thrown by the code *)

Inductive exn :=
| CantOpen (path : string)            (* "Can't open TGA: " *)
| OnlyUnmapped (path : string)        (* ": only unmapped images supported" *)
| NeedUncompressed (path : string)    (* ": need uncompressed RGB (2)" *)
| Need24Bit (path : string)           (* ": need 24-bit RGB" *)
| TruncatedPixels (path : string)     (* ": truncated pixel data" *)
| CantWrite (path : string)           (* "Can't write TGA: " *)
| WriteFailed (path : string)         (* "Write failed: " *)
| BlendSizeMismatch (bw bh tw th : Z) (* "Blend size mismatch: base (..) vs overlay (..)" *)
| CombineSizeMismatch                 (* "combine size mismatch" *)
(* the messages that only the second copy of the tool has *)
| NeedUncompressed2 (path : string)   (* ": Need uncompressed RGB (type 2)" *)
| Need24Bit2 (path : string)          (* ": Need 24-bit RGB" *)
| TruncatedPixels2 (path : string)    (* ": Truncated pixel data" *)
| BlendSizeMismatch2                  (* "Blend size mismatch" *)
(* the messages that only the third copy of the tool has *)
| NeedUncompressed3 (path : string) (type : Z)
                                      (* ": Need uncompressed RGB (type 2), got type N" *)
| Need24Bit3 (path : string) (bits : Z)
                                      (* ": Need 24-bit RGB, got N-bit" *)
| TruncatedFile3 (path : string).     (* ": Truncated file, couldn't read all pixels" *)

(** The outcome of a call: a value, an exception, or undefined behaviour
    (an [int] product of two extents outside the range of [int]; what the
    program does then is not determined by the code). *)
Inductive result (A : Type) :=
| Ok (a : A)
| Throw (e : exn)
| Undefined.
Arguments Ok {A} a.
Arguments Throw {A} e.
Arguments Undefined {A}.

(** ** Files and streams *)

(** The file system: the files by path, the paths that cannot be opened for
    writing, and the number of bytes a file can take before a write fails. *)
Record FileSystem := mkFS {
  files : gmap string (list Z);
  unwritable : string -> bool;
  space : nat
}.

(** [std::ifstream]: the bytes after the read position, and the fail bit. *)
Record ifstream := mkIn { rest : list Z; in_fail : bool }.

(** [file.read(buf, n)] into a zero-initialised buffer of [n] bytes: the
    buffer afterwards, and the stream.  A short read stores what is there
    and sets the fail bit; a failed stream reads nothing. *)
Definition read (f : ifstream) (n : Z) : list Z * ifstream :=
  let k := Z.to_nat n in
  if in_fail f then (replicate k 0, f)
  else if (k <=? length (rest f))%nat then
    (take k (rest f), {| rest := drop k (rest f); in_fail := false |})
  else
    (rest f ++ replicate (k - length (rest f)) 0,
     {| rest := []; in_fail := true |}).

(** [file.seekg(n, std::ios::cur)]: nothing on a failed stream. *)
Definition seekg_cur (f : ifstream) (n : Z) : ifstream :=
  if in_fail f then f
  else {| rest := drop (Z.to_nat n) (rest f); in_fail := false |}.

(** [std::ofstream]: the bytes that have reached the device, the bytes
    that are still in the buffer of the stream, and the bad bit. *)
Record ofstream := mkOut {
  written : list Z;
  pending : list Z;
  out_fail : bool
}.

Definition ofstream_open : ofstream :=
  {| written := []; pending := []; out_fail := false |}.

(** When and how much of the buffer of a stream is passed on to the device
    is the choice of the library: [flushes p n] is the number of bytes
    that a write of [n] bytes to a stream that holds [p] buffered bytes
    passes on, oldest first.  The code is modelled for every such
    policy. *)
Definition flush_policy : Type := nat -> nat -> nat.

(** The first [k] buffered bytes go to a device with room for [cap] bytes:
    all of them, or as many as fit, and then the bad bit is set. *)
Definition emit (cap : nat) (f : ofstream) (k : nat) : ofstream :=
  let data := take k (pending f) in
  if (length (written f) + length data <=? cap)%nat then
    {| written := written f ++ data;
       pending := drop k (pending f);
       out_fail := false |}
  else
    {| written := written f ++ take (cap - length (written f)) data;
       pending := [];
       out_fail := true |}.

(** [file.write(p, n)]: nothing on a failed stream; otherwise the bytes are
    put in the buffer, and the part of the buffer the policy names goes to
    the device. *)
Definition write (flushes : flush_policy) (cap : nat) (f : ofstream)
    (bs : list Z) : ofstream :=
  if out_fail f then f
  else
    emit cap {| written := written f;
                pending := pending f ++ bs;
                out_fail := false |}
         (flushes (length (pending f)) (length bs)).

(** The destructor of the stream closes the file: what is buffered goes to
    the device as far as there is room, and a failure at this point is
    reported to nobody.  The result is the contents of the file. *)
Definition close (cap : nat) (f : ofstream) : list Z :=
  written f ++ take (cap - length (written f)) (pending f).

(** [std::memcpy(dst + doff, src + soff, n)]. *)
Definition memcpy (dst : list Z) (doff : Z) (src : list Z) (soff n : Z)
  : list Z :=
  list_inserts (Z.to_nat doff)
               (take (Z.to_nat n) (drop (Z.to_nat soff) src)) dst.

(** ** TGA I/O *)

Module TGA.

(** The packed 18-byte header. *)
Record Header := mkHeader {
  idLength : Z;          (* uint8_t  *)
  colorMapType : Z;      (* uint8_t  *)
  dataTypeCode : Z;      (* uint8_t  *)
  colorMapOrigin : Z;    (* uint16_t *)
  colorMapLength : Z;    (* uint16_t *)
  colorMapDepth : Z;     (* uint8_t  *)
  xOrigin : Z;           (* uint16_t *)
  yOrigin : Z;           (* uint16_t *)
  width : Z;             (* uint16_t *)
  height : Z;            (* uint16_t *)
  bitsPerPixel : Z;      (* uint8_t  *)
  imageDescriptor : Z    (* uint8_t  *)
}.

Definition sizeof_Header : Z := 18.

Definition ORIGIN_TOP_LEFT : Z := 32.   (* 0x20 *)

(** The two bytes of a 16-bit field, low byte first (the host is
    little-endian). *)
Definition u16_bytes (v : Z) : list Z := [v `mod` 256; (v / 256) `mod` 256].
Definition u16_at (bs : list Z) (i : Z) : Z := at_ bs i + 256 * at_ bs (i + 1).

(** The object representation of a header, as [reinterpret_cast<char*>]
    gives it. *)
Definition Header_bytes (h : Header) : list Z :=
  [idLength h; colorMapType h; dataTypeCode h]
  ++ u16_bytes (colorMapOrigin h) ++ u16_bytes (colorMapLength h)
  ++ [colorMapDepth h]
  ++ u16_bytes (xOrigin h) ++ u16_bytes (yOrigin h)
  ++ u16_bytes (width h) ++ u16_bytes (height h)
  ++ [bitsPerPixel h; imageDescriptor h].

Definition Header_of_bytes (bs : list Z) : Header :=
  {| idLength := at_ bs 0;
     colorMapType := at_ bs 1;
     dataTypeCode := at_ bs 2;
     colorMapOrigin := u16_at bs 3;
     colorMapLength := u16_at bs 5;
     colorMapDepth := at_ bs 7;
     xOrigin := u16_at bs 8;
     yOrigin := u16_at bs 10;
     width := u16_at bs 12;
     height := u16_at bs 14;
     bitsPerPixel := at_ bs 16;
     imageDescriptor := at_ bs 17 |}.

(** The loop that converts top-left files to bottom-left memory: row [y] of
    [tmp] receives row [height - 1 - y] of [pixels]. *)
Definition flip_rows (w h : Z) (pixels : list Z) : list Z :=
  let rowBytes := w * Image.PIXEL_SIZE in
  let tmp := replicate (length pixels) 0 in
  foldl (fun tmp y =>
           memcpy tmp (y * rowBytes) pixels ((h - 1 - y) * rowBytes) rowBytes)
        tmp (seqZ 0 h).

(** The size [img.width * img.height * PIXEL_SIZE] passed to [resize]: the
    product of the two 16-bit extents is an [int]; beyond [INT_MAX] the
    behaviour is undefined.  Below, the memory is taken to suffice. *)
Definition load (fs : FileSystem) (path : string) : result Image :=
  match files fs !! path with
  | None => Throw (CantOpen path)
  | Some bytes =>
      let file := {| rest := bytes; in_fail := false |} in
      let '(hb, file) := read file sizeof_Header in
      let hdr := Header_of_bytes hb in
      if negb (colorMapType hdr =? 0) then Throw (OnlyUnmapped path)
      else if negb (dataTypeCode hdr =? 2) then Throw (NeedUncompressed path)
      else if negb (bitsPerPixel hdr =? 24) then Throw (Need24Bit path)
      else
        let file :=
          if negb (idLength hdr =? 0) then seekg_cur file (idLength hdr)
          else file in
        let w := width hdr in
        let h := height hdr in
        if negb (in_int (w * h)) then Undefined
        else
          let '(px, file) := read file (w * h * Image.PIXEL_SIZE) in
          if in_fail file then Throw (TruncatedPixels path)
          else
            let px :=
              if negb (Z.land (imageDescriptor hdr) ORIGIN_TOP_LEFT =? 0)
              then flip_rows w h px
              else px in
            Ok {| Image.width := w; Image.height := h; Image.pixels := px |}
  end.

(** The header [save] fills in: [Header hdr{}] is all zero, then five
    fields are assigned. *)
Definition save_header (img : Image) : Header :=
  {| idLength := 0;
     colorMapType := 0;
     dataTypeCode := 2;
     colorMapOrigin := 0;
     colorMapLength := 0;
     colorMapDepth := 0;
     xOrigin := 0;
     yOrigin := 0;
     width := Image.width img;
     height := Image.height img;
     bitsPerPixel := 24;
     imageDescriptor := 0 |}.   (* bottom-left *)

(** Row [y] of the pixel vector: [rowBytes] bytes from [y * rowBytes]. *)
Definition row (img : Image) (y : Z) : list Z :=
  let rowBytes := Image.width img * Image.PIXEL_SIZE in
  take (Z.to_nat rowBytes) (drop (Z.to_nat (y * rowBytes)) (Image.pixels img)).

(** What [save] sends to the stream: the header, then the rows from
    [y = 0] upwards. *)
Definition save_stream (flushes : flush_policy) (cap : nat) (img : Image)
  : ofstream :=
  let file := ofstream_open in
  let file := write flushes cap file (Header_bytes (save_header img)) in
  foldl (fun file y => write flushes cap file (row img y))
        file (seqZ 0 (Image.height img)).

(** [save] tests the stream after the last write; the file is closed when
    the function is left, by return or by exception. *)
Definition save (flushes : flush_policy) (fs : FileSystem) (img : Image)
    (path : string) : FileSystem * result unit :=
  if unwritable fs path then (fs, Throw (CantWrite path))
  else
    let file := save_stream flushes (space fs) img in
    ({| files := <[path := close (space fs) file]> (files fs);
        unwritable := unwritable fs;
        space := space fs |},
     if out_fail file then Throw (WriteFailed path) else Ok tt).

End TGA.

(** ** Blend ops *)

Module Blend.

Inductive Mode := ADD | SUBTRACT | MULTIPLY | SCREEN | OVERLAY.

(** The static state of the namespace: the two 256x256 tables and the flag. *)
Record Luts := mkLuts {
  multiply_lut : list (list Z);
  screen_lut : list (list Z);
  luts_initialized : bool
}.

(** Static storage is zero-initialised. *)
Definition luts_static : Luts :=
  {| multiply_lut := replicate 256 (replicate 256 0);
     screen_lut := replicate 256 (replicate 256 0);
     luts_initialized := false |}.

Definition mul255_round (a b : Z) : Z := to_uint8 (idiv (a * b + 127) 255).
Definition scr255_round (a b : Z) : Z :=
  to_uint8 (255 - idiv ((255 - a) * (255 - b) + 127) 255).

(** [table f]: the array [t] with [t[a][b] = f a b] for [a], [b] in 0..255,
    as the two nested loops of [init_luts] fill it. *)
Definition table (f : Z -> Z -> Z) : list (list Z) :=
  (fun a => (fun b => f a b) <$> seqZ 0 256) <$> seqZ 0 256.

Definition init_luts (L : Luts) : Luts :=
  if luts_initialized L then L
  else {| multiply_lut := table mul255_round;
          screen_lut := table scr255_round;
          luts_initialized := true |}.

(** [LutBootstrap]: the tables are filled once before [main] runs. *)
Definition _lut_bootstrap : Luts := init_luts luts_static.

(** [t[a][b]]; the indices are [uint8_t] values, inside the table. *)
Definition lut_get (t : list (list Z)) (a b : Z) : Z :=
  (t !!! Z.to_nat a) !!! Z.to_nat b.

Definition uses_lut (m : Mode) : bool :=
  match m with MULTIPLY | SCREEN => true | _ => false end.

(** One iteration of the per-channel loop of [blendPixel]: the value stored
    in [o[i]] for [a[i] = A] and [b[i] = B]. *)
Definition blendChannel (L : Luts) (m : Mode) (A B : Z) : Z :=
  match m with
  | ADD =>
      let s := A + B in
      to_uint8 (if 255 <? s then 255 else s)
  | SUBTRACT =>
      to_uint8 (if B <? A then A - B else 0)
  | MULTIPLY => lut_get (multiply_lut L) A B
  | SCREEN => lut_get (screen_lut L) A B
  | OVERLAY =>
      let low := mul255_round (2 * A) B in
      let high := 255 - mul255_round (2 * (255 - A)) (255 - B) in
      to_uint8 (if A <? 128 then low else high)
  end.

(** [blendPixel m a b o]: [a], [b] point at the three bytes of the base and
    of the overlay pixel; the three bytes written through [o] are returned,
    with the state of the tables. *)
Definition blendPixel (L : Luts) (m : Mode) (a b : list Z) : Luts * list Z :=
  let L' :=
    if negb (luts_initialized L) && uses_lut m then init_luts L else L in
  (L', (fun i => blendChannel L' m (at_ a i) (at_ b i))
         <$> seqZ 0 Image.PIXEL_SIZE).

(** The loop of [apply]: [n] pixels, the three pointers advancing by
    [PIXEL_SIZE] after each. *)
Fixpoint apply_loop (n : nat) (L : Luts) (m : Mode) (bp tp : list Z)
  : Luts * list Z :=
  match n with
  | O => (L, [])
  | S n' =>
      let '(L1, o) := blendPixel L m bp tp in
      let '(L2, out) :=
        apply_loop n' L1 m (drop (Z.to_nat Image.PIXEL_SIZE) bp)
                           (drop (Z.to_nat Image.PIXEL_SIZE) tp) in
      (L2, o ++ out)
  end.

Definition apply (L : Luts) (bot top : Image) (m : Mode)
  : Luts * result Image :=
  if negb (Image.width bot =? Image.width top)
     || negb (Image.height bot =? Image.height top)
  then
    (L, Throw (BlendSizeMismatch (Image.width bot) (Image.height bot)
                                 (Image.width top) (Image.height top)))
  else
    let n := Image.width bot * Image.height bot in
    if negb (in_int n) then (L, Undefined)
    else
      let '(L', out) :=
        apply_loop (Z.to_nat n) L m (Image.pixels bot) (Image.pixels top) in
      (L', Ok {| Image.width := Image.width bot;
                 Image.height := Image.height bot;
                 Image.pixels := out |}).

End Blend.

(** ** Misc operations *)

(** The offsets [0, 3, 6, ...] below [size] that a loop
    [for (i = 0; i < size; i += PIXEL_SIZE)] visits. *)
Definition pixel_offsets (size : Z) : list Z :=
  (fun k => k * Image.PIXEL_SIZE)
    <$> seqZ 0 ((size + Image.PIXEL_SIZE - 1) / Image.PIXEL_SIZE).

(** [v[i] = x]; writing outside of the vector is undefined in C++, the model
    leaves the vector as it is there. *)
Definition set_at (v : list Z) (i x : Z) : list Z := <[Z.to_nat i := x]> v.

Definition combineRGB (r g b : Image) : result Image :=
  if negb (Image.width r =? Image.width g)
     || negb (Image.width r =? Image.width b)
     || negb (Image.height r =? Image.height g)
     || negb (Image.height r =? Image.height b)
  then Throw CombineSizeMismatch
  else
    let w := Image.width r in
    let h := Image.height r in
    if negb (in_int (w * h)) then Undefined
    else
    let size := w * h * Image.PIXEL_SIZE in
    let out := replicate (Z.to_nat size) 0 in
    let out :=
      foldl (fun out i =>
               let out := set_at out (i + 2) (at_ (Image.pixels r) i) in (* R *)
               let out := set_at out (i + 1) (at_ (Image.pixels g) i) in (* G *)
               set_at out (i + 0) (at_ (Image.pixels b) i))              (* B *)
            out (pixel_offsets size) in
    Ok {| Image.width := w; Image.height := h; Image.pixels := out |}.

(** The pixels of [rotate180] for [pix] pixels. *)
Definition rotate_pixels (src : Image) (pix : Z) : list Z :=
  let out := replicate (length (Image.pixels src)) 0 in
  foldl (fun out p =>
           let q := pix - 1 - p in
           let PS := Image.PIXEL_SIZE in
           let out := set_at out (p * PS + 0) (at_ (Image.pixels src) (q * PS + 0)) in
           let out := set_at out (p * PS + 1) (at_ (Image.pixels src) (q * PS + 1)) in
           set_at out (p * PS + 2) (at_ (Image.pixels src) (q * PS + 2)))
        out (seqZ 0 pix).

(** The image [rotate180] returns. *)
Definition rotate180_out (src : Image) : Image :=
  {| Image.width := Image.width src;
     Image.height := Image.height src;
     Image.pixels :=
       rotate_pixels src (Image.width src * Image.height src) |}.

(** [size_t pix = src.width * src.height] is an [int] product. *)
Definition rotate180 (src : Image) : result Image :=
  if negb (in_int (Image.width src * Image.height src)) then Undefined
  else Ok (rotate180_out src).

(** ** More streams *)

(** A stream with its read position, for code that seeks by a signed
    offset. *)
Record ifstream_at := mkInAt { content : list Z; gpos : Z; at_fail : bool }.

Definition read_at (f : ifstream_at) (n : Z) : list Z * ifstream_at :=
  let k := Z.to_nat n in
  let avail := drop (Z.to_nat (gpos f)) (content f) in
  if at_fail f then (replicate k 0, f)
  else if (k <=? length avail)%nat then
    (take k avail,
     {| content := content f; gpos := gpos f + Z.of_nat k; at_fail := false |})
  else
    (avail ++ replicate (k - length avail) 0,
     {| content := content f;
        gpos := Z.max (gpos f) (Z.of_nat (length (content f)));
        at_fail := true |}).

(** [seekg(off, std::ios::cur)]: a position before the start of the file
    sets the fail bit. *)
Definition seekg_cur_at (f : ifstream_at) (off : Z) : ifstream_at :=
  if at_fail f then f
  else if gpos f + off <? 0 then
    {| content := content f; gpos := gpos f; at_fail := true |}
  else {| content := content f; gpos := gpos f + off; at_fail := false |}.

(** [file.read(buf, n)] into a buffer that holds [old]: a short read leaves
    the bytes it does not reach as they were. *)
Definition read_into (f : ifstream) (old : list Z) : list Z * ifstream :=
  let k := length old in
  if in_fail f then (old, f)
  else if (k <=? length (rest f))%nat then
    (take k (rest f), {| rest := drop k (rest f); in_fail := false |})
  else
    (rest f ++ drop (length (rest f)) old, {| rest := []; in_fail := true |}).

(** ** The batch program [project2.cpp]

    The second program of the repository works on a vector of [Pixel]
    structs and ends the process with [exit] where the tool above throws.
    Its blend and channel operations are embedded for comparison. *)

Module Project2.

Record Pixel := mkPixel { b : Z; g : Z; r : Z }.   (* TGA order = BGR *)

Global Instance Pixel_inhabited : Inhabited Pixel := populate (mkPixel 0 0 0).

(** The header of [project2.cpp] has the fields of [TGA.Header], with [char]
    and [short] for [uint8_t] and [uint16_t]; the operations below only
    compare widths and heights and copy the header. *)
Record Img := mkImg { h : TGA.Header; px : list Pixel }.

Inductive outcome (A : Type) :=
| Return (a : A)
| Exit (code : Z).
Arguments Return {A} a.
Arguments Exit {A} code.

Definition CLAMP (v : Z) : Z := if v <? 0 then 0 else if 255 <? v then 255 else v.
Definition c255 (v : Z) : Z := to_uint8 (CLAMP v).

Definition cloneLike (ref : Img) : Img :=
  {| h := h ref; px := replicate (length (px ref)) (mkPixel 0 0 0) |}.

Inductive Mode := MULTI | SUBTR | SCREEN | OVERLAY.

Definition S (a b : Z) : Z := 255 - idiv ((255 - a) * (255 - b)) 255.
Definition O (a b : Z) : Z :=
  if b <? 128 then idiv (2 * a * b) 255
  else 255 - idiv (2 * (255 - a) * (255 - b)) 255.

(** The body of the loop of [blend]: [A] is the top pixel, [B] the bottom
    pixel. *)
Definition blend_px (m : Mode) (A B : Pixel) : Pixel :=
  match m with
  | MULTI =>
      {| r := c255 (idiv (r A * r B) 255);
         g := c255 (idiv (g A * g B) 255);
         b := c255 (idiv (b A * b B) 255) |}
  | SUBTR => (* bottom - top *)
      {| r := c255 (r B - r A);
         g := c255 (g B - g A);
         b := c255 (b B - b A) |}
  | SCREEN =>
      {| r := c255 (S (r A) (r B));
         g := c255 (S (g A) (g B));
         b := c255 (S (b A) (b B)) |}
  | OVERLAY =>
      {| r := c255 (O (r A) (r B));
         g := c255 (O (g A) (g B));
         b := c255 (O (b A) (b B)) |}
  end.

Definition blend (top bottom : Img) (m : Mode) : outcome Img :=
  if negb (TGA.width (h top) =? TGA.width (h bottom))
     || negb (TGA.height (h top) =? TGA.height (h bottom))
  then Exit 42
  else
    Return {| h := h top;
              px := imap (fun i A => blend_px m A (px bottom !!! i)) (px top) |}.

Definition combineRGB (r_ g_ b_ : Img) : outcome Img :=
  if negb (TGA.width (h r_) =? TGA.width (h g_))
     || negb (TGA.width (h r_) =? TGA.width (h b_))
     || negb (TGA.height (h r_) =? TGA.height (h g_))
     || negb (TGA.height (h r_) =? TGA.height (h b_))
  then Exit 99
  else
    Return {| h := h r_;
              px := imap (fun i _ =>
                            {| r := r (px r_ !!! i);
                               g := g (px g_ !!! i);
                               b := b (px b_ !!! i) |})
                         (px r_) |}.

Definition rot180 (src : Img) : Img :=
  {| h := h src; px := reverse (px src) |}.

(** *** Reading and writing files

    The header fields of [project2.cpp] are [char] and [short]; [h] holds
    their bit patterns as unsigned values, and the two functions below give
    the value the host reads from them ([char] is signed on the host). *)

Definition as_char (v : Z) : Z := if v <? 128 then v else v - 256.
Definition as_short (v : Z) : Z := if v <? 32768 then v else v - 65536.

(** Conversion to the 64-bit [size_t]. *)
Definition to_size_t (v : Z) : Z := v `mod` 2 ^ 64.

(** [std::vector<Pixel>::max_size()]: a [resize] beyond it throws
    [std::length_error], which nothing catches; below it the memory is taken
    to suffice. *)
Definition max_size : Z := (2 ^ 63 - 1) / 3.

(** The pixels a buffer of bytes holds, and the bytes of a pixel vector. *)
Fixpoint pixels_of (bs : list Z) : list Pixel :=
  match bs with
  | x0 :: x1 :: x2 :: tl => mkPixel x0 x1 x2 :: pixels_of tl
  | _ => []
  end.

Definition bytes_of (ps : list Pixel) : list Z :=
  concat ((fun p => [b p; g p; r p]) <$> ps).

(** [readTGA]: [None] stands for the process ended by the uncaught
    [std::length_error]. *)
Definition readTGA (fs : FileSystem) (fname : string) : option (outcome Img) :=
  match files fs !! fname with
  | None => Some (Exit 1)
  | Some bytes =>
      let f := {| content := bytes; gpos := 0; at_fail := false |} in
      let '(hb, f) := read_at f TGA.sizeof_Header in
      if at_fail f then Some (Exit 2)
      else
        let hd := TGA.Header_of_bytes hb in
        if negb (as_char (TGA.bitsPerPixel hd) =? 24)
           || negb (as_char (TGA.dataTypeCode hd) =? 2)
        then Some (Exit 3)
        else
          let count :=
            to_size_t (to_size_t (as_short (TGA.width hd))
                       * to_size_t (as_short (TGA.height hd))) in
          if max_size <? count then None
          else
            let f :=
              if negb (as_char (TGA.idLength hd) =? 0)
              then seekg_cur_at f (as_char (TGA.idLength hd))
              else f in
            let '(pb, f) := read_at f (count * 3) in
            if at_fail f then Some (Exit 4)
            else Some (Return {| h := hd; px := pixels_of pb |})
  end.

(** [writeTGA] does not look at the stream after writing. *)
Definition writeTGA (flushes : flush_policy) (fs : FileSystem) (im : Img)
    (fname : string) : FileSystem * outcome unit :=
  if unwritable fs fname then (fs, Exit 5)
  else
    let f := ofstream_open in
    let f := write flushes (space fs) f (TGA.Header_bytes (h im)) in
    let f := write flushes (space fs) f (bytes_of (px im)) in
    ({| files := <[fname := close (space fs) f]> (files fs);
        unwritable := unwritable fs;
        space := space fs |},
     Return tt).

(** *** Channel operations *)

(** [addChan] changes [im] in place; the image afterwards is returned.  The
    sums are [int] sums. *)
Definition addChan (im : Img) (dr dg db : Z) : Img :=
  {| h := h im;
     px := (fun p => {| r := c255 (int_wrap (r p + dr));
                        g := c255 (int_wrap (g p + dg));
                        b := c255 (int_wrap (b p + db)) |}) <$> px im |}.

Definition pickChannel (src : Img) (which : Ascii.ascii) : Img :=
  {| h := h src;
     px := imap (fun i _ =>
                   let v := if Ascii.eqb which "r"%char then r (px src !!! i)
                            else if Ascii.eqb which "g"%char
                                 then g (px src !!! i)
                                 else b (px src !!! i) in
                   {| r := v; g := v; b := v |})
                (px (cloneLike src)) |}.

End Project2.

(** ** The rest of the tool: channel operations and the test helpers *)

Module ColorMath.

Definition clampByte (v : Z) : Z :=
  to_uint8 (if v <? 0 then 0 else if 255 <? v then 255 else v).

End ColorMath.

(** [addToChannel(img, idx, delta)] changes [img] in place; the image
    afterwards is returned.  The sum [pixels[i+idx] + delta] is an [int]
    sum. *)
Definition addToChannel (img : Image) (idx delta : Z) : Image :=
  let pixels :=
    foldl (fun px i =>
             let v := int_wrap (at_ px (i + idx) + delta) in
             set_at px (i + idx) (ColorMath.clampByte v))
          (Image.pixels img)
          (pixel_offsets (Z.of_nat (length (Image.pixels img)))) in
  {| Image.width := Image.width img;
     Image.height := Image.height img;
     Image.pixels := pixels |}.

(** [v.resize(n)]: the first [n] elements are kept, new ones are 0. *)
Definition resize (v : list Z) (n : nat) : list Z :=
  take n v ++ replicate (n - length v) 0.

(** [splitRGB(src, r, g, b)] writes into the three images passed by
    reference; they are returned in that order.  The callers pass three
    distinct local images, none of them [src]. *)
Definition splitRGB (src r g b : Image) : Image * Image * Image :=
  let prep := fun d : Image =>
    {| Image.width := Image.width src;
       Image.height := Image.height src;
       Image.pixels := resize (Image.pixels d) (length (Image.pixels src)) |} in
  let set3 := fun (d : Image) (i v : Z) =>
    {| Image.width := Image.width d;
       Image.height := Image.height d;
       Image.pixels :=
         set_at (set_at (set_at (Image.pixels d) (i + 2) v) (i + 1) v)
                (i + 0) v |} in
  foldl (fun '(r, g, b) i =>
           let B := at_ (Image.pixels src) (i + 0) in
           let G := at_ (Image.pixels src) (i + 1) in
           let R := at_ (Image.pixels src) (i + 2) in
           (set3 r i R, set3 g i G, set3 b i B))
        (prep r, prep g, prep b)
        (pixel_offsets (Z.of_nat (length (Image.pixels src)))).

Module Tests.

Definition SIZE_MAX : Z := 2 ^ 64 - 1.

(** The number of differing bytes, [SIZE_MAX] for images of different
    dimensions. *)
Definition countDiff (a b : Image) : Z :=
  if negb (Image.width a =? Image.width b)
     || negb (Image.height a =? Image.height b)
  then SIZE_MAX
  else
    foldl (fun d i =>
             if negb (at_ (Image.pixels a) i =? at_ (Image.pixels b) i)
             then d + 1 else d)
          0 (seqZ 0 (Z.of_nat (length (Image.pixels a)))).

End Tests.

(** ** The second copy of the tool (truncating blend, rows written last
    to first)

    Three of the messages of its [load] and the message of its [apply]
    differ in wording from the tool's and have constructors of [exn] of
    their own.  [addToChannel], [splitRGB], [rotate180] and [countDiff]
    are the tool's up to layout, with the literal 3 for [PIXEL_SIZE]. *)

Module Copy2.

(** Byte offset of [px(x, y)]; the row offset is computed in [int]. *)
Definition px (img : Image) (x y : Z) : option Z :=
  let row := (Image.height img - 1 - y) * Image.width img in
  if in_int (Image.height img - 1 - y) && in_int row && in_int (row + x)
  then Some ((row + x) * Image.PIXEL_SIZE)
  else None.

Definition load (fs : FileSystem) (path : string) : result Image :=
  match files fs !! path with
  | None => Throw (CantOpen path)
  | Some bytes =>
      let file := {| rest := bytes; in_fail := false |} in
      let '(hb, file) := read file TGA.sizeof_Header in
      let hdr := TGA.Header_of_bytes hb in
      if negb (TGA.dataTypeCode hdr =? 2) then Throw (NeedUncompressed2 path)
      else if negb (TGA.bitsPerPixel hdr =? 24) then Throw (Need24Bit2 path)
      else
        let file :=
          if negb (TGA.idLength hdr =? 0)
          then seekg_cur file (TGA.idLength hdr)
          else file in
        let w := TGA.width hdr in
        let h := TGA.height hdr in
        if negb (in_int (w * h)) then Undefined
        else
          let '(px, file) := read file (w * h * Image.PIXEL_SIZE) in
          if in_fail file then Throw (TruncatedPixels2 path)
          else
            let px :=
              if negb (Z.land (TGA.imageDescriptor hdr) 32 =? 0)
              then TGA.flip_rows w h px
              else px in
            Ok {| Image.width := w; Image.height := h; Image.pixels := px |}
  end.

(** The row [save] writes in step [y]: row [height - 1 - y] of the vector. *)
Definition row (img : Image) (y : Z) : list Z :=
  let rowBytes := Image.width img * Image.PIXEL_SIZE in
  take (Z.to_nat rowBytes)
       (drop (Z.to_nat ((Image.height img - 1 - y) * rowBytes))
             (Image.pixels img)).

Definition save_stream (flushes : flush_policy) (cap : nat) (img : Image)
  : ofstream :=
  let file := ofstream_open in
  let file := write flushes cap file (TGA.Header_bytes (TGA.save_header img)) in
  foldl (fun file y => write flushes cap file (row img y))
        file (seqZ 0 (Image.height img)).

Definition save (flushes : flush_policy) (fs : FileSystem) (img : Image)
    (path : string) : FileSystem * result unit :=
  if unwritable fs path then (fs, Throw (CantWrite path))
  else
    let file := save_stream flushes (space fs) img in
    ({| files := <[path := close (space fs) file]> (files fs);
        unwritable := unwritable fs;
        space := space fs |},
     if out_fail file then Throw (WriteFailed path) else Ok tt).

(** The value [blendPixel] stores in [out[i]] for [base[i] = a] and
    [over[i] = b]. *)
Definition blendChannel (mode : Blend.Mode) (a b : Z) : Z :=
  match mode with
  | Blend.ADD =>
      let s := a + b in
      to_uint8 (if 255 <? s then 255 else s)
  | Blend.SUBTRACT =>
      to_uint8 (if b <? a then a - b else 0)
  | Blend.MULTIPLY => to_uint8 (idiv (a * b) 255)
  | Blend.SCREEN => to_uint8 (255 - idiv ((255 - a) * (255 - b)) 255)
  | Blend.OVERLAY =>
      to_uint8 (if a <? 128 then idiv (2 * a * b) 255
                else 255 - idiv (2 * (255 - a) * (255 - b)) 255)
  end.

Definition blendPixel (mode : Blend.Mode) (base over : list Z) : list Z :=
  (fun i => blendChannel mode (at_ base i) (at_ over i)) <$> seqZ 0 3.

Fixpoint apply_loop (n : nat) (mode : Blend.Mode) (b t : list Z) : list Z :=
  match n with
  | O => []
  | S n' => blendPixel mode b t ++ apply_loop n' mode (drop 3 b) (drop 3 t)
  end.

Definition apply (bottom top : Image) (mode : Blend.Mode) : result Image :=
  if negb (Image.width bottom =? Image.width top)
     || negb (Image.height bottom =? Image.height top)
  then Throw BlendSizeMismatch2
  else
    let count := Image.width bottom * Image.height bottom in
    if negb (in_int count) then Undefined
    else
      Ok {| Image.width := Image.width bottom;
            Image.height := Image.height bottom;
            Image.pixels :=
              apply_loop (Z.to_nat count) mode
                         (Image.pixels bottom) (Image.pixels top) |}.

End Copy2.

(** ** The codec of the third copy (top-left files)

    The header that [load] reads into is not initialised: [stack] stands
    for the 18 bytes it holds before the read.  Three messages of [load]
    differ from those of the other copies, two of them carry a field of the
    header.  The blend of this copy works in floating point and is left
    out. *)

Module Copy3.

Definition load (stack : list Z) (fs : FileSystem) (path : string)
  : result Image :=
  match files fs !! path with
  | None => Throw (CantOpen path)
  | Some bytes =>
      let file := {| rest := bytes; in_fail := false |} in
      let '(hb, file) := read_into file (resize stack 18) in
      let hdr := TGA.Header_of_bytes hb in
      if negb (TGA.dataTypeCode hdr =? 2)
      then Throw (NeedUncompressed3 path (TGA.dataTypeCode hdr))
      else if negb (TGA.bitsPerPixel hdr =? 24)
      then Throw (Need24Bit3 path (TGA.bitsPerPixel hdr))
      else
        let file :=
          if 0 <? TGA.idLength hdr
          then seekg_cur file (TGA.idLength hdr)
          else file in
        let w := TGA.width hdr in
        let h := TGA.height hdr in
        if negb (in_int (w * h)) then Undefined
        else
          let '(px, file) := read file (w * h * Image.PIXEL_SIZE) in
          if in_fail file then Throw (TruncatedFile3 path)
          else
            let px :=
              if negb (Z.land (TGA.imageDescriptor hdr) 32 =? 0)
              then TGA.flip_rows w h px
              else px in
            Ok {| Image.width := w; Image.height := h; Image.pixels := px |}
  end.

Definition save_header (img : Image) : TGA.Header :=
  {| TGA.idLength := 0;
     TGA.colorMapType := 0;
     TGA.dataTypeCode := 2;
     TGA.colorMapOrigin := 0;
     TGA.colorMapLength := 0;
     TGA.colorMapDepth := 0;
     TGA.xOrigin := 0;
     TGA.yOrigin := 0;
     TGA.width := Image.width img;
     TGA.height := Image.height img;
     TGA.bitsPerPixel := 24;
     TGA.imageDescriptor := 32 |}.   (* top-left origin *)

Definition save (flushes : flush_policy) (fs : FileSystem) (img : Image)
    (path : string) : FileSystem * result unit :=
  if unwritable fs path then (fs, Throw (CantWrite path))
  else
    let file := ofstream_open in
    let file :=
      write flushes (space fs) file (TGA.Header_bytes (save_header img)) in
    let file := write flushes (space fs) file (Image.pixels img) in
    ({| files := <[path := close (space fs) file]> (files fs);
        unwritable := unwritable fs;
        space := space fs |},
     if out_fail file then Throw (WriteFailed path) else Ok tt).

End Copy3.

(** ** Views used to state the properties *)

(** [units n k l]: the first [k] consecutive units of [n] bytes of [l]
    (scanlines of [n] bytes, or pixels of 3 bytes). *)
Definition units (n k : nat) (l : list Z) : list (list Z) :=
  (fun i => take n (drop (i * n) l)) <$> seq 0 k.

(** [nearest255 num r]: [r] is the integer nearest to [num / 255]. *)
Definition nearest255 (num r : Z) : Prop := 2 * Z.abs (255 * r - num) < 255.

(** The tables hold the rounded products once the flag is set. *)
Definition lut_inv (L : Blend.Luts) : Prop :=
  Blend.luts_initialized L = true ->
  Blend.multiply_lut L = Blend.table Blend.mul255_round /\
  Blend.screen_lut L = Blend.table Blend.scr255_round.

(** The fields of a header fit their types. *)
Definition valid_header (hd : TGA.Header) : Prop :=
  is_byte (TGA.idLength hd) /\ is_byte (TGA.colorMapType hd) /\
  is_byte (TGA.dataTypeCode hd) /\ is_u16 (TGA.colorMapOrigin hd) /\
  is_u16 (TGA.colorMapLength hd) /\ is_byte (TGA.colorMapDepth hd) /\
  is_u16 (TGA.xOrigin hd) /\ is_u16 (TGA.yOrigin hd) /\
  is_u16 (TGA.width hd) /\ is_u16 (TGA.height hd) /\
  is_byte (TGA.bitsPerPixel hd) /\ is_byte (TGA.imageDescriptor hd).

(** The pixels [TGA.load] returns for a payload, by the orientation bit of
    the header. *)
Definition oriented (hd : TGA.Header) (payload : list Z) : list Z :=
  if negb (Z.land (TGA.imageDescriptor hd) TGA.ORIGIN_TOP_LEFT =? 0)
  then TGA.flip_rows (TGA.width hd) (TGA.height hd) payload
  else payload.

(** A file: header, image ID field, pixel payload. *)
Definition tga_file (hd : TGA.Header) (id payload : list Z) : list Z :=
  TGA.Header_bytes hd ++ id ++ payload.

(** [gray_of c src out t]: in the first [t] pixels of [out], all three
    samples are the sample of slot [c] of the same pixel of [src]. *)
Definition gray_of (c : nat) (src out : list Z) (t : nat) : Prop :=
  forall p j : nat,
    (p < t)%nat -> (j < 3)%nat ->
    out !! (p * 3 + j)%nat = src !! (p * 3 + c)%nat.

(** An output of [splitRGB] after [t] steps of its loop, for a source of [k]
    pixels. *)
Definition split_good (src : Image) (k c : nat) (d : Image) (t : nat) : Prop :=
  Image.width d = Image.width src /\ Image.height d = Image.height src /\
  length (Image.pixels d) = (k * 3)%nat /\
  gray_of c (Image.pixels src) (Image.pixels d) t.

(** The buffer with its scanlines in reverse order. *)
Definition rows_reversed (img : Image) : Image :=
  {| Image.width := Image.width img;
     Image.height := Image.height img;
     Image.pixels :=
       concat (reverse (units (Z.to_nat (Image.width img * Image.PIXEL_SIZE))
                              (Z.to_nat (Image.height img))
                              (Image.pixels img))) |}.

(** The byte buffer that holds an image of [project2.cpp], and the blend
    mode of the tool for a mode of [project2.cpp]. *)
Definition buffer_of (im : Project2.Img) : Image :=
  {| Image.width := TGA.width (Project2.h im);
     Image.height := TGA.height (Project2.h im);
     Image.pixels := Project2.bytes_of (Project2.px im) |}.

Definition mode_of (m : Project2.Mode) : Blend.Mode :=
  match m with
  | Project2.MULTI => Blend.MULTIPLY
  | Project2.SUBTR => Blend.SUBTRACT
  | Project2.SCREEN => Blend.SCREEN
  | Project2.OVERLAY => Blend.OVERLAY
  end.

(** Sample [c] of a pixel, in the order of the bytes in memory. *)
Definition slot (c : nat) (p : Project2.Pixel) : Z :=
  match c with
  | O => Project2.b p
  | S O => Project2.g p
  | _ => Project2.r p
  end.

(** The number of pixels of a buffer is in the range of [int]. *)
Definition fits_int (img : Image) : Prop :=
  Image.width img * Image.height img <= INT_MAX.

(** A stream after writes of [total] in all, on a device with room for
    [cap] bytes: either everything is on the device or in the buffer, or the
    device is full and holds the first [cap] bytes. *)
Definition stream_inv (cap : nat) (f : ofstream) (total : list Z) : Prop :=
  (length (written f) <= cap)%nat /\
  (if out_fail f
   then pending f = [] /\ written f = take cap total /\
        (cap < length total)%nat
   else written f ++ pending f = total).

(** The two policies at the ends: every write goes to the device at once,
    and nothing goes there before the file is closed. *)
Definition unbuffered : flush_policy := fun p n => (p + n)%nat.
Definition buffered : flush_policy := fun _ _ => 0%nat.

(** The exception of the tool that an exception of the second or third copy
    corresponds to, and the outcome with its exception renamed. *)
Definition tool_exn (e : exn) : exn :=
  match e with
  | NeedUncompressed2 p | NeedUncompressed3 p _ => NeedUncompressed p
  | Need24Bit2 p | Need24Bit3 p _ => Need24Bit p
  | TruncatedPixels2 p | TruncatedFile3 p => TruncatedPixels p
  | e => e
  end.

Definition tool_outcome {A : Type} (r : result A) : result A :=
  match r with
  | Throw e => Throw (tool_exn e)
  | r => r
  end.

(** * Proofs *)

(** ** The range of [int] *)

Lemma in_int_true v : INT_MIN <= v <= INT_MAX -> in_int v = true.
Proof.
  intros [H1 H2]. unfold in_int.
  apply andb_true_intro. split; by apply Z.leb_le.
Qed.

Lemma in_int_spec v : in_int v = true <-> INT_MIN <= v <= INT_MAX.
Proof.
  unfold in_int. rewrite andb_true_iff, !Z.leb_le. done.
Qed.

Lemma in_int_false v : INT_MAX < v -> in_int v = false.
Proof.
  intros H. destruct (in_int v) eqn:E; [|done].
  apply in_int_spec in E. lia.
Qed.

Lemma int_wrap_id v : INT_MIN <= v <= INT_MAX -> int_wrap v = v.
Proof.
  unfold INT_MIN, INT_MAX, int_wrap. intros H.
  change (2 ^ 31) with 2147483648 in *. change (2 ^ 32) with 4294967296.
  rewrite Z.mod_small by lia. lia.
Qed.

Lemma int_wrap_over v :
  INT_MAX < v <= INT_MAX + 2 ^ 31 -> int_wrap v = v - 2 ^ 32.
Proof.
  unfold INT_MAX, int_wrap. intros H.
  change (2 ^ 31) with 2147483648 in *. change (2 ^ 32) with 4294967296.
  replace (v + 2147483648) with ((v - 2147483648) + 1 * 4294967296) by lia.
  rewrite Z.mod_add by lia. rewrite Z.mod_small by lia. lia.
Qed.

(** ** Integers and vectors *)

Lemma at_lookup v (i : nat) x : v !! i = Some x -> at_ v (Z.of_nat i) = x.
Proof. intros H. unfold at_. by rewrite Nat2Z.id, H. Qed.

Lemma at_in_range v (i : nat) :
  (i < length v)%nat -> v !! i = Some (at_ v (Z.of_nat i)).
Proof.
  intros Hi. destruct (lookup_lt_is_Some_2 v i Hi) as [x Hx].
  by rewrite (at_lookup _ _ _ Hx).
Qed.

Lemma at_drop v (n i : nat) :
  at_ (drop n v) (Z.of_nat i) = at_ v (Z.of_nat (n + i)).
Proof. unfold at_. by rewrite !Nat2Z.id, lookup_drop. Qed.

Lemma at_app_l v w (i : Z) :
  (Z.to_nat i < length v)%nat -> at_ (v ++ w) i = at_ v i.
Proof. intros Hi. unfold at_. by rewrite lookup_app_l. Qed.

Lemma at_nonneg v i : Forall is_byte v -> 0 <= at_ v i.
Proof.
  intros Hv. unfold at_. destruct (v !! Z.to_nat i) as [x|] eqn:E; [|done].
  eapply Forall_lookup in Hv; eauto. unfold is_byte in Hv. simpl. lia.
Qed.

Lemma to_uint8_byte v : is_byte v -> to_uint8 v = v.
Proof. unfold is_byte, to_uint8. intros H. apply Z.mod_small. lia. Qed.

Lemma idiv_nonneg a b : 0 <= a -> 0 < b -> idiv a b = a / b.
Proof. intros. unfold idiv. by apply Z.quot_div_nonneg. Qed.

Lemma round255_nearest num : 0 <= num -> nearest255 num ((num + 127) / 255).
Proof.
  intros H. unfold nearest255.
  pose proof (Z.div_mod (num + 127) 255 ltac:(lia)).
  pose proof (Z.mod_pos_bound (num + 127) 255 ltac:(lia)).
  lia.
Qed.

Lemma round255_trunc num :
  0 <= num ->
  (num + 127) / 255 = num / 255 + (if 128 <=? num `mod` 255 then 1 else 0).
Proof.
  intros H.
  pose proof (Z.div_mod num 255 ltac:(lia)).
  pose proof (Z.mod_pos_bound num 255 ltac:(lia)).
  destruct (128 <=? num `mod` 255) eqn:E.
  - apply Z.leb_le in E. symmetry. apply (Z.div_unique _ _ _ (num `mod` 255 - 128)); lia.
  - apply Z.leb_gt in E. symmetry. apply (Z.div_unique _ _ _ (num `mod` 255 + 127)); lia.
Qed.

(** ** The lookup tables *)

Lemma table_get f a b :
  is_byte a -> is_byte b -> Blend.lut_get (Blend.table f) a b = f a b.
Proof.
  intros Ha Hb. unfold Blend.lut_get, Blend.table, is_byte in *.
  rewrite (list_lookup_total_correct _ _ ((fun b => f a b) <$> seqZ 0 256)).
  - apply list_lookup_total_correct.
    rewrite list_lookup_fmap, lookup_seqZ_lt by lia. simpl.
    by replace (0 + Z.of_nat (Z.to_nat b)) with b by lia.
  - rewrite list_lookup_fmap, lookup_seqZ_lt by lia. simpl.
    by replace (0 + Z.of_nat (Z.to_nat a)) with a by lia.
Qed.

Lemma lut_inv_static : lut_inv Blend.luts_static.
Proof. intros H. discriminate H. Qed.

Lemma lut_inv_init L : lut_inv L -> lut_inv (Blend.init_luts L).
Proof.
  intros H. unfold Blend.init_luts.
  destruct (Blend.luts_initialized L) eqn:E; [done|].
  intros _. by simpl.
Qed.

Lemma lut_inv_bootstrap : lut_inv Blend._lut_bootstrap.
Proof. apply lut_inv_init, lut_inv_static. Qed.

Lemma init_luts_initialized L :
  Blend.luts_initialized (Blend.init_luts L) = true.
Proof. unfold Blend.init_luts. by destruct (Blend.luts_initialized L) eqn:E. Qed.

Lemma init_luts_idem L : Blend.init_luts (Blend.init_luts L) = Blend.init_luts L.
Proof.
  unfold Blend.init_luts at 1. by rewrite init_luts_initialized.
Qed.

Lemma init_luts_tables L :
  lut_inv L ->
  Blend.multiply_lut (Blend.init_luts L) = Blend.table Blend.mul255_round /\
  Blend.screen_lut (Blend.init_luts L) = Blend.table Blend.scr255_round.
Proof.
  intros H. apply (lut_inv_init L H), init_luts_initialized.
Qed.

(** The state [blendPixel] leaves behind, and the bytes it writes. *)
Lemma blendPixel_state L m a b :
  lut_inv L ->
  lut_inv (Blend.blendPixel L m a b).1 /\
  Blend.init_luts (Blend.blendPixel L m a b).1 = Blend.init_luts L.
Proof.
  intros H. unfold Blend.blendPixel. simpl.
  destruct (negb (Blend.luts_initialized L) && Blend.uses_lut m).
  - split; [by apply lut_inv_init | apply init_luts_idem].
  - done.
Qed.

Lemma blendPixel_bytes L m a b :
  (Blend.blendPixel L m a b).2 =
  (fun i => Blend.blendChannel (Blend.init_luts L) m (at_ a i) (at_ b i))
    <$> seqZ 0 Image.PIXEL_SIZE.
Proof.
  unfold Blend.blendPixel. simpl.
  destruct (Blend.luts_initialized L) eqn:E; simpl.
  - unfold Blend.init_luts. by rewrite E.
  - destruct m; simpl; try done.
Qed.

Lemma blendPixel_lookup L m a b (i : nat) :
  (i < 3)%nat ->
  (Blend.blendPixel L m a b).2 !! i =
  Some (Blend.blendChannel (Blend.init_luts L) m
          (at_ a (Z.of_nat i)) (at_ b (Z.of_nat i))).
Proof.
  intros Hi. rewrite blendPixel_bytes, list_lookup_fmap.
  rewrite lookup_seqZ_lt by (unfold Image.PIXEL_SIZE; lia).
  simpl. by rewrite Z.add_0_l.
Qed.

(** ** The blend formulas on bytes *)

Lemma mul255_round_byte a b :
  0 <= a -> 0 <= b -> a * b <= 65025 ->
  Blend.mul255_round a b = (a * b + 127) / 255.
Proof.
  intros Ha Hb Hab. unfold Blend.mul255_round.
  rewrite idiv_nonneg by nia.
  apply to_uint8_byte. unfold is_byte. split.
  - apply Z.div_pos; nia.
  - apply Z.div_lt_upper_bound; lia.
Qed.

Lemma scr255_round_byte a b :
  is_byte a -> is_byte b ->
  Blend.scr255_round a b = 255 - ((255 - a) * (255 - b) + 127) / 255.
Proof.
  unfold is_byte. intros Ha Hb. unfold Blend.scr255_round.
  rewrite idiv_nonneg by nia.
  apply to_uint8_byte. unfold is_byte.
  assert (0 <= ((255 - a) * (255 - b) + 127) / 255 <= 255); [|lia].
  split.
  - apply Z.div_pos; nia.
  - apply Z.lt_succ_r, Z.div_lt_upper_bound; nia.
Qed.

Lemma blendChannel_multiply L a b :
  lut_inv L -> is_byte a -> is_byte b ->
  Blend.blendChannel (Blend.init_luts L) Blend.MULTIPLY a b
  = (a * b + 127) / 255.
Proof.
  intros HL Ha Hb. simpl.
  destruct (init_luts_tables L HL) as [-> _].
  rewrite table_get by done.
  unfold is_byte in *. apply mul255_round_byte; nia.
Qed.

Lemma blendChannel_screen L a b :
  lut_inv L -> is_byte a -> is_byte b ->
  Blend.blendChannel (Blend.init_luts L) Blend.SCREEN a b
  = 255 - ((255 - a) * (255 - b) + 127) / 255.
Proof.
  intros HL Ha Hb. simpl.
  destruct (init_luts_tables L HL) as [_ ->].
  rewrite table_get by done.
  by apply scr255_round_byte.
Qed.

Lemma blendChannel_subtract L a b :
  is_byte a -> is_byte b ->
  Blend.blendChannel L Blend.SUBTRACT a b = Z.max 0 (a - b).
Proof.
  unfold is_byte. intros Ha Hb. simpl.
  destruct (b <? a) eqn:E.
  - apply Z.ltb_lt in E. rewrite to_uint8_byte by (unfold is_byte; lia). lia.
  - apply Z.ltb_ge in E. rewrite to_uint8_byte by (unfold is_byte; lia). lia.
Qed.

Lemma blendChannel_overlay L a b :
  is_byte a -> is_byte b ->
  Blend.blendChannel L Blend.OVERLAY a b
  = if a <? 128 then (2 * a * b + 127) / 255
    else 255 - (2 * (255 - a) * (255 - b) + 127) / 255.
Proof.
  unfold is_byte. intros Ha Hb. simpl.
  destruct (a <? 128) eqn:E.
  - apply Z.ltb_lt in E.
    rewrite mul255_round_byte by nia.
    apply to_uint8_byte. unfold is_byte. split.
    + apply Z.div_pos; nia.
    + apply Z.div_lt_upper_bound; nia.
  - apply Z.ltb_ge in E.
    rewrite (mul255_round_byte (2 * (255 - a))) by nia.
    apply to_uint8_byte. unfold is_byte.
    assert (0 <= (2 * (255 - a) * (255 - b) + 127) / 255 <= 255); [|lia].
    split.
    + apply Z.div_pos; nia.
    + apply Z.lt_succ_r, Z.div_lt_upper_bound; nia.
Qed.

(** ** The loop of [Blend::apply] *)

Lemma blendPixel_length L m a b : length (Blend.blendPixel L m a b).2 = 3%nat.
Proof. by rewrite blendPixel_bytes, length_fmap, length_seqZ. Qed.

Lemma apply_loop_S m n L bp tp :
  Blend.apply_loop (S n) L m bp tp =
  ((Blend.apply_loop n (Blend.blendPixel L m bp tp).1 m (drop 3 bp) (drop 3 tp)).1,
   (Blend.blendPixel L m bp tp).2
   ++ (Blend.apply_loop n (Blend.blendPixel L m bp tp).1 m
         (drop 3 bp) (drop 3 tp)).2).
Proof.
  cbn [Blend.apply_loop]. change (Z.to_nat Image.PIXEL_SIZE) with 3%nat.
  destruct (Blend.blendPixel L m bp tp) as [L1 o]. cbn [fst snd].
  by destruct (Blend.apply_loop n L1 m (drop 3 bp) (drop 3 tp)) as [L2 out].
Qed.

Lemma apply_loop_state m (n : nat) :
  forall L bp tp,
    lut_inv L ->
    lut_inv (Blend.apply_loop n L m bp tp).1.
Proof.
  induction n as [|n IH]; intros L bp tp HL; [done|].
  rewrite apply_loop_S. cbn [fst]. apply IH. by apply blendPixel_state.
Qed.

Lemma blendPixel_init L m a b :
  Blend.init_luts (Blend.blendPixel L m a b).1 = Blend.init_luts L.
Proof.
  unfold Blend.blendPixel. cbn [fst].
  destruct (negb (Blend.luts_initialized L) && Blend.uses_lut m);
    [apply init_luts_idem | done].
Qed.

Lemma apply_loop_bytes m (n : nat) :
  forall L bp tp,
    Blend.init_luts (Blend.apply_loop n L m bp tp).1 = Blend.init_luts L /\
    length (Blend.apply_loop n L m bp tp).2 = (3 * n)%nat /\
    forall i : nat,
      (i < 3 * n)%nat ->
      (Blend.apply_loop n L m bp tp).2 !! i =
      Some (Blend.blendChannel (Blend.init_luts L) m
              (at_ bp (Z.of_nat i)) (at_ tp (Z.of_nat i))).
Proof.
  induction n as [|n IH]; intros L bp tp.
  - simpl. split; [done|]. split; [lia|]. intros i Hi. lia.
  - rewrite apply_loop_S.
    pose proof (blendPixel_init L m bp tp) as Hinit1.
    pose proof (blendPixel_length L m bp tp) as Hlen.
    pose proof (blendPixel_lookup L m bp tp) as Hlk.
    destruct (IH (Blend.blendPixel L m bp tp).1 (drop 3 bp) (drop 3 tp))
      as (Hinit2 & Hlen2 & Hlk2).
    cbn [fst snd].
    split; [congruence|]. split.
    + rewrite length_app. lia.
    + intros i Hi. destruct (decide (i < 3)%nat) as [Hlt|Hge].
      * rewrite lookup_app_l by lia. by apply Hlk.
      * rewrite lookup_app_r by lia. rewrite Hlen.
        rewrite Hlk2 by lia. rewrite Hinit1, !at_drop.
        by replace (3 + (i - 3))%nat with i by lia.
Qed.

Lemma apply_preserves_lut_inv L bot top m :
  lut_inv L -> lut_inv (Blend.apply L bot top m).1.
Proof.
  intros HL. unfold Blend.apply.
  destruct (negb _ || negb _); [done|]. cbv zeta.
  destruct (in_int _); cbn [negb]; [|done].
  pose proof (apply_loop_state m
                (Z.to_nat (Image.width bot * Image.height bot)) L
                (Image.pixels bot) (Image.pixels top) HL) as Hst.
  by destruct (Blend.apply_loop _ L m _ _) as [L' out].
Qed.

(** ** Units of bytes: scanlines and pixels *)

Lemma lookup_concat_uniform (n : nat) (ls : list (list Z)) (j i : nat) :
  Forall (fun l => length l = n) ls ->
  (i < n)%nat ->
  concat ls !! (j * n + i)%nat = ls !! j ≫= (fun l => l !! i).
Proof.
  intros Hls Hi. revert j.
  induction Hls as [|l ls Hl Hls IH]; intros j.
  - simpl. by rewrite !lookup_nil.
  - destruct j as [|j]; simpl.
    + rewrite lookup_app_l by lia. done.
    + rewrite lookup_app_r by lia.
      replace (n + j * n + i - length l)%nat with (j * n + i)%nat by lia.
      apply IH.
Qed.

Lemma length_concat_uniform (n : nat) (ls : list (list Z)) :
  Forall (fun l => length l = n) ls ->
  length (concat ls) = (length ls * n)%nat.
Proof.
  induction 1 as [|l ls Hl Hls IH]; simpl; [done|].
  rewrite length_app. lia.
Qed.

Lemma units_length n k l : length (units n k l) = k.
Proof. unfold units. by rewrite length_fmap, length_seq. Qed.

Lemma units_lookup n k l (i : nat) :
  (i < k)%nat -> units n k l !! i = Some (take n (drop (i * n) l)).
Proof.
  intros Hi. unfold units. rewrite list_lookup_fmap, lookup_seq_lt by done.
  done.
Qed.

Lemma units_uniform n k l :
  length l = (k * n)%nat -> Forall (fun u => length u = n) (units n k l).
Proof.
  intros Hl. apply Forall_lookup. intros i u Hu.
  assert (i < k)%nat as Hi.
  { apply lookup_lt_Some in Hu. by rewrite units_length in Hu. }
  rewrite units_lookup in Hu by done. injection Hu as <-.
  rewrite length_take, length_drop. nia.
Qed.

(** Splitting a list of [k] units of [n] bytes at an index. *)
Lemma index_split (n k i : nat) :
  (i < k * n)%nat -> exists y j, (y < k /\ j < n /\ i = y * n + j)%nat.
Proof.
  intros Hi. assert (n <> 0)%nat by lia.
  exists (i / n)%nat, (i mod n)%nat.
  pose proof (Nat.div_mod_eq i n). pose proof (Nat.mod_upper_bound i n).
  repeat split; [|lia|lia].
  apply Nat.Div0.div_lt_upper_bound. lia.
Qed.

Lemma units_concat n k l : length l = (k * n)%nat -> concat (units n k l) = l.
Proof.
  intros Hl. pose proof (units_uniform n k l Hl) as Hu.
  apply list_eq_same_length with (k * n)%nat; [done| |].
  { by rewrite (length_concat_uniform n), units_length. }
  intros i x y Hi.
  destruct (index_split n k i Hi) as (r & j & Hr & Hj & ->).
  rewrite (lookup_concat_uniform n) by done.
  rewrite units_lookup by done. simpl.
  rewrite lookup_take_lt by done. rewrite lookup_drop. congruence.
Qed.

Lemma units_of_concat n (ls : list (list Z)) :
  Forall (fun l => length l = n) ls ->
  units n (length ls) (concat ls) = ls.
Proof.
  intros Hls.
  apply list_eq_same_length with (length ls); [done|by rewrite units_length|].
  intros i x y Hi. rewrite units_lookup by done.
  intros [= <-] Hy.
  assert (length y = n) as Hyn.
  { eapply Forall_lookup in Hls; eauto. }
  apply list_eq_same_length with n; [done| |].
  { apply lookup_lt_Some in Hy.
    rewrite length_take, length_drop, (length_concat_uniform n) by done. nia. }
  intros j a b Hj. rewrite lookup_take_lt by done. rewrite lookup_drop.
  rewrite (lookup_concat_uniform n) by done. rewrite Hy. simpl. congruence.
Qed.

(** Reversing the order of the units: unit [y] of the result is unit
    [k - 1 - y] of the list, byte by byte. *)
Lemma reverse_units_lookup n k l (y j : nat) :
  length l = (k * n)%nat -> (y < k)%nat -> (j < n)%nat ->
  concat (reverse (units n k l)) !! (y * n + j)%nat
  = l !! ((k - 1 - y) * n + j)%nat.
Proof.
  intros Hl Hy Hj.
  rewrite (lookup_concat_uniform n);
    [|by apply Forall_reverse, units_uniform|done].
  rewrite reverse_lookup by (by rewrite units_length).
  rewrite units_length, units_lookup by lia. simpl.
  rewrite lookup_take_lt by done. rewrite lookup_drop.
  f_equal. lia.
Qed.

Lemma reverse_units_length n k l :
  length l = (k * n)%nat ->
  length (concat (reverse (units n k l))) = (k * n)%nat.
Proof.
  intros Hl. rewrite (length_concat_uniform n).
  - by rewrite length_reverse, units_length.
  - by apply Forall_reverse, units_uniform.
Qed.

(** ** The row flip of [TGA::load] *)

Lemma memcpy_length dst doff src soff n :
  length (memcpy dst doff src soff n) = length dst.
Proof. unfold memcpy. apply length_inserts. Qed.

Lemma memcpy_lookup_before dst doff src soff n (i : nat) :
  (i < Z.to_nat doff)%nat -> memcpy dst doff src soff n !! i = dst !! i.
Proof. intros Hi. unfold memcpy. by apply list_lookup_inserts_lt. Qed.

Lemma memcpy_lookup_in dst doff src soff n (j : nat) :
  (Z.to_nat soff + Z.to_nat n <= length src)%nat ->
  (Z.to_nat doff + Z.to_nat n <= length dst)%nat ->
  (j < Z.to_nat n)%nat ->
  memcpy dst doff src soff n !! (Z.to_nat doff + j)%nat
  = src !! (Z.to_nat soff + j)%nat.
Proof.
  intros Hs Hd Hj. unfold memcpy.
  rewrite list_lookup_inserts.
  - rewrite lookup_take_lt by lia. rewrite lookup_drop. f_equal. lia.
  - rewrite length_take, length_drop. lia.
  - lia.
Qed.

Section flip.
Variables (n k : nat) (px : list Z).
Hypothesis Hlen : length px = (k * n)%nat.
Variable step : list Z -> Z -> list Z.
Hypothesis Hstep :
  forall tmp y,
    step tmp y
    = memcpy tmp (y * Z.of_nat n) px ((Z.of_nat k - 1 - y) * Z.of_nat n)
             (Z.of_nat n).

Lemma flip_loop_inv (t : nat) :
  (t <= k)%nat ->
  length (foldl step (replicate (length px) 0) (seqZ 0 (Z.of_nat t)))
  = length px /\
  forall y j : nat,
    (y < t)%nat -> (j < n)%nat ->
    foldl step (replicate (length px) 0) (seqZ 0 (Z.of_nat t))
      !! (y * n + j)%nat
    = px !! ((k - 1 - y) * n + j)%nat.
Proof using Hlen Hstep.
  induction t as [|t IH]; intros Ht.
  - simpl. split; [apply length_replicate | intros; lia].
  - destruct IH as [IHlen IHlk]; [lia|].
    rewrite seqZ_S, foldl_snoc. rewrite Z.add_0_l.
    set (tmp := foldl step (replicate (length px) 0) (seqZ 0 (Z.of_nat t))) in *.
    rewrite Hstep.
    assert (Z.to_nat (Z.of_nat t * Z.of_nat n) = (t * n)%nat) as Hd by lia.
    assert (Z.to_nat ((Z.of_nat k - 1 - Z.of_nat t) * Z.of_nat n)
            = ((k - 1 - t) * n)%nat) as Hs by nia.
    split; [by rewrite memcpy_length|].
    intros y j Hy Hj.
    destruct (decide (y < t)%nat) as [Hlt|Hge].
    + rewrite memcpy_lookup_before by nia. by apply IHlk.
    + assert (y = t) as -> by lia.
      rewrite <- Hd, memcpy_lookup_in; rewrite ?Hs, ?Hd, ?IHlen, ?Hlen;
        try done; nia.
Qed.

Lemma flip_loop_units :
  foldl step (replicate (length px) 0) (seqZ 0 (Z.of_nat k))
  = concat (reverse (units n k px)).
Proof using Hlen Hstep.
  destruct (flip_loop_inv k ltac:(lia)) as [Hl Hlk].
  apply list_eq_same_length with (k * n)%nat.
  - by apply reverse_units_length.
  - congruence.
  - intros i x y Hi.
    destruct (index_split n k i Hi) as (r & j & Hr & Hj & ->).
    rewrite Hlk, reverse_units_lookup by done. congruence.
Qed.
End flip.

Lemma flip_rows_units w h px :
  0 <= w -> 0 <= h ->
  Z.of_nat (length px) = w * h * Image.PIXEL_SIZE ->
  TGA.flip_rows w h px
  = concat (reverse (units (Z.to_nat (w * Image.PIXEL_SIZE)) (Z.to_nat h) px)).
Proof.
  intros Hw Hh Hlen. unfold TGA.flip_rows.
  pose proof (flip_loop_units
                (Z.to_nat (w * Image.PIXEL_SIZE)) (Z.to_nat h) px) as Hloop.
  rewrite !Z2Nat.id in Hloop by (unfold Image.PIXEL_SIZE; lia).
  apply Hloop; [|done].
  unfold Image.PIXEL_SIZE in *. nia.
Qed.

(** ** Loops that store three bytes per pixel *)

Lemma set_at_length v i x : length (set_at v i x) = length v.
Proof. unfold set_at. apply length_insert. Qed.

Lemma set_at_lookup_eq v (i : nat) x :
  (i < length v)%nat -> set_at v (Z.of_nat i) x !! i = Some x.
Proof.
  intros Hi. unfold set_at. rewrite Nat2Z.id. by apply list_lookup_insert_eq.
Qed.

Lemma set_at_lookup_ne v (i j : nat) x :
  i <> j -> set_at v (Z.of_nat i) x !! j = v !! j.
Proof.
  intros Hi. unfold set_at. rewrite Nat2Z.id. by apply list_lookup_insert_ne.
Qed.

(** Three stores into the slots of pixel [p]. *)
Lemma store3_lookup (v : list Z) (p : nat) (x0 x1 x2 : Z) :
  (p * 3 + 2 < length v)%nat ->
  let v' := set_at (set_at (set_at v (Z.of_nat (p * 3 + 2)) x2)
                           (Z.of_nat (p * 3 + 1)) x1)
                   (Z.of_nat (p * 3 + 0)) x0 in
  length v' = length v /\
  v' !! (p * 3 + 0)%nat = Some x0 /\
  v' !! (p * 3 + 1)%nat = Some x1 /\
  v' !! (p * 3 + 2)%nat = Some x2 /\
  forall i : nat, (i < p * 3 \/ p * 3 + 3 <= i)%nat -> v' !! i = v !! i.
Proof.
  intros Hp v'. subst v'.
  split; [by rewrite !set_at_length|].
  split; [rewrite set_at_lookup_eq; [done|rewrite !set_at_length; lia]|].
  split.
  { rewrite set_at_lookup_ne by lia.
    rewrite set_at_lookup_eq; [done|rewrite !set_at_length; lia]. }
  split.
  { rewrite !set_at_lookup_ne by lia. by rewrite set_at_lookup_eq by lia. }
  intros i Hi. by rewrite !set_at_lookup_ne by lia.
Qed.

Section rotate.
Variables (k : nat) (px : list Z).
Hypothesis Hlen : length px = (k * 3)%nat.
Variable step : list Z -> Z -> list Z.
Hypothesis Hstep :
  forall out p,
    step out p
    = set_at (set_at (set_at out (p * 3 + 0)
                             (at_ px ((Z.of_nat k - 1 - p) * 3 + 0)))
                     (p * 3 + 1) (at_ px ((Z.of_nat k - 1 - p) * 3 + 1)))
             (p * 3 + 2) (at_ px ((Z.of_nat k - 1 - p) * 3 + 2)).

Lemma rotate_step_lookup out (p : nat) :
  (p < k)%nat -> length out = length px ->
  length (step out (Z.of_nat p)) = length px /\
  (forall c : nat, (c < 3)%nat ->
     step out (Z.of_nat p) !! (p * 3 + c)%nat
     = px !! ((k - 1 - p) * 3 + c)%nat) /\
  forall i : nat, (i < p * 3)%nat -> step out (Z.of_nat p) !! i = out !! i.
Proof using Hlen Hstep.
  intros Hp Hout. rewrite Hstep.
  assert (forall c : nat, (c < 3)%nat ->
            Some (at_ px ((Z.of_nat k - 1 - Z.of_nat p) * 3 + Z.of_nat c))
            = px !! ((k - 1 - p) * 3 + c)%nat) as Hat.
  { intros c Hc.
    replace ((Z.of_nat k - 1 - Z.of_nat p) * 3 + Z.of_nat c)
      with (Z.of_nat ((k - 1 - p) * 3 + c)) by lia.
    symmetry. apply at_in_range. lia. }
  split; [by rewrite !set_at_length|].
  replace (Z.of_nat p * 3 + 0) with (Z.of_nat (p * 3 + 0)) by lia.
  replace (Z.of_nat p * 3 + 1) with (Z.of_nat (p * 3 + 1)) by lia.
  replace (Z.of_nat p * 3 + 2) with (Z.of_nat (p * 3 + 2)) by lia.
  split.
  - intros c Hc. rewrite <- (Hat c Hc).
    destruct c as [|[|[|c]]]; [| | |lia].
    + rewrite !set_at_lookup_ne by lia.
      by rewrite set_at_lookup_eq by lia.
    + rewrite set_at_lookup_ne by lia.
      by rewrite set_at_lookup_eq by (rewrite set_at_length; lia).
    + by rewrite set_at_lookup_eq by (rewrite !set_at_length; lia).
  - intros i Hi. by rewrite !set_at_lookup_ne by lia.
Qed.

Lemma rotate_loop_inv (t : nat) :
  (t <= k)%nat ->
  length (foldl step (replicate (length px) 0) (seqZ 0 (Z.of_nat t)))
  = length px /\
  forall p c : nat,
    (p < t)%nat -> (c < 3)%nat ->
    foldl step (replicate (length px) 0) (seqZ 0 (Z.of_nat t))
      !! (p * 3 + c)%nat
    = px !! ((k - 1 - p) * 3 + c)%nat.
Proof using Hlen Hstep.
  induction t as [|t IH]; intros Ht.
  - simpl. split; [apply length_replicate | intros; lia].
  - destruct IH as [IHlen IHlk]; [lia|].
    rewrite seqZ_S, foldl_snoc, Z.add_0_l.
    destruct (rotate_step_lookup _ t ltac:(lia) IHlen) as (Hl & Hin & Hbefore).
    split; [done|].
    intros p c Hp Hc. destruct (decide (p < t)%nat) as [Hlt|Hge].
    + rewrite Hbefore by lia. by apply IHlk.
    + assert (p = t) as -> by lia. by apply Hin.
Qed.

Lemma rotate_loop_units :
  foldl step (replicate (length px) 0) (seqZ 0 (Z.of_nat k))
  = concat (reverse (units 3 k px)).
Proof using Hlen Hstep.
  destruct (rotate_loop_inv k ltac:(lia)) as [Hl Hlk].
  apply list_eq_same_length with (k * 3)%nat.
  - by apply reverse_units_length.
  - congruence.
  - intros i x y Hi.
    destruct (index_split 3 k i Hi) as (r & j & Hr & Hj & ->).
    rewrite Hlk, reverse_units_lookup by done. congruence.
Qed.
End rotate.

Lemma rotate180_units src :
  0 <= Image.width src * Image.height src ->
  Z.of_nat (length (Image.pixels src))
    = Image.width src * Image.height src * Image.PIXEL_SIZE ->
  Image.pixels (rotate180_out src)
  = concat (reverse (units 3 (Z.to_nat (Image.width src * Image.height src))
                           (Image.pixels src))).
Proof.
  intros Hpos Hlen. unfold rotate180_out, rotate_pixels. cbn [Image.pixels].
  pose proof (rotate_loop_units
                (Z.to_nat (Image.width src * Image.height src))
                (Image.pixels src)) as Hloop.
  rewrite !Z2Nat.id in Hloop by done.
  apply Hloop; [|done].
  unfold Image.PIXEL_SIZE in Hlen. lia.
Qed.

(** ** The loop of [combineRGB] *)

Lemma pixel_offsets_units (k : nat) :
  pixel_offsets (Z.of_nat k * Image.PIXEL_SIZE)
  = (fun p => p * Image.PIXEL_SIZE) <$> seqZ 0 (Z.of_nat k).
Proof.
  unfold pixel_offsets, Image.PIXEL_SIZE. do 2 f_equal.
  symmetry. apply (Z.div_unique _ _ _ 2); lia.
Qed.

Section combine.
Variables (k : nat) (rp gp bp : list Z).
Variable step : list Z -> Z -> list Z.
Hypothesis Hstep :
  forall out i,
    step out i
    = set_at (set_at (set_at out (i + 2) (at_ rp i)) (i + 1) (at_ gp i))
             (i + 0) (at_ bp i).

Lemma combine_loop_inv (t : nat) :
  (t <= k)%nat ->
  length (foldl step (replicate (k * 3) 0)
                ((fun p => p * 3) <$> seqZ 0 (Z.of_nat t)))
  = (k * 3)%nat /\
  forall p : nat,
    (p < t)%nat ->
    foldl step (replicate (k * 3) 0) ((fun p => p * 3) <$> seqZ 0 (Z.of_nat t))
      !! (p * 3 + 0)%nat = Some (at_ bp (Z.of_nat (p * 3))) /\
    foldl step (replicate (k * 3) 0) ((fun p => p * 3) <$> seqZ 0 (Z.of_nat t))
      !! (p * 3 + 1)%nat = Some (at_ gp (Z.of_nat (p * 3))) /\
    foldl step (replicate (k * 3) 0) ((fun p => p * 3) <$> seqZ 0 (Z.of_nat t))
      !! (p * 3 + 2)%nat = Some (at_ rp (Z.of_nat (p * 3))).
Proof using Hstep.
  induction t as [|t IH]; intros Ht.
  - simpl. split; [apply length_replicate | intros; lia].
  - destruct IH as [IHlen IHlk]; [lia|].
    rewrite seqZ_S, fmap_app, foldl_app. simpl.
    set (tmp := foldl step (replicate (k * 3) 0) _) in *.
    rewrite Hstep, Z.add_0_l.
    replace (Z.of_nat t * 3) with (Z.of_nat (t * 3)) by lia.
    replace (Z.of_nat (t * 3) + 2) with (Z.of_nat (t * 3 + 2)) by lia.
    replace (Z.of_nat (t * 3) + 1) with (Z.of_nat (t * 3 + 1)) by lia.
    replace (Z.of_nat (t * 3) + 0) with (Z.of_nat (t * 3 + 0)) by lia.
    destruct (store3_lookup tmp t (at_ bp (Z.of_nat (t * 3)))
                            (at_ gp (Z.of_nat (t * 3)))
                            (at_ rp (Z.of_nat (t * 3))))
      as (Hl & H0 & H1 & H2 & Hother); [lia|].
    split; [lia|].
    intros p Hp. destruct (decide (p < t)%nat) as [Hlt|Hge].
    + rewrite !Hother by lia. by apply IHlk.
    + by assert (p = t) as -> by lia.
Qed.
End combine.

(** What [combineRGB] stores: every sample is read from offset [i + 0] of
    its source pixel. *)
Lemma combineRGB_reads_first_slot r g b :
  Image.width r = Image.width g -> Image.width r = Image.width b ->
  Image.height r = Image.height g -> Image.height r = Image.height b ->
  valid_image r -> valid_image g -> valid_image b -> fits_int r ->
  exists out,
    combineRGB r g b = Ok out /\
    Image.width out = Image.width r /\
    Image.height out = Image.height r /\
    length (Image.pixels out) = length (Image.pixels r) /\
    forall p : nat,
      Z.of_nat p < Image.width r * Image.height r ->
      Image.pixels out !! (p * 3 + 0)%nat = Image.pixels b !! (p * 3)%nat /\
      Image.pixels out !! (p * 3 + 1)%nat = Image.pixels g !! (p * 3)%nat /\
      Image.pixels out !! (p * 3 + 2)%nat = Image.pixels r !! (p * 3)%nat.
Proof.
  intros Hwg Hwb Hhg Hhb (Hw & Hh & Hlr & _) (_ & _ & Hlg & _) (_ & _ & Hlb & _)
         Hfit.
  unfold is_u16, fits_int in *. unfold combineRGB.
  rewrite <- Hwg, <- Hwb, <- Hhg, <- Hhb in *. rewrite !Z.eqb_refl.
  cbn [negb orb]. cbv zeta.
  rewrite in_int_true by (unfold INT_MIN; nia). cbn [negb].
  eexists. split; [reflexivity|]. cbn [Image.width Image.height Image.pixels].
  split; [done|]. split; [done|].
  set (k := Z.to_nat (Image.width r * Image.height r)).
  assert (Image.width r * Image.height r = Z.of_nat k) as Hk by nia.
  rewrite Hk in *. rewrite pixel_offsets_units.
  unfold Image.PIXEL_SIZE in *.
  replace (Z.to_nat (Z.of_nat k * 3)) with (k * 3)%nat by lia.
  match goal with
  | |- context [foldl ?f _ _] =>
      destruct (combine_loop_inv k (Image.pixels r) (Image.pixels g)
                  (Image.pixels b) f (fun _ _ => eq_refl) k ltac:(lia))
        as [Hl Hlk]
  end.
  split; [lia|].
  intros p Hp.
  rewrite (at_in_range (Image.pixels b)), (at_in_range (Image.pixels g)),
    (at_in_range (Image.pixels r)) by lia.
  apply Hlk. lia.
Qed.

(** ** Headers on the wire *)

Lemma Header_bytes_length hd : length (TGA.Header_bytes hd) = 18%nat.
Proof. reflexivity. Qed.

Lemma u16_join v : is_u16 v -> v `mod` 256 + 256 * ((v / 256) `mod` 256) = v.
Proof.
  unfold is_u16. intros Hv.
  rewrite (Z.mod_small (v / 256)).
  - pose proof (Z.div_mod v 256 ltac:(lia)). lia.
  - split; [apply Z.div_pos; lia | apply Z.div_lt_upper_bound; lia].
Qed.

Lemma Header_of_bytes_app bs tl :
  length bs = 18%nat -> TGA.Header_of_bytes (bs ++ tl) = TGA.Header_of_bytes bs.
Proof.
  intros Hlen. unfold TGA.Header_of_bytes, TGA.u16_at.
  by rewrite !at_app_l by (rewrite Hlen; lia).
Qed.

Lemma Header_roundtrip hd :
  valid_header hd -> TGA.Header_of_bytes (TGA.Header_bytes hd) = hd.
Proof.
  destruct hd as [il cmt dtc cmo cml cmd xo yo w h bpp desc].
  unfold valid_header. cbn [TGA.idLength TGA.colorMapType TGA.dataTypeCode
    TGA.colorMapOrigin TGA.colorMapLength TGA.colorMapDepth TGA.xOrigin
    TGA.yOrigin TGA.width TGA.height TGA.bitsPerPixel TGA.imageDescriptor].
  intros (_ & _ & _ & Hcmo & Hcml & _ & Hxo & Hyo & Hw & Hh & _ & _).
  unfold TGA.Header_of_bytes, TGA.Header_bytes, TGA.u16_at, TGA.u16_bytes, at_.
  cbv -[Z.modulo Z.div Z.add Z.mul].
  by rewrite !u16_join by done.
Qed.

Lemma u16_at_range bs i :
  Forall is_byte bs -> 0 <= TGA.u16_at bs i.
Proof.
  intros Hbs. unfold TGA.u16_at.
  pose proof (at_nonneg bs i Hbs). pose proof (at_nonneg bs (i + 1) Hbs). lia.
Qed.

(** ** Streams *)

Lemma read_ok bs (n : nat) tl :
  length bs = n ->
  read {| rest := bs ++ tl; in_fail := false |} (Z.of_nat n)
  = (bs, {| rest := tl; in_fail := false |}).
Proof.
  intros Hn. unfold read. cbn [rest in_fail]. rewrite Nat2Z.id.
  rewrite length_app.
  destruct (n <=? length bs + length tl)%nat eqn:E.
  - by rewrite take_app_length', drop_app_length'.
  - apply Nat.leb_gt in E. lia.
Qed.

(** A read that leaves the stream good took exactly [n] bytes. *)
Lemma read_good f n buf f' :
  in_fail f = false -> read f n = (buf, f') -> in_fail f' = false ->
  (Z.to_nat n <= length (rest f))%nat /\
  buf = take (Z.to_nat n) (rest f) /\
  rest f' = drop (Z.to_nat n) (rest f).
Proof.
  intros Hf. unfold read. rewrite Hf.
  destruct (Z.to_nat n <=? length (rest f))%nat eqn:E.
  - intros [= <- <-] _. apply Nat.leb_le in E. done.
  - intros [= <- <-]. done.
Qed.

(** The invariant of an output stream. *)
Lemma stream_inv_open cap : stream_inv cap ofstream_open [].
Proof. split; [cbn; lia|done]. Qed.

Lemma write_inv fl cap f bs total :
  stream_inv cap f total -> stream_inv cap (write fl cap f bs) (total ++ bs).
Proof.
  intros [Hcap Hst]. unfold write.
  destruct (out_fail f) eqn:Ef.
  - split; [done|]. rewrite Ef. destruct Hst as (Hp & Hw & Hlt).
    split; [done|]. split.
    + rewrite Hw. by rewrite take_app_le by lia.
    + rewrite length_app. lia.
  - unfold emit. cbn [written pending out_fail].
    set (k := fl (length (pending f)) (length bs)).
    destruct (Nat.leb_spec
                (length (written f) + length (take k (pending f ++ bs))) cap)
      as [Hfit|Hfull].
    + split; cbn [written pending out_fail].
      * rewrite length_app. lia.
      * by rewrite <- app_assoc, take_drop, app_assoc, Hst.
    + split; cbn [written pending out_fail].
      * rewrite length_app, length_take. lia.
      * split; [done|]. rewrite <- Hst.
        assert (length (take k (pending f ++ bs))
                <= length (pending f ++ bs))%nat as Hle
          by (rewrite length_take; lia).
        split.
        -- rewrite <- app_assoc, (take_app (written f)).
           rewrite (take_ge (written f)) by lia.
           f_equal. rewrite take_take. f_equal.
           rewrite length_take in Hfull. lia.
        -- rewrite !length_app in *. lia.
Qed.

Lemma write_all_inv fl cap (chunks : list (list Z)) :
  forall f total,
    stream_inv cap f total ->
    stream_inv cap (foldl (write fl cap) f chunks) (total ++ concat chunks).
Proof.
  induction chunks as [|c chunks IH]; intros f total Hinv; cbn [foldl concat].
  - by rewrite app_nil_r.
  - rewrite app_assoc. apply IH. by apply write_inv.
Qed.

(** The file after the stream is closed holds what was written, as far as
    the device has room; the bad bit is set only if it has not. *)
Lemma close_inv cap f total :
  stream_inv cap f total -> close cap f = take cap total.
Proof.
  intros [Hcap Hst]. unfold close. destruct (out_fail f).
  - destruct Hst as (-> & Hw & _). by rewrite take_nil, app_nil_r.
  - rewrite <- Hst, take_app, (take_ge (written f)) by lia. done.
Qed.

Lemma fail_inv cap f total :
  stream_inv cap f total -> out_fail f = true -> (cap < length total)%nat.
Proof. intros [_ Hst] Hf. rewrite Hf in Hst. by destruct Hst as (_ & _ & ?). Qed.

(** Without buffering the bad bit tells whether everything fitted. *)
Lemma write_unbuffered cap (chunks : list (list Z)) :
  forall f total,
    stream_inv cap f total -> pending f = [] ->
    (out_fail f = false -> (length total <= cap)%nat) ->
    out_fail (foldl (write unbuffered cap) f chunks)
    = negb (length (total ++ concat chunks) <=? cap)%nat.
Proof.
  induction chunks as [|c chunks IH]; intros f total Hinv Hp Hf;
    cbn [foldl concat].
  - rewrite app_nil_r. destruct (out_fail f) eqn:Ef.
    + pose proof (fail_inv _ _ _ Hinv Ef).
      by destruct (Nat.leb_spec (length total) cap); [lia|].
    + specialize (Hf eq_refl).
      by destruct (Nat.leb_spec (length total) cap); [|lia].
  - rewrite app_assoc. apply IH.
    + by apply write_inv.
    + unfold write, unbuffered, emit. destruct (out_fail f); [done|].
      cbn [written pending out_fail]. rewrite Hp, app_nil_l.
      match goal with |- context [if ?c then _ else _] => destruct c end;
        cbn [pending]; [|done].
      apply drop_ge. lia.
    + destruct Hinv as [Hcap Hst0].
      unfold write, unbuffered, emit in *.
      destruct (out_fail f) eqn:Ef; [by rewrite Ef|].
      cbn [written pending out_fail]. rewrite Hp, app_nil_l in *.
      rewrite app_nil_r in Hst0. rewrite take_ge by lia.
      destruct (Nat.leb_spec (length (written f) + length c) cap);
        cbn [out_fail]; [|done].
      intros _. rewrite length_app, <- Hst0. lia.
Qed.

(** With a buffer that takes everything the bad bit is never set. *)
Lemma write_buffered cap (chunks : list (list Z)) :
  forall f,
    out_fail f = false -> (length (written f) <= cap)%nat ->
    out_fail (foldl (write buffered cap) f chunks) = false /\
    written (foldl (write buffered cap) f chunks) = written f.
Proof.
  induction chunks as [|c chunks IH]; intros f Hf Hcap; cbn [foldl]; [done|].
  assert (write buffered cap f c
          = {| written := written f; pending := pending f ++ c;
               out_fail := false |}) as ->.
  { unfold write, buffered, emit. rewrite Hf. cbn [written pending].
    rewrite take_0, drop_0, app_nil_r. cbn [length].
    by destruct (Nat.leb_spec (length (written f) + 0) cap); [|lia]. }
  exact (IH {| written := written f; pending := pending f ++ c;
               out_fail := false |} eq_refl Hcap).
Qed.

(** ** [TGA::save] *)

Lemma rows_units img :
  0 <= Image.width img -> 0 <= Image.height img ->
  TGA.row img <$> seqZ 0 (Image.height img)
  = units (Z.to_nat (Image.width img * Image.PIXEL_SIZE))
          (Z.to_nat (Image.height img)) (Image.pixels img).
Proof.
  intros Hw Hh.
  apply list_eq_same_length with (Z.to_nat (Image.height img)).
  - apply units_length.
  - by rewrite length_fmap, length_seqZ.
  - intros i x y Hi.
    rewrite list_lookup_fmap, lookup_seqZ_lt, units_lookup by lia. simpl.
    intros [= <-] [= <-]. unfold TGA.row, Image.PIXEL_SIZE.
    do 2 f_equal. nia.
Qed.

Lemma save_stream_rows fl cap img :
  TGA.save_stream fl cap img
  = foldl (write fl cap)
          (write fl cap ofstream_open (TGA.Header_bytes (TGA.save_header img)))
          (TGA.row img <$> seqZ 0 (Image.height img)).
Proof. unfold TGA.save_stream. by rewrite foldl_fmap. Qed.

(** What [save] has handed to the stream when it tests it: the header and
    the rows. *)
Lemma save_stream_sent fl cap img :
  stream_inv cap (TGA.save_stream fl cap img)
             (TGA.Header_bytes (TGA.save_header img)
              ++ concat (TGA.row img <$> seqZ 0 (Image.height img))).
Proof.
  rewrite save_stream_rows. apply write_all_inv.
  apply (write_inv fl cap ofstream_open _ []), stream_inv_open.
Qed.

Lemma rows_concat img :
  valid_image img ->
  concat (TGA.row img <$> seqZ 0 (Image.height img)) = Image.pixels img.
Proof.
  intros (Hw & Hh & Hlen & _). unfold is_u16 in *.
  rewrite rows_units by lia.
  apply units_concat. unfold Image.PIXEL_SIZE in *. nia.
Qed.

Lemma save_stream_inv fl cap img :
  valid_image img ->
  stream_inv cap (TGA.save_stream fl cap img)
             (TGA.Header_bytes (TGA.save_header img) ++ Image.pixels img).
Proof.
  intros Hv. rewrite <- (rows_concat img Hv). apply save_stream_sent.
Qed.

(** The outcome of a function that writes [total] to a fresh stream, tests
    the stream and leaves: the file holds the first bytes of [total] that
    the device has room for; the test finds the stream good if everything
    fits, and cannot find it bad otherwise unless the library has passed
    the bytes on by then. *)
Lemma tested_stream cap f total (path : string) :
  stream_inv cap f total ->
  close cap f = take cap total /\
  ((length total <= cap)%nat ->
   close cap f = total /\
   (if out_fail f then Throw (WriteFailed path) else Ok tt) = Ok tt) /\
  ((if out_fail f then Throw (WriteFailed path) else Ok tt) = Ok tt \/
   (if out_fail f then Throw (WriteFailed path) else Ok tt)
   = Throw (WriteFailed path) /\ (cap < length total)%nat).
Proof.
  intros Hinv. pose proof (close_inv _ _ _ Hinv) as Hc.
  split; [done|]. split.
  - intros Hfit. rewrite Hc, take_ge by done. split; [done|].
    destruct (out_fail f) eqn:Ef; [|done].
    pose proof (fail_inv _ _ _ Hinv Ef). lia.
  - destruct (out_fail f) eqn:Ef; [right|by left].
    split; [done|]. by apply (fail_inv _ _ _ Hinv).
Qed.

(** ** [TGA::load] *)

Lemma seek_id (il : Z) (f : ifstream) :
  in_fail f = false ->
  (if negb (il =? 0) then seekg_cur f il else f)
  = {| rest := drop (Z.to_nat il) (rest f); in_fail := false |}.
Proof.
  intros Hf. destruct (il =? 0) eqn:E; simpl.
  - apply Z.eqb_eq in E. subst il. simpl. by destruct f; simpl in *; subst.
  - unfold seekg_cur. by rewrite Hf.
Qed.

Lemma load_tga_file fs path hd id payload tl :
  files fs !! path = Some (tga_file hd id payload ++ tl) ->
  valid_header hd ->
  TGA.colorMapType hd = 0 -> TGA.dataTypeCode hd = 2 ->
  TGA.bitsPerPixel hd = 24 ->
  Z.of_nat (length id) = TGA.idLength hd ->
  Z.of_nat (length payload)
    = TGA.width hd * TGA.height hd * Image.PIXEL_SIZE ->
  TGA.width hd * TGA.height hd <= INT_MAX ->
  TGA.load fs path
  = Ok {| Image.width := TGA.width hd;
          Image.height := TGA.height hd;
          Image.pixels := oriented hd payload |}.
Proof.
  intros Hfile Hvalid Hcmt Hdtc Hbpp Hid Hpay Hfit.
  unfold TGA.load. rewrite Hfile. unfold tga_file.
  change TGA.sizeof_Header with (Z.of_nat 18).
  rewrite <- !app_assoc, read_ok by apply Header_bytes_length.
  cbv zeta. rewrite Header_roundtrip by done.
  rewrite Hcmt, Hdtc, Hbpp. cbn [Z.eqb Pos.eqb negb].
  rewrite seek_id by done. cbn [rest].
  rewrite in_int_true
    by (unfold INT_MIN, Image.PIXEL_SIZE in *; lia).
  cbn [negb].
  rewrite <- Hid, Nat2Z.id, drop_app_length.
  rewrite <- Hpay, read_ok by done.
  cbn [in_fail]. done.
Qed.

(** A header whose product of extents is outside the range of [int] has
    no defined outcome, whatever the file holds after it. *)
Lemma load_overflow fs path hd id payload tl :
  files fs !! path = Some (tga_file hd id payload ++ tl) ->
  valid_header hd ->
  TGA.colorMapType hd = 0 -> TGA.dataTypeCode hd = 2 ->
  TGA.bitsPerPixel hd = 24 ->
  INT_MAX < TGA.width hd * TGA.height hd ->
  TGA.load fs path = Undefined.
Proof.
  intros Hfile Hvalid Hcmt Hdtc Hbpp Hbig.
  unfold TGA.load. rewrite Hfile. unfold tga_file.
  change TGA.sizeof_Header with (Z.of_nat 18).
  rewrite <- !app_assoc, read_ok by apply Header_bytes_length.
  cbv zeta. rewrite Header_roundtrip by done.
  rewrite Hcmt, Hdtc, Hbpp. cbn [Z.eqb Pos.eqb negb].
  by rewrite in_int_false.
Qed.

Lemma load_Ok_inv fs path img :
  TGA.load fs path = Ok img ->
  exists bytes,
    files fs !! path = Some bytes /\
    (18 <= length bytes)%nat /\
    let hd := TGA.Header_of_bytes (take 18 bytes) in
    let n := Z.to_nat (TGA.width hd * TGA.height hd * Image.PIXEL_SIZE) in
    let payload := take n (drop (18 + Z.to_nat (TGA.idLength hd)) bytes) in
    TGA.colorMapType hd = 0 /\ TGA.dataTypeCode hd = 2 /\
    TGA.bitsPerPixel hd = 24 /\
    length payload = n /\
    img = {| Image.width := TGA.width hd;
             Image.height := TGA.height hd;
             Image.pixels := oriented hd payload |} /\
    TGA.width hd * TGA.height hd <= INT_MAX.
Proof.
  unfold TGA.load. destruct (files fs !! path) as [bytes|]; [|done].
  intros Hload. exists bytes. split; [done|].
  unfold read at 1 in Hload. cbn [in_fail rest] in Hload.
  change (Z.to_nat TGA.sizeof_Header) with 18%nat in Hload.
  destruct (18 <=? length bytes)%nat eqn:E18.
  - apply Nat.leb_le in E18. split; [done|]. cbv zeta in *.
    set (hd := TGA.Header_of_bytes (take 18 bytes)) in *.
    destruct (TGA.colorMapType hd =? 0) eqn:Ecmt; [|done].
    destruct (TGA.dataTypeCode hd =? 2) eqn:Edtc; [|done].
    destruct (TGA.bitsPerPixel hd =? 24) eqn:Ebpp; [|done].
    cbn [negb] in Hload.
    rewrite seek_id in Hload by done. cbn [rest] in Hload.
    rewrite drop_drop in Hload.
    destruct (in_int _) eqn:Eint; [|done]. cbn [negb] in Hload.
    apply in_int_spec in Eint.
    destruct (read _ _) as [px f'] eqn:Eread.
    destruct (in_fail f') eqn:Ef'; [done|].
    apply read_good in Eread as (Hn & -> & _); [|done|done].
    cbn [rest] in *.
    apply Z.eqb_eq in Ecmt, Edtc, Ebpp.
    repeat (split; [done|]). split; [|split].
    + rewrite length_take. lia.
    + by injection Hload as <-.
    + lia.
  - cbv zeta in Hload.
    destruct (negb (TGA.colorMapType _ =? 0)); [done|].
    destruct (negb (TGA.dataTypeCode _ =? 2)); [done|].
    destruct (negb (TGA.bitsPerPixel _ =? 24)); [done|].
    destruct (negb (in_int _)); [done|].
    destruct (negb (TGA.idLength _ =? 0)); done.
Qed.

(** ** The checks of [Tests::runAll], on the model *)

Example test_blend_add :
  (Blend.blendPixel Blend._lut_bootstrap Blend.ADD [100; 150; 200] [50; 50; 50]).2
  = [150; 200; 250].
Proof. reflexivity. Qed.

Example test_blend_sub :
  (Blend.blendPixel Blend._lut_bootstrap Blend.SUBTRACT
                    [100; 150; 200] [50; 50; 50]).2
  = [50; 100; 150].
Proof. reflexivity. Qed.

Example test_blend_mult_gray :
  (Blend.blendPixel Blend._lut_bootstrap Blend.MULTIPLY
                    [100; 150; 200] [128; 128; 128]).2
  = [50; 75; 100].
Proof. reflexivity. Qed.

Example test_round_trip_2x2 :
  let t := Image.mk 2 2 [0; 0; 255; 0; 255; 0; 255; 0; 0; 128; 128; 128] in
  let fs :=
    (TGA.save buffered (mkFS ∅ (fun _ => false) 64) t "test_2x2.tga").1 in
  exists l p00 p11,
    TGA.load fs "test_2x2.tga" = Ok l /\
    Image.px l 0 0 = Some p00 /\ Image.px l 1 1 = Some p11 /\
    at_ (Image.pixels l) (p00 + 2) = 255 /\
    at_ (Image.pixels l) (p11 + 0) = 128 /\
    at_ (Image.pixels l) (p11 + 1) = 128.
Proof.
  eexists _, _, _. split; [vm_compute; reflexivity|].
  split; [vm_compute; reflexivity|]. split; [vm_compute; reflexivity|].
  by vm_compute.
Qed.

(** * The properties of the specification *)

(** ** Blend formulas *)

(** The table-driven engine: for sample bytes [B] (base) and [O] (overlay),
    Multiply stores [(B*O + 127) / 255] and Screen stores
    [255 - ((255-B)*(255-O) + 127) / 255]; the quotient is the integer
    nearest to the exact ratio, and it is one more than the truncating
    quotient exactly when the remainder is 128 or more. *)
Theorem multiply_screen_round_to_nearest
    (L : Blend.Luts) (a b : list Z) (i : nat) (B O : Z) :
  lut_inv L -> (i < 3)%nat ->
  a !! i = Some B -> b !! i = Some O -> is_byte B -> is_byte O ->
  let mul := (B * O + 127) / 255 in
  let scr := ((255 - B) * (255 - O) + 127) / 255 in
  (Blend.blendPixel L Blend.MULTIPLY a b).2 !! i = Some mul /\
  nearest255 (B * O) mul /\
  mul = B * O / 255 + (if 128 <=? (B * O) `mod` 255 then 1 else 0) /\
  (Blend.blendPixel L Blend.SCREEN a b).2 !! i = Some (255 - scr) /\
  nearest255 ((255 - B) * (255 - O)) scr /\
  scr = (255 - B) * (255 - O) / 255
        + (if 128 <=? ((255 - B) * (255 - O)) `mod` 255 then 1 else 0).
Proof.
  intros HL Hi Ha Hb HB HO mul scr. subst mul scr.
  rewrite !blendPixel_lookup by done.
  rewrite (at_lookup _ _ _ Ha), (at_lookup _ _ _ Hb).
  rewrite blendChannel_multiply, blendChannel_screen by done.
  unfold is_byte in *.
  split; [done|]. split; [apply round255_nearest; nia|].
  split; [apply round255_trunc; nia|].
  split; [done|]. split; [apply round255_nearest; nia|].
  apply round255_trunc; nia.
Qed.

Lemma multiply_screen_round_witness :
  (Blend.blendPixel Blend.luts_static Blend.MULTIPLY
                    [1; 150; 200] [128; 128; 128]).2 !! 0%nat = Some 1 /\
  (Blend.blendPixel Blend.luts_static Blend.SCREEN
                    [1; 150; 200] [128; 128; 128]).2 !! 0%nat = Some 128.
Proof.
  assert (lut_inv Blend.luts_static) as HL by (intros H; discriminate H).
  assert (is_byte 1) as H1 by (unfold is_byte; lia).
  assert (is_byte 128) as H128 by (unfold is_byte; lia).
  pose proof (multiply_screen_round_to_nearest Blend.luts_static
                [1; 150; 200] [128; 128; 128] 0 1 128 HL ltac:(lia)
                eq_refl eq_refl H1 H128) as (Hm & _ & _ & Hs & _).
  split; [exact Hm | exact Hs].
Defined.

(** The table-driven engine: Overlay stores [round(2*B*O/255)] when the
    base sample [B] is below 128 and [255 - round(2*(255-B)*(255-O)/255)] from 128 on; the bases 127
    and 128 take the two branches, and there the branches give values the
    other formula does not. *)
Theorem overlay_branch_at_128
    (L : Blend.Luts) (a b : list Z) (i : nat) (B O : Z) :
  (i < 3)%nat ->
  a !! i = Some B -> b !! i = Some O -> is_byte B -> is_byte O ->
  let low := fun B O => (2 * B * O + 127) / 255 in
  let high := fun B O => 255 - (2 * (255 - B) * (255 - O) + 127) / 255 in
  (Blend.blendPixel L Blend.OVERLAY a b).2 !! i
    = Some (if B <? 128 then low B O else high B O) /\
  nearest255 (2 * B * O) (low B O) /\
  nearest255 (2 * (255 - B) * (255 - O)) (255 - high B O) /\
  (Blend.blendPixel L Blend.OVERLAY (replicate 3 127) b).2 !! i
    = Some (low 127 O) /\
  (Blend.blendPixel L Blend.OVERLAY (replicate 3 128) b).2 !! i
    = Some (high 128 O) /\
  (Blend.blendPixel L Blend.OVERLAY [128; 128; 128] [0; 0; 0]).2 !! i = Some 1 /\
  low 128 0 = 0 /\
  (Blend.blendPixel L Blend.OVERLAY [127; 127; 127] [255; 255; 255]).2 !! i
    = Some 254 /\
  high 127 255 = 255.
Proof.
  intros Hi Ha Hb HB HO low high.
  assert (forall a' b' B' O',
            a' !! i = Some B' -> b' !! i = Some O' ->
            is_byte B' -> is_byte O' ->
            (Blend.blendPixel L Blend.OVERLAY a' b').2 !! i
            = Some (if B' <? 128 then low B' O' else high B' O')) as Hgen.
  { intros a' b' B' O' Ha' Hb' HB' HO'.
    rewrite blendPixel_lookup by done.
    rewrite (at_lookup _ _ _ Ha'), (at_lookup _ _ _ Hb').
    by rewrite blendChannel_overlay by done. }
  assert (forall x : Z, replicate 3 x !! i = Some x) as Hrep.
  { intros x. apply lookup_replicate_2. lia. }
  unfold is_byte in *.
  split; [by apply Hgen|].
  split; [apply round255_nearest; nia|].
  split.
  { subst high. cbv beta.
    replace (255 - (255 - (2 * (255 - B) * (255 - O) + 127) / 255))
      with ((2 * (255 - B) * (255 - O) + 127) / 255) by lia.
    apply round255_nearest; nia. }
  split; [by rewrite (Hgen _ _ 127 O) by (try done; unfold is_byte; lia)|].
  split; [by rewrite (Hgen _ _ 128 O) by (try done; unfold is_byte; lia)|].
  split; [by rewrite (Hgen _ _ 128 0) by (try apply (Hrep _); unfold is_byte; lia)|].
  split; [done|].
  split; [by rewrite (Hgen _ _ 127 255) by (try apply (Hrep _); unfold is_byte; lia)|].
  done.
Qed.

Lemma overlay_branch_witness :
  (Blend.blendPixel Blend.luts_static Blend.OVERLAY
                    [127; 128; 200] [0; 0; 128]).2 !! 1%nat = Some 1.
Proof.
  assert (is_byte 128) as H128 by (unfold is_byte; lia).
  assert (is_byte 0) as H0 by (unfold is_byte; lia).
  exact (proj1 (overlay_branch_at_128 Blend.luts_static
                  [127; 128; 200] [0; 0; 128] 1 128 0 ltac:(lia)
                  eq_refl eq_refl H128 H0)).
Defined.

(** ** Blending buffers *)

(** What [apply] does after the size check, by the number of pixels. *)
Lemma apply_defined L bot top m :
  Image.width bot = Image.width top -> Image.height bot = Image.height top ->
  0 <= Image.width bot * Image.height bot <= INT_MAX ->
  Blend.apply L bot top m
  = ((Blend.apply_loop (Z.to_nat (Image.width bot * Image.height bot)) L m
                       (Image.pixels bot) (Image.pixels top)).1,
     Ok {| Image.width := Image.width bot;
           Image.height := Image.height bot;
           Image.pixels :=
             (Blend.apply_loop
                (Z.to_nat (Image.width bot * Image.height bot)) L m
                (Image.pixels bot) (Image.pixels top)).2 |}).
Proof.
  intros Hw Hh Hfit. unfold Blend.apply.
  rewrite <- Hw, <- Hh, !Z.eqb_refl. cbn [negb orb]. cbv zeta.
  rewrite in_int_true by (unfold INT_MIN; lia). cbn [negb].
  by destruct (Blend.apply_loop _ L m _ _).
Qed.


(** Every buffer [load] returns has at most [INT_MAX] pixels. *)
Lemma load_fits_int fs path img : TGA.load fs path = Ok img -> fits_int img.
Proof.
  intros H. destruct (load_Ok_inv _ _ _ H) as (bytes & _ & _ & Hrest).
  cbv zeta in Hrest. destruct Hrest as (_ & _ & _ & _ & -> & Hfit). done.
Qed.

Lemma valid_fits_nonneg img :
  valid_image img -> fits_int img ->
  0 <= Image.width img * Image.height img <= INT_MAX.
Proof. intros (Hw & Hh & _) Hf. unfold is_u16, fits_int in *. nia. Qed.



(** C8: a blend of any mode, and [combineRGB], fail with their size-mismatch
    error, and return no buffer, exactly when the operands differ in width
    or in height. *)
Theorem size_mismatch_is_reported :
  (forall (L : Blend.Luts) (bot top : Image) (m : Blend.Mode),
     Image.width bot <> Image.width top \/ Image.height bot <> Image.height top ->
     Blend.apply L bot top m
     = (L, Throw (BlendSizeMismatch (Image.width bot) (Image.height bot)
                                    (Image.width top) (Image.height top)))) /\
  (forall (L : Blend.Luts) (bot top : Image) (m : Blend.Mode) L' out,
     Blend.apply L bot top m = (L', Ok out) ->
     Image.width bot = Image.width top /\ Image.height bot = Image.height top /\
     Image.width out = Image.width bot /\ Image.height out = Image.height bot) /\
  (forall r g b : Image,
     ~ (Image.width r = Image.width g /\ Image.width r = Image.width b /\
        Image.height r = Image.height g /\ Image.height r = Image.height b) ->
     combineRGB r g b = Throw CombineSizeMismatch) /\
  (forall (r g b out : Image),
     combineRGB r g b = Ok out ->
     Image.width r = Image.width g /\ Image.width r = Image.width b /\
     Image.height r = Image.height g /\ Image.height r = Image.height b /\
     Image.width out = Image.width r /\ Image.height out = Image.height r).
Proof.
  split; [|split; [|split]].
  - intros L bot top m Hne. unfold Blend.apply.
    destruct (Image.width bot =? Image.width top) eqn:Ew;
      destruct (Image.height bot =? Image.height top) eqn:Eh;
      cbn [negb orb]; try done.
    apply Z.eqb_eq in Ew, Eh. lia.
  - intros L bot top m L' out. unfold Blend.apply.
    destruct (Image.width bot =? Image.width top) eqn:Ew;
      destruct (Image.height bot =? Image.height top) eqn:Eh;
      cbn [negb orb]; try done.
    apply Z.eqb_eq in Ew, Eh. cbv zeta.
    destruct (in_int _); cbn [negb]; [|done].
    destruct (Blend.apply_loop _ _ _ _ _) as [L2 o].
    by intros [= _ <-].
  - intros r g b Hne. unfold combineRGB.
    destruct (Image.width r =? Image.width g) eqn:E1;
      destruct (Image.width r =? Image.width b) eqn:E2;
      destruct (Image.height r =? Image.height g) eqn:E3;
      destruct (Image.height r =? Image.height b) eqn:E4;
      cbn [negb orb]; try done.
    apply Z.eqb_eq in E1, E2, E3, E4. tauto.
  - intros r g b out. unfold combineRGB.
    destruct (Image.width r =? Image.width g) eqn:E1;
      destruct (Image.width r =? Image.width b) eqn:E2;
      destruct (Image.height r =? Image.height g) eqn:E3;
      destruct (Image.height r =? Image.height b) eqn:E4;
      cbn [negb orb]; try done.
    apply Z.eqb_eq in E1, E2, E3, E4. cbv zeta.
    destruct (in_int _); cbn [negb]; [|done]. by intros [= <-].
Qed.

Lemma size_mismatch_witness :
  Blend.apply Blend.luts_static (Image.mk 2 1 [1; 2; 3; 4; 5; 6])
              (Image.mk 1 1 [1; 2; 3]) Blend.ADD
  = (Blend.luts_static, Throw (BlendSizeMismatch 2 1 1 1)) /\
  combineRGB (Image.mk 1 1 [1; 2; 3]) (Image.mk 1 1 [1; 2; 3])
             (Image.mk 1 2 [1; 2; 3; 4; 5; 6])
  = Throw CombineSizeMismatch.
Proof.
  destruct size_mismatch_is_reported as (Hb & _ & Hc & _).
  split.
  - apply (Hb Blend.luts_static (Image.mk 2 1 [1; 2; 3; 4; 5; 6])
              (Image.mk 1 1 [1; 2; 3]) Blend.ADD).
    left. cbn. lia.
  - apply (Hc (Image.mk 1 1 [1; 2; 3]) (Image.mk 1 1 [1; 2; 3])
              (Image.mk 1 2 [1; 2; 3; 4; 5; 6])).
    cbn. lia.
Defined.

(** ** The codec *)

Lemma valid_save_header img :
  is_u16 (Image.width img) -> is_u16 (Image.height img) ->
  valid_header (TGA.save_header img).
Proof.
  intros Hw Hh. unfold valid_header, TGA.save_header, is_byte, is_u16 in *.
  cbn. repeat split; lia.
Qed.

Lemma oriented_clear hd payload :
  Z.land (TGA.imageDescriptor hd) TGA.ORIGIN_TOP_LEFT = 0 ->
  oriented hd payload = payload.
Proof. intros H. unfold oriented. by rewrite H. Qed.

Lemma oriented_set hd payload :
  Z.land (TGA.imageDescriptor hd) TGA.ORIGIN_TOP_LEFT <> 0 ->
  0 <= TGA.width hd -> 0 <= TGA.height hd ->
  Z.of_nat (length payload)
    = TGA.width hd * TGA.height hd * Image.PIXEL_SIZE ->
  oriented hd payload
  = concat (reverse (units (Z.to_nat (TGA.width hd * Image.PIXEL_SIZE))
                           (Z.to_nat (TGA.height hd)) payload)).
Proof.
  intros H Hw Hh Hlen. unfold oriented.
  destruct (Z.land _ _ =? 0) eqn:E; [by apply Z.eqb_eq in E|].
  cbn [negb]. by apply flip_rows_units.
Qed.

(** What [save] leaves and returns, for every buffering policy. *)
Lemma save_spec fl fs img path :
  valid_image img -> unwritable fs path = false ->
  files (TGA.save fl fs img path).1 !! path
  = Some (take (space fs)
               (TGA.Header_bytes (TGA.save_header img) ++ Image.pixels img)) /\
  ((18 + length (Image.pixels img) <= space fs)%nat ->
   (TGA.save fl fs img path).2 = Ok tt) /\
  ((TGA.save fl fs img path).2 = Ok tt \/
   (TGA.save fl fs img path).2 = Throw (WriteFailed path) /\
   (space fs < 18 + length (Image.pixels img))%nat).
Proof.
  intros Hv Hopen. unfold TGA.save. rewrite Hopen. cbn [fst snd files].
  destruct (tested_stream (space fs) _ _ path
              (save_stream_inv fl (space fs) img Hv)) as (Hc & Hfit & Hres).
  rewrite lookup_insert_eq, Hc. split; [done|].
  rewrite length_app, Header_bytes_length in Hfit, Hres.
  split; [intros H; by apply Hfit|done].
Qed.

(** The tool's codec: a valid buffer of at most [INT_MAX] pixels that
    [save] writes to a path that can be opened, on a device with room for
    the file, is what [load] reads back, with the same width, height and
    bytes. *)
Theorem save_load_roundtrip
    (fl : flush_policy) (fs : FileSystem) (img : Image) (path : string) :
  valid_image img -> fits_int img ->
  unwritable fs path = false ->
  (18 + length (Image.pixels img) <= space fs)%nat ->
  (TGA.save fl fs img path).2 = Ok tt /\
  TGA.load (TGA.save fl fs img path).1 path = Ok img.
Proof.
  intros Hvalid Hfit Hopen Hroom.
  destruct (save_spec fl fs img path Hvalid Hopen) as (Hfile & Hok & _).
  split; [by apply Hok|].
  rewrite take_ge in Hfile by (rewrite length_app, Header_bytes_length; lia).
  destruct Hvalid as (Hw & Hh & Hlen & _).
  rewrite (load_tga_file _ path (TGA.save_header img) [] (Image.pixels img) []).
  - rewrite oriented_clear by done. by destruct img.
  - rewrite Hfile. unfold tga_file. by rewrite app_nil_l, app_nil_r.
  - by apply valid_save_header.
  - done.
  - done.
  - done.
  - done.
  - done.
  - done.
Qed.

(** The tool's [save]: when the destination can be opened and takes 18
    bytes, the file starts with an 18-byte header whose data-type code is 2,
    whose width and height are those of the buffer, whose bits-per-pixel is
    24 and whose image descriptor is 0, for every buffer. *)
Theorem save_writes_bottom_origin_header
    (fl : flush_policy) (fs : FileSystem) (img : Image) (path : string) :
  is_u16 (Image.width img) -> is_u16 (Image.height img) ->
  unwritable fs path = false -> (18 <= space fs)%nat ->
  exists bytes,
    files (TGA.save fl fs img path).1 !! path = Some bytes /\
    length (take 18 bytes) = 18%nat /\
    let hd := TGA.Header_of_bytes (take 18 bytes) in
    TGA.dataTypeCode hd = 2 /\
    TGA.width hd = Image.width img /\
    TGA.height hd = Image.height img /\
    TGA.bitsPerPixel hd = 24 /\
    TGA.imageDescriptor hd = 0 /\
    Z.land (TGA.imageDescriptor hd) TGA.ORIGIN_TOP_LEFT = 0.
Proof.
  intros Hw Hh Hopen Hcap. unfold TGA.save. rewrite Hopen. cbn [fst files].
  rewrite (close_inv _ _ _ (save_stream_sent fl (space fs) img)).
  eexists. split; [apply lookup_insert_eq|].
  assert (take 18 (take (space fs)
                     (TGA.Header_bytes (TGA.save_header img)
                      ++ concat (TGA.row img <$> seqZ 0 (Image.height img))))
          = TGA.Header_bytes (TGA.save_header img)) as ->.
  { rewrite take_take, Nat.min_l by done.
    by rewrite take_app_length' by (by rewrite Header_bytes_length). }
  split; [apply Header_bytes_length|].
  cbv zeta. by rewrite Header_roundtrip by by apply valid_save_header.
Qed.

(** The tool's [load]: for a decoded file, if bit 0x20 of the image
    descriptor is set the buffer holds the scanlines of the payload in reverse order, each
    scanline byte for byte as on disk; if the bit is clear the buffer is the
    payload; so a top-left file and a bottom-left file of the same image
    of at most [INT_MAX] pixels decode to the same buffer. *)
Theorem load_normalizes_orientation :
  (forall (fs : FileSystem) (path : string) (bytes : list Z) (img : Image),
     files fs !! path = Some bytes -> Forall is_byte bytes ->
     TGA.load fs path = Ok img ->
     let hd := TGA.Header_of_bytes (take 18 bytes) in
     let rowBytes := Z.to_nat (TGA.width hd * Image.PIXEL_SIZE) in
     let h := Z.to_nat (TGA.height hd) in
     let payload :=
       take (Z.to_nat (TGA.width hd * TGA.height hd * Image.PIXEL_SIZE))
            (drop (18 + Z.to_nat (TGA.idLength hd)) bytes) in
     Image.width img = TGA.width hd /\
     Image.height img = TGA.height hd /\
     length (Image.pixels img) = length payload /\
     (Z.land (TGA.imageDescriptor hd) TGA.ORIGIN_TOP_LEFT <> 0 ->
      Image.pixels img = concat (reverse (units rowBytes h payload)) /\
      forall y j : nat,
        (y < h)%nat -> (j < rowBytes)%nat ->
        Image.pixels img !! (y * rowBytes + j)%nat
        = payload !! ((h - 1 - y) * rowBytes + j)%nat) /\
     (Z.land (TGA.imageDescriptor hd) TGA.ORIGIN_TOP_LEFT = 0 ->
      Image.pixels img = payload)) /\
  (forall (fs1 fs2 : FileSystem) (p1 p2 : string) (hd1 hd2 : TGA.Header)
          (id1 id2 tl1 tl2 : list Z) (rows : list (list Z)),
     valid_header hd1 -> valid_header hd2 ->
     TGA.colorMapType hd1 = 0 -> TGA.dataTypeCode hd1 = 2 ->
     TGA.bitsPerPixel hd1 = 24 ->
     TGA.colorMapType hd2 = 0 -> TGA.dataTypeCode hd2 = 2 ->
     TGA.bitsPerPixel hd2 = 24 ->
     Z.of_nat (length id1) = TGA.idLength hd1 ->
     Z.of_nat (length id2) = TGA.idLength hd2 ->
     TGA.width hd1 = TGA.width hd2 -> TGA.height hd1 = TGA.height hd2 ->
     Z.of_nat (length rows) = TGA.height hd1 ->
     Forall (fun row => length row
                        = Z.to_nat (TGA.width hd1 * Image.PIXEL_SIZE)) rows ->
     Z.land (TGA.imageDescriptor hd1) TGA.ORIGIN_TOP_LEFT <> 0 ->
     Z.land (TGA.imageDescriptor hd2) TGA.ORIGIN_TOP_LEFT = 0 ->
     TGA.width hd1 * TGA.height hd1 <= INT_MAX ->
     files fs1 !! p1 = Some (tga_file hd1 id1 (concat (reverse rows)) ++ tl1) ->
     files fs2 !! p2 = Some (tga_file hd2 id2 (concat rows) ++ tl2) ->
     TGA.load fs1 p1 = TGA.load fs2 p2 /\
     TGA.load fs2 p2 = Ok {| Image.width := TGA.width hd2;
                             Image.height := TGA.height hd2;
                             Image.pixels := concat rows |}).
Proof.
  split.
  - intros fs path bytes img Hfile Hbytes Hload hd rowBytes h payload.
    destruct (load_Ok_inv _ _ _ Hload)
      as (bytes' & Hfile' & H18 & _ & _ & _ & Hlen & -> & _).
    assert (bytes' = bytes) as -> by congruence.
    fold hd in Hlen |- *. fold payload in Hlen |- *.
    cbn [Image.width Image.height Image.pixels].
    assert (Forall is_byte (take 18 bytes)) as Hhb by by apply Forall_take.
    assert (0 <= TGA.width hd) as Hw by apply (u16_at_range _ _ Hhb).
    assert (0 <= TGA.height hd) as Hh by apply (u16_at_range _ _ Hhb).
    assert (Z.of_nat (length payload)
            = TGA.width hd * TGA.height hd * Image.PIXEL_SIZE) as Hlen'.
    { rewrite Hlen. unfold Image.PIXEL_SIZE. nia. }
    split; [done|]. split; [done|].
    assert (length payload = (h * rowBytes)%nat) as Hlen2.
    { subst h rowBytes. unfold Image.PIXEL_SIZE in *. nia. }
    split; [|split].
    + destruct (decide (Z.land (TGA.imageDescriptor hd) TGA.ORIGIN_TOP_LEFT = 0))
        as [E|E].
      * by rewrite oriented_clear.
      * rewrite oriented_set by done. fold rowBytes h.
        by rewrite reverse_units_length.
    + intros Hset. rewrite oriented_set by done. fold rowBytes h.
      split; [done|]. intros y j Hy Hj. by apply reverse_units_lookup.
    + intros Hclear. by apply oriented_clear.
  - intros fs1 fs2 p1 p2 hd1 hd2 id1 id2 tl1 tl2 rows Hv1 Hv2
           Hc1 Hd1 Hb1 Hc2 Hd2 Hb2 Hid1 Hid2 Hw Hh Hrows Hrow Hset Hclear
           Hint Hf1 Hf2.
    assert (0 <= TGA.width hd1 /\ 0 <= TGA.height hd1) as [Hw0 Hh0].
    { destruct Hv1 as (_ & _ & _ & _ & _ & _ & _ & _ & Hw1 & Hh1 & _).
      unfold is_u16 in *. lia. }
    set (rb := Z.to_nat (TGA.width hd1 * Image.PIXEL_SIZE)) in *.
    assert (length (concat rows) = (length rows * rb)%nat) as Hlc
      by by apply length_concat_uniform.
    assert (Forall (fun row => length row = rb) (reverse rows)) as Hrev
      by by apply Forall_reverse.
    assert (length (concat (reverse rows)) = (length rows * rb)%nat) as Hlr.
    { by rewrite (length_concat_uniform rb), length_reverse. }
    assert (Z.of_nat (length rows * rb)
            = TGA.width hd1 * TGA.height hd1 * Image.PIXEL_SIZE) as Hsize.
    { subst rb. unfold Image.PIXEL_SIZE in *. nia. }
    rewrite (load_tga_file fs1 p1 hd1 id1 (concat (reverse rows)) tl1)
      by (try done; by rewrite Hlr).
    assert (Z.of_nat (length (concat rows))
            = TGA.width hd2 * TGA.height hd2 * Image.PIXEL_SIZE) as Hsize2.
    { rewrite Hlc, Hsize. by rewrite Hw, Hh. }
    rewrite (load_tga_file fs2 p2 hd2 id2 (concat rows) tl2)
      by (try done; by rewrite <- Hw, <- Hh).
    rewrite (oriented_clear hd2) by done.
    rewrite (oriented_set hd1) by (try done; by rewrite Hlr).
    fold rb.
    replace (Z.to_nat (TGA.height hd1)) with (length (reverse rows))
      by (rewrite length_reverse; lia).
    rewrite units_of_concat, reverse_involutive by done.
    by rewrite Hw, Hh.
Qed.

Lemma load_normalizes_orientation_witness :
  let hd_top := TGA.mkHeader 0 0 2 0 0 0 0 0 1 2 24 32 in
  let hd_bot := TGA.mkHeader 0 0 2 0 0 0 0 0 1 2 24 0 in
  let rows := [[1; 2; 3]; [4; 5; 6]] in
  let fs1 := mkFS {[ "top.tga" := tga_file hd_top [] (concat (reverse rows)) ++ [] ]}
                  (fun _ => false) 0 in
  let fs2 := mkFS {[ "bottom.tga" := tga_file hd_bot [] (concat rows) ++ [] ]}
                  (fun _ => false) 0 in
  TGA.load fs1 "top.tga" = TGA.load fs2 "bottom.tga" /\
  TGA.load fs2 "bottom.tga" = Ok (Image.mk 1 2 [1; 2; 3; 4; 5; 6]) /\
  Image.pixels (Image.mk 1 2 [1; 2; 3; 4; 5; 6]) !! 4%nat = Some 5.
Proof.
  intros hd_top hd_bot rows fs1 fs2.
  destruct load_normalizes_orientation as [Hone Htwo].
  assert (valid_header hd_top) as Hv1.
  { unfold valid_header, is_byte, is_u16; cbn; repeat split; lia. }
  assert (valid_header hd_bot) as Hv2.
  { unfold valid_header, is_byte, is_u16; cbn; repeat split; lia. }
  assert (Forall (fun row : list Z =>
                    length row = Z.to_nat (TGA.width hd_top * Image.PIXEL_SIZE))
                 rows) as Hrows.
  { repeat constructor. }
  destruct (Htwo fs1 fs2 "top.tga" "bottom.tga" hd_top hd_bot [] [] [] [] rows
              Hv1 Hv2 eq_refl eq_refl eq_refl eq_refl eq_refl eq_refl
              eq_refl eq_refl eq_refl eq_refl eq_refl Hrows
              ltac:(discriminate) eq_refl ltac:(vm_compute; discriminate)
              eq_refl eq_refl) as [Hsame Hbot].
  split; [exact Hsame|]. split; [exact Hbot|].
  assert (Forall is_byte (tga_file hd_top [] (concat (reverse rows)) ++ []))
    as Hbytes.
  { change (Forall is_byte [0; 0; 2; 0; 0; 0; 0; 0; 0; 0; 0; 0; 1; 0; 2; 0;
                            24; 32; 4; 5; 6; 1; 2; 3]).
    repeat (apply Forall_cons_2; [unfold is_byte; lia|]).
    apply Forall_nil_2. }
  destruct (Hone fs1 "top.tga" _ (Image.mk 1 2 [1; 2; 3; 4; 5; 6])
              eq_refl Hbytes ltac:(rewrite Hsame; exact Hbot))
    as (_ & _ & _ & Hset & _).
  destruct (Hset ltac:(discriminate)) as [_ Hidx].
  exact (Hidx 1%nat 1%nat ltac:(vm_compute; lia) ltac:(vm_compute; lia)).
Defined.

Lemma read_header bytes :
  TGA.Header_of_bytes
    (read {| rest := bytes; in_fail := false |} TGA.sizeof_Header).1
  = TGA.Header_of_bytes (take 18 bytes).
Proof.
  unfold read. cbn [in_fail rest].
  change (Z.to_nat TGA.sizeof_Header) with 18%nat.
  destruct (18 <=? length bytes)%nat eqn:E; cbn [fst]; [done|].
  apply Nat.leb_gt in E. rewrite take_ge by lia.
  assert (forall i, at_ (bytes ++ replicate (18 - length bytes) 0) i
                    = at_ bytes i) as Hat.
  { intros i. unfold at_.
    destruct (decide (Z.to_nat i < length bytes)%nat) as [Hlt|Hge].
    - by rewrite lookup_app_l.
    - rewrite lookup_app_r, (lookup_ge_None_2 bytes) by lia.
      destruct (replicate _ _ !! _) as [x|] eqn:Ex; [|done].
      by apply lookup_replicate in Ex as [-> _]. }
  unfold TGA.Header_of_bytes, TGA.u16_at. by rewrite !Hat.
Qed.

(** The tool's [load] throws, and returns no buffer, when the color-map type of the
    header is not 0, when the data-type code is not 2, and when the
    bits-per-pixel is not 24; the three errors are different from each
    other and from every other error of [load], and they depend on the 18
    header bytes only. *)
Theorem load_validates_header (fs : FileSystem) (path : string) (bytes : list Z) :
  files fs !! path = Some bytes ->
  let hd := TGA.Header_of_bytes (take 18 bytes) in
  (TGA.colorMapType hd <> 0 -> TGA.load fs path = Throw (OnlyUnmapped path)) /\
  (TGA.colorMapType hd = 0 -> TGA.dataTypeCode hd <> 2 ->
   TGA.load fs path = Throw (NeedUncompressed path)) /\
  (TGA.colorMapType hd = 0 -> TGA.dataTypeCode hd = 2 ->
   TGA.bitsPerPixel hd <> 24 ->
   TGA.load fs path = Throw (Need24Bit path)) /\
  (TGA.colorMapType hd <> 0 \/ TGA.dataTypeCode hd <> 2 \/
   TGA.bitsPerPixel hd <> 24 ->
   TGA.load fs path = Throw (OnlyUnmapped path) \/
   TGA.load fs path = Throw (NeedUncompressed path) \/
   TGA.load fs path = Throw (Need24Bit path)) /\
  (forall img, TGA.load fs path = Ok img ->
     TGA.colorMapType hd = 0 /\ TGA.dataTypeCode hd = 2 /\
     TGA.bitsPerPixel hd = 24) /\
  OnlyUnmapped path <> NeedUncompressed path /\
  OnlyUnmapped path <> Need24Bit path /\
  NeedUncompressed path <> Need24Bit path /\
  (forall e, e = OnlyUnmapped path \/ e = NeedUncompressed path \/
             e = Need24Bit path ->
             e <> CantOpen path /\ e <> TruncatedPixels path).
Proof.
  intros Hfile hd.
  assert (forall r,
            TGA.load fs path = r ->
            (TGA.colorMapType hd <> 0 /\ r = Throw (OnlyUnmapped path)) \/
            (TGA.colorMapType hd = 0 /\ TGA.dataTypeCode hd <> 2 /\
             r = Throw (NeedUncompressed path)) \/
            (TGA.colorMapType hd = 0 /\ TGA.dataTypeCode hd = 2 /\
             TGA.bitsPerPixel hd <> 24 /\ r = Throw (Need24Bit path)) \/
            (TGA.colorMapType hd = 0 /\ TGA.dataTypeCode hd = 2 /\
             TGA.bitsPerPixel hd = 24)) as Hcases.
  { intros r <-. unfold TGA.load. rewrite Hfile.
    pose proof (read_header bytes) as Hhd. fold hd in Hhd.
    destruct (read _ TGA.sizeof_Header) as [hb f]. cbn [fst] in Hhd.
    cbv zeta. rewrite Hhd.
    destruct (TGA.colorMapType hd =? 0) eqn:E1; cbn [negb].
    2:{ apply Z.eqb_neq in E1. by left. }
    destruct (TGA.dataTypeCode hd =? 2) eqn:E2; cbn [negb].
    2:{ apply Z.eqb_eq in E1. apply Z.eqb_neq in E2. right. by left. }
    destruct (TGA.bitsPerPixel hd =? 24) eqn:E3; cbn [negb].
    2:{ apply Z.eqb_eq in E1, E2. apply Z.eqb_neq in E3. right. right. by left. }
    apply Z.eqb_eq in E1, E2, E3. by do 3 right. }
  split; [|split; [|split; [|split; [|split]]]].
  - intros Hne. destruct (Hcases _ eq_refl) as [[_ ?]|[[? _]|[[? _]|[? _]]]];
      done.
  - intros Hc Hne.
    destruct (Hcases _ eq_refl) as [[? _]|[(_ & _ & ?)|[(_ & ? & _)|(_ & ? & _)]]];
      done.
  - intros Hc Hd Hne.
    destruct (Hcases _ eq_refl)
      as [[? _]|[(_ & ? & _)|[(_ & _ & _ & ?)|(_ & _ & ?)]]]; done.
  - intros Hbad.
    destruct (Hcases _ eq_refl)
      as [[_ ?]|[(_ & _ & ?)|[(_ & _ & _ & ?)|(? & ? & ?)]]];
      [by left|right; by left|right; by right|tauto].
  - intros img Himg.
    destruct (Hcases _ Himg)
      as [[_ ?]|[(_ & _ & ?)|[(_ & _ & _ & ?)|?]]]; done.
  - split; [done|]. split; [done|]. split; [done|].
    intros e [-> | [-> | ->]]; done.
Qed.

Lemma load_validates_header_witness :
  let indexed := [0; 1; 2; 0; 0; 0; 0; 0; 0; 0; 0; 0; 1; 0; 1; 0; 24; 0; 7; 8; 9] in
  TGA.load (mkFS {[ "indexed.tga" := indexed ]} (fun _ => false) 0) "indexed.tga"
  = Throw (OnlyUnmapped "indexed.tga").
Proof.
  intros indexed.
  exact (proj1 (load_validates_header
                  (mkFS {[ "indexed.tga" := indexed ]} (fun _ => false) 0)
                  "indexed.tga" indexed eq_refl) ltac:(discriminate)).
Defined.

(** ** Channel and geometry operations *)

(** C9: on three 1x1 buffers that are not gray, [combineRGB] stores as red
    sample the byte at offset 0 of [r] (its blue slot) and as green sample
    the byte at offset 0 of [g], not the red slot of [r] and the green slot
    of [g]; only the blue sample comes from the matching slot. *)
Theorem combineRGB_reads_blue_slot_example :
  let r := Image.mk 1 1 [10; 20; 30] in
  let g := Image.mk 1 1 [40; 50; 60] in
  let b := Image.mk 1 1 [70; 80; 90] in
  combineRGB r g b = Ok (Image.mk 1 1 [70; 40; 10]) /\
  at_ (Image.pixels r) 2 = 30 /\
  at_ (Image.pixels g) 1 = 50 /\
  at_ (Image.pixels b) 0 = 70.
Proof. repeat split. Qed.

(** The batch program reads the matching channel of each source. *)
Remark Project2_combineRGB_example :
  let hd := TGA.mkHeader 0 0 2 0 0 0 0 0 1 1 24 0 in
  Project2.combineRGB
    (Project2.mkImg hd [Project2.mkPixel 10 20 30])
    (Project2.mkImg hd [Project2.mkPixel 40 50 60])
    (Project2.mkImg hd [Project2.mkPixel 70 80 90])
  = Project2.Return (Project2.mkImg hd [Project2.mkPixel 70 50 30]).
Proof. reflexivity. Qed.

Lemma rotate180_defined src :
  valid_image src -> fits_int src -> rotate180 src = Ok (rotate180_out src).
Proof.
  intros Hv Hf. unfold rotate180.
  by rewrite in_int_true
    by (pose proof (valid_fits_nonneg src Hv Hf); unfold INT_MIN; lia).
Qed.

Lemma rotate180_undefined src :
  INT_MAX < Image.width src * Image.height src -> rotate180 src = Undefined.
Proof. intros H. unfold rotate180. by rewrite in_int_false. Qed.

Lemma rotate180_out_spec src :
  valid_image src ->
  let pix := Z.to_nat (Image.width src * Image.height src) in
  length (Image.pixels (rotate180_out src)) = length (Image.pixels src) /\
  Image.pixels (rotate180_out src)
  = concat (reverse (units 3 pix (Image.pixels src))) /\
  rotate180_out (rotate180_out src) = src.
Proof.
  intros (Hw & Hh & Hlen & _) pix. unfold is_u16 in *.
  assert (0 <= Image.width src * Image.height src) as Hpos by nia.
  assert (length (Image.pixels src) = (pix * 3)%nat) as Hlen3.
  { subst pix. unfold Image.PIXEL_SIZE in *. lia. }
  pose proof (rotate180_units src Hpos Hlen) as Hrot. fold pix in Hrot.
  split; [by rewrite Hrot, reverse_units_length|].
  split; [done|].
  assert (Image.pixels (rotate180_out (rotate180_out src)) = Image.pixels src)
    as Hpx.
  { rewrite rotate180_units.
    - cbn [rotate180_out Image.width Image.height]. fold pix. rewrite Hrot.
      replace pix with (length (reverse (units 3 pix (Image.pixels src))))
        at 1 by (by rewrite length_reverse, units_length).
      rewrite units_of_concat by (by apply Forall_reverse, units_uniform).
      by rewrite reverse_involutive, units_concat.
    - done.
    - cbn [rotate180_out Image.width Image.height]. rewrite <- Hlen.
      f_equal. rewrite Hrot. rewrite reverse_units_length; done. }
  destruct src as [w h px]. unfold rotate180_out in *.
  cbn [Image.width Image.height Image.pixels] in *. by f_equal.
Qed.

Lemma rotate180_out_valid src :
  valid_image src -> valid_image (rotate180_out src).
Proof.
  intros Hv. destruct (rotate180_out_spec src Hv) as (Hl & Hpx & _).
  destruct Hv as (Hw & Hh & Hlen & Hb). unfold is_u16 in *.
  unfold valid_image. cbn [rotate180_out Image.width Image.height].
  split; [done|]. split; [done|]. split.
  - change (Image.pixels
              {| Image.width := Image.width src;
                 Image.height := Image.height src;
                 Image.pixels :=
                   rotate_pixels src (Image.width src * Image.height src) |})
      with (Image.pixels (rotate180_out src)). by rewrite Hl.
  - change (Image.pixels
              {| Image.width := Image.width src;
                 Image.height := Image.height src;
                 Image.pixels :=
                   rotate_pixels src (Image.width src * Image.height src) |})
      with (Image.pixels (rotate180_out src)). rewrite Hpx.
    apply Forall_concat, Forall_reverse, Forall_lookup.
    intros i u Hu.
    assert (i < Z.to_nat (Image.width src * Image.height src))%nat as Hi.
    { apply lookup_lt_Some in Hu. by rewrite units_length in Hu. }
    rewrite units_lookup in Hu by done. injection Hu as <-.
    by apply Forall_take, Forall_drop.
Qed.

(** C10: on a valid buffer of at most [INT_MAX] pixels, as every buffer is
    that [load] returns, [rotate180] returns a buffer of the same
    dimensions; byte [c] of pixel [p] of the result is byte [c] of pixel
    [width*height - 1 - p] of the input, that is, the result is the
    sequence of 3-byte pixels reversed; and rotating the result gives the
    input back.  Beyond [INT_MAX] pixels the [int] product in [rotate180]
    has no defined value.  [rot180] of [project2.cpp] reverses the pixel
    vector of every image, keeps the header, and is its own inverse. *)
Theorem rotate180_reverses_pixels (src : Image) :
  valid_image src ->
  let pix := Z.to_nat (Image.width src * Image.height src) in
  (forall fs path, TGA.load fs path = Ok src -> fits_int src) /\
  (fits_int src ->
   exists out,
     rotate180 src = Ok out /\
     Image.width out = Image.width src /\
     Image.height out = Image.height src /\
     length (Image.pixels out) = length (Image.pixels src) /\
     (forall p c : nat,
        (p < pix)%nat -> (c < 3)%nat ->
        Image.pixels out !! (p * 3 + c)%nat
        = Image.pixels src !! ((pix - 1 - p) * 3 + c)%nat) /\
     Image.pixels out = concat (reverse (units 3 pix (Image.pixels src))) /\
     rotate180 out = Ok src) /\
  (~ fits_int src -> rotate180 src = Undefined) /\
  (forall im : Project2.Img,
     Project2.h (Project2.rot180 im) = Project2.h im /\
     length (Project2.px (Project2.rot180 im)) = length (Project2.px im) /\
     (forall p : nat,
        (p < length (Project2.px im))%nat ->
        Project2.px (Project2.rot180 im) !! p
        = Project2.px im !! (length (Project2.px im) - 1 - p)%nat) /\
     Project2.rot180 (Project2.rot180 im) = im).
Proof.
  intros Hv pix. split; [|split; [|split]].
  - intros fs path. apply load_fits_int.
  - intros Hf. exists (rotate180_out src).
    destruct (rotate180_out_spec src Hv) as (Hl & Hpx & Hinv). fold pix in Hpx.
    split; [by apply rotate180_defined|]. split; [done|]. split; [done|].
    split; [done|]. split.
    { intros p c Hp Hc. rewrite Hpx. apply reverse_units_lookup; [|done|done].
      destruct Hv as (Hw & Hh & Hlen & _).
      unfold is_u16, Image.PIXEL_SIZE in *. subst pix. nia. }
    split; [done|].
    rewrite rotate180_defined; [by rewrite Hinv| |done].
    by apply rotate180_out_valid.
  - intros Hbig. apply rotate180_undefined. unfold fits_int in Hbig. lia.
  - intros [hd px]. unfold Project2.rot180. cbn [Project2.h Project2.px].
    split; [done|]. split; [by rewrite length_reverse|].
    split; [intros p Hp; rewrite reverse_lookup by done; f_equal; lia|].
    by rewrite reverse_involutive.
Qed.

Lemma rotate180_reverses_pixels_witness :
  let src := Image.mk 2 2 [0; 0; 255; 0; 255; 0; 255; 0; 0; 128; 128; 128] in
  exists out,
    rotate180 src = Ok out /\
    Image.pixels out !! 1%nat = Image.pixels src !! 10%nat /\
    rotate180 out = Ok src.
Proof.
  intros src.
  assert (valid_image src) as Hv.
  { unfold valid_image, is_u16; cbn; repeat split; try lia.
    repeat constructor; unfold is_byte; lia. }
  assert (fits_int src) as Hf by (unfold fits_int, INT_MAX; cbn; lia).
  destruct (proj1 (proj2 (rotate180_reverses_pixels src Hv)) Hf)
    as (out & E & _ & _ & _ & Hidx & _ & Hinv).
  exists out. split; [exact E|]. split; [|exact Hinv].
  exact (Hidx 0%nat 1%nat ltac:(cbn; lia) ltac:(lia)).
Defined.

(** ** The batch program, for comparison *)

(** Its Subtract is bottom minus top as well. *)
Remark Project2_subtract_bottom_minus_top (A B : Project2.Pixel) :
  is_byte (Project2.r A) -> is_byte (Project2.r B) ->
  Project2.r (Project2.blend_px Project2.SUBTR A B)
  = Z.max 0 (Project2.r B - Project2.r A).
Proof.
  unfold is_byte. intros HA HB. cbn. unfold Project2.c255, Project2.CLAMP.
  destruct (Project2.r B - Project2.r A <? 0) eqn:E1.
  - apply Z.ltb_lt in E1. rewrite to_uint8_byte by (unfold is_byte; lia). lia.
  - apply Z.ltb_ge in E1.
    destruct (255 <? Project2.r B - Project2.r A) eqn:E2;
      [apply Z.ltb_lt in E2; lia|].
    rewrite to_uint8_byte by (unfold is_byte; lia). lia.
Qed.

(** Its Multiply and Overlay divide with truncation: they store 0 where the
    table-driven engine stores 1. *)
Remark Project2_multiply_truncates :
  Project2.blend_px Project2.MULTI (Project2.mkPixel 1 1 1)
                    (Project2.mkPixel 128 128 128)
  = Project2.mkPixel 0 0 0 /\
  Blend.blendChannel Blend._lut_bootstrap Blend.MULTIPLY 128 1 = 1.
Proof. split; reflexivity. Qed.

Remark Project2_rot180_involutive (src : Project2.Img) :
  Project2.rot180 (Project2.rot180 src) = src.
Proof.
  destruct src as [hd px]. unfold Project2.rot180.
  cbn [Project2.h Project2.px]. by rewrite reverse_involutive.
Qed.

(** * Further properties of the code *)

(** ** The codec of the tool: what [load] accepts and returns *)

Lemma at_byte v i : Forall is_byte v -> is_byte (at_ v i).
Proof.
  intros Hv. unfold at_. destruct (v !! Z.to_nat i) as [x|] eqn:E.
  - eapply Forall_lookup in Hv; eauto.
  - unfold is_byte. simpl. lia.
Qed.

Lemma u16_at_u16 bs i : Forall is_byte bs -> is_u16 (TGA.u16_at bs i).
Proof.
  intros Hbs. unfold TGA.u16_at, is_u16.
  pose proof (at_byte bs i Hbs) as H1.
  pose proof (at_byte bs (i + 1) Hbs) as H2.
  unfold is_byte in *. lia.
Qed.

Lemma reverse_units_Forall (P : Z -> Prop) n k l :
  length l = (k * n)%nat -> Forall P l ->
  Forall P (concat (reverse (units n k l))).
Proof.
  intros Hlen Hl. apply Forall_lookup. intros i x Hx.
  assert (i < k * n)%nat as Hi.
  { apply lookup_lt_Some in Hx. by rewrite reverse_units_length in Hx. }
  destruct (index_split n k i Hi) as (y & j & Hy & Hj & ->).
  rewrite reverse_units_lookup in Hx by done.
  eapply Forall_lookup in Hl; eauto.
Qed.

Lemma oriented_valid hd payload :
  0 <= TGA.width hd -> 0 <= TGA.height hd ->
  Z.of_nat (length payload)
    = TGA.width hd * TGA.height hd * Image.PIXEL_SIZE ->
  Forall is_byte payload ->
  length (oriented hd payload) = length payload /\
  Forall is_byte (oriented hd payload).
Proof.
  intros Hw Hh Hlen Hb.
  destruct (decide (Z.land (TGA.imageDescriptor hd) TGA.ORIGIN_TOP_LEFT = 0))
    as [E|E].
  - by rewrite oriented_clear.
  - rewrite oriented_set by done.
    assert (length payload
            = (Z.to_nat (TGA.height hd)
               * Z.to_nat (TGA.width hd * Image.PIXEL_SIZE))%nat) as Hl.
    { unfold Image.PIXEL_SIZE in *. nia. }
    split; [by rewrite reverse_units_length|by apply reverse_units_Forall].
Qed.

(** X1: A buffer that [load] returns satisfies the invariant of pixel buffers:
    16-bit extents, [width * height * 3] samples, every sample a byte. *)
Theorem load_returns_valid_image
    (fs : FileSystem) (path : string) (bytes : list Z) (img : Image) :
  files fs !! path = Some bytes -> Forall is_byte bytes ->
  TGA.load fs path = Ok img ->
  valid_image img.
Proof.
  intros Hfile Hbytes Hload.
  destruct (load_Ok_inv _ _ _ Hload)
    as (bytes' & Hfile' & H18 & _ & _ & _ & Hlen & -> & _).
  assert (bytes' = bytes) as -> by congruence.
  set (hd := TGA.Header_of_bytes (take 18 bytes)) in *.
  assert (Forall is_byte (take 18 bytes)) as Hhb by by apply Forall_take.
  assert (is_u16 (TGA.width hd)) as Hw by apply (u16_at_u16 _ _ Hhb).
  assert (is_u16 (TGA.height hd)) as Hh by apply (u16_at_u16 _ _ Hhb).
  set (payload := take _ (drop _ bytes)) in *.
  assert (Forall is_byte payload) as Hpb by by apply Forall_take, Forall_drop.
  assert (Z.of_nat (length payload)
          = TGA.width hd * TGA.height hd * Image.PIXEL_SIZE) as Hlen'.
  { rewrite Hlen. unfold is_u16, Image.PIXEL_SIZE in *. nia. }
  unfold is_u16 in *.
  destruct (oriented_valid hd payload) as [Hol Hob]; try done; try lia.
  unfold valid_image, is_u16. cbn [Image.width Image.height Image.pixels].
  rewrite Hol. done.
Qed.

Lemma load_returns_valid_image_witness :
  valid_image (Image.mk 1 2 [4; 5; 6; 1; 2; 3]).
Proof.
  assert (Forall is_byte [0; 0; 2; 0; 0; 0; 0; 0; 0; 0; 0; 0; 1; 0; 2; 0;
                          24; 32; 1; 2; 3; 4; 5; 6]) as Hb.
  { repeat (apply Forall_cons_2; [unfold is_byte; lia|]). apply Forall_nil_2. }
  exact (load_returns_valid_image
           (mkFS {[ "top.tga" := [0; 0; 2; 0; 0; 0; 0; 0; 0; 0; 0; 0; 1; 0; 2; 0;
                                  24; 32; 1; 2; 3; 4; 5; 6] ]}
                 (fun _ => false) 0)
           "top.tga" _ _ eq_refl Hb eq_refl).
Defined.

(** X2: For a header that passes the three checks and whose extents have a
    product within [int], [load] throws the truncated-pixels error exactly
    when the file ends before the header, or before the last payload byte
    after the ID field; otherwise it returns a buffer.  An empty payload is
    complete even when the ID field is cut short.  When the product of the
    extents is beyond [int], [load] has no defined result. *)
Theorem load_truncated_iff
    (fs : FileSystem) (path : string) (bytes : list Z) :
  files fs !! path = Some bytes ->
  let hd := TGA.Header_of_bytes (take 18 bytes) in
  let n := Z.to_nat (TGA.width hd * TGA.height hd * Image.PIXEL_SIZE) in
  let after_id := drop (18 + Z.to_nat (TGA.idLength hd)) bytes in
  TGA.colorMapType hd = 0 -> TGA.dataTypeCode hd = 2 ->
  TGA.bitsPerPixel hd = 24 ->
  (in_int (TGA.width hd * TGA.height hd) = false ->
   TGA.load fs path = Undefined) /\
  (in_int (TGA.width hd * TGA.height hd) = true ->
   ((length bytes < 18 \/ length after_id < n)%nat ->
    TGA.load fs path = Throw (TruncatedPixels path)) /\
   ((18 <= length bytes /\ n <= length after_id)%nat ->
    TGA.load fs path
    = Ok {| Image.width := TGA.width hd;
            Image.height := TGA.height hd;
            Image.pixels := oriented hd (take n after_id) |})).
Proof.
  intros Hfile hd n after_id Hc Hd Hb.
  unfold TGA.load. rewrite Hfile.
  pose proof (read_header bytes) as Hhd. fold hd in Hhd.
  destruct (read _ TGA.sizeof_Header) as [hb f] eqn:Er. cbn [fst] in Hhd.
  cbv zeta. rewrite Hhd, Hc, Hd, Hb. cbn [Z.eqb Pos.eqb negb].
  split; [by intros ->|]. intros ->. cbn [negb].
  unfold read in Er. cbn [in_fail rest] in Er.
  change (Z.to_nat TGA.sizeof_Header) with 18%nat in Er.
  destruct (18 <=? length bytes)%nat eqn:E18; injection Er as <- <-.
  - apply Nat.leb_le in E18.
    rewrite seek_id by done. cbn [rest]. rewrite drop_drop. fold after_id.
    unfold read. cbn [in_fail rest]. fold n.
    destruct (n <=? length after_id)%nat eqn:En; cbn [in_fail].
    + apply Nat.leb_le in En. split; [lia|done].
    + apply Nat.leb_gt in En. split; [done|lia].
  - apply Nat.leb_gt in E18. split; [|lia]. intros _.
    destruct (negb (TGA.idLength hd =? 0)); by unfold seekg_cur, read.
Qed.

Lemma load_truncated_iff_witness :
  TGA.load (mkFS {[ "cut.tga" := [0; 0; 2; 0; 0; 0; 0; 0; 0; 0; 0; 0; 1; 0; 2; 0;
                                  24; 0; 1; 2; 3; 4] ]} (fun _ => false) 0)
           "cut.tga"
  = Throw (TruncatedPixels "cut.tga").
Proof.
  exact (proj1 (proj2 (load_truncated_iff
                         (mkFS {[ "cut.tga" := [0; 0; 2; 0; 0; 0; 0; 0; 0; 0; 0;
                                                0; 1; 0; 2; 0; 24; 0; 1; 2; 3;
                                                4] ]}
                               (fun _ => false) 0)
                         "cut.tga" _ eq_refl eq_refl eq_refl eq_refl)
                      eq_refl)
               ltac:(right; vm_compute; lia)).
Defined.

(** X3: [load] skips the ID field without looking at it and reads nothing after
    the payload: two files with the same header and payload decode to the
    same result, whatever their ID bytes and trailers are; the result is a
    buffer as long as the payload when the product of the extents is at most
    [INT_MAX], and undefined beyond. *)
Theorem load_ignores_id_and_trailer
    (fs1 fs2 : FileSystem) (p1 p2 : string) (hd : TGA.Header)
    (id1 id2 payload tl1 tl2 : list Z) :
  valid_header hd ->
  TGA.colorMapType hd = 0 -> TGA.dataTypeCode hd = 2 ->
  TGA.bitsPerPixel hd = 24 ->
  Z.of_nat (length id1) = TGA.idLength hd ->
  Z.of_nat (length id2) = TGA.idLength hd ->
  Z.of_nat (length payload)
    = TGA.width hd * TGA.height hd * Image.PIXEL_SIZE ->
  files fs1 !! p1 = Some (tga_file hd id1 payload ++ tl1) ->
  files fs2 !! p2 = Some (tga_file hd id2 payload ++ tl2) ->
  TGA.load fs1 p1 = TGA.load fs2 p2 /\
  (TGA.width hd * TGA.height hd <= INT_MAX ->
   exists img, TGA.load fs1 p1 = Ok img /\
               length (Image.pixels img) = length payload) /\
  (INT_MAX < TGA.width hd * TGA.height hd -> TGA.load fs1 p1 = Undefined).
Proof.
  intros Hv Hc Hd Hb Hid1 Hid2 Hlen Hf1 Hf2.
  destruct (Z_le_gt_dec (TGA.width hd * TGA.height hd) INT_MAX) as [Hfit|Hbig].
  - rewrite (load_tga_file fs1 p1 hd id1 payload tl1) by done.
    rewrite (load_tga_file fs2 p2 hd id2 payload tl2) by done.
    split; [done|]. split; [|lia]. intros _.
    eexists. split; [done|].
    cbn [Image.pixels].
    destruct Hv as (_ & _ & _ & _ & _ & _ & _ & _ & Hw & Hh & _).
    unfold is_u16 in *.
    destruct (decide (Z.land (TGA.imageDescriptor hd) TGA.ORIGIN_TOP_LEFT = 0))
      as [E|E].
    + by rewrite oriented_clear.
    + rewrite oriented_set by (try done; lia).
      rewrite reverse_units_length; unfold Image.PIXEL_SIZE in *; nia.
  - rewrite (load_overflow fs1 p1 hd id1 payload tl1) by (done || lia).
    rewrite (load_overflow fs2 p2 hd id2 payload tl2) by (done || lia).
    split; [done|]. split; [lia|done].
Qed.

Lemma load_ignores_id_and_trailer_witness :
  let hd := TGA.mkHeader 2 0 2 0 0 0 0 0 1 1 24 0 in
  TGA.load (mkFS {[ "a.tga" := tga_file hd [7; 7] [1; 2; 3] ++ [9; 9; 9] ]}
                 (fun _ => false) 0) "a.tga"
  = TGA.load (mkFS {[ "b.tga" := tga_file hd [0; 5] [1; 2; 3] ++ [] ]}
                   (fun _ => false) 0) "b.tga".
Proof.
  intros hd.
  assert (valid_header hd) as Hv.
  { unfold valid_header, is_byte, is_u16; cbn; repeat split; lia. }
  exact (proj1 (load_ignores_id_and_trailer
                  (mkFS {[ "a.tga" := tga_file hd [7; 7] [1; 2; 3] ++ [9; 9; 9] ]}
                        (fun _ => false) 0)
                  (mkFS {[ "b.tga" := tga_file hd [0; 5] [1; 2; 3] ++ [] ]}
                        (fun _ => false) 0)
                  "a.tga" "b.tga" hd
                  [7; 7] [0; 5] [1; 2; 3] [9; 9; 9] [] Hv
                  eq_refl eq_refl eq_refl eq_refl eq_refl eq_refl
                  eq_refl eq_refl)).
Defined.

(** ** The codec of the tool: what [save] leaves on disk *)

Lemma save_stream_unbuffered cap img :
  valid_image img ->
  out_fail (TGA.save_stream unbuffered cap img)
  = negb (18 + length (Image.pixels img) <=? cap)%nat.
Proof.
  intros Hv. rewrite save_stream_rows.
  change (foldl (write unbuffered cap)
                (write unbuffered cap ofstream_open
                       (TGA.Header_bytes (TGA.save_header img)))
                (TGA.row img <$> seqZ 0 (Image.height img)))
    with (foldl (write unbuffered cap) ofstream_open
                (TGA.Header_bytes (TGA.save_header img)
                 :: (TGA.row img <$> seqZ 0 (Image.height img)))).
  rewrite (write_unbuffered cap _ ofstream_open []);
    [|apply stream_inv_open|done|cbn; lia].
  cbn [concat app]. rewrite (rows_concat img Hv).
  by rewrite length_app, Header_bytes_length.
Qed.

Lemma save_stream_buffered cap img :
  out_fail (TGA.save_stream buffered cap img) = false.
Proof.
  rewrite save_stream_rows.
  apply (write_buffered cap _ (write buffered cap ofstream_open _));
    unfold write, buffered, emit; cbn; [done|lia].
Qed.

(** X4: The outcomes of [save] on a valid buffer.  A path that cannot be
    opened gives the cannot-write error and leaves the file system as it
    was.  Otherwise the file holds the first [space] bytes of the header
    followed by the pixels; [save] returns normally when all
    [18 + width*height*3] bytes fit, and throws nothing but the
    write-failed error, and that only when they do not fit.  Whether it
    throws then depends on the stream: one that passes every write on to
    the device does, one that still holds the bytes when [save] tests it
    returns normally and leaves a short file. *)
Theorem save_outcomes
    (fl : flush_policy) (fs : FileSystem) (img : Image) (path : string) :
  valid_image img ->
  let encoding := TGA.Header_bytes (TGA.save_header img) ++ Image.pixels img in
  Z.of_nat (length encoding)
    = 18 + Image.width img * Image.height img * Image.PIXEL_SIZE /\
  (unwritable fs path = true ->
   TGA.save fl fs img path = (fs, Throw (CantWrite path))) /\
  (unwritable fs path = false ->
   files (TGA.save fl fs img path).1 !! path
   = Some (take (space fs) encoding) /\
   ((length encoding <= space fs)%nat ->
    (TGA.save fl fs img path).2 = Ok tt) /\
   ((TGA.save fl fs img path).2 = Ok tt \/
    (TGA.save fl fs img path).2 = Throw (WriteFailed path) /\
    (space fs < length encoding)%nat) /\
   ((space fs < length encoding)%nat ->
    (TGA.save unbuffered fs img path).2 = Throw (WriteFailed path) /\
    (TGA.save buffered fs img path).2 = Ok tt)).
Proof.
  intros Hvalid encoding.
  assert (length encoding = (18 + length (Image.pixels img))%nat) as Hlen.
  { subst encoding. by rewrite length_app, Header_bytes_length. }
  split; [|split].
  - destruct Hvalid as (_ & _ & Hl & _). lia.
  - intros Hu. unfold TGA.save. by rewrite Hu.
  - intros Hu.
    destruct (save_spec fl fs img path Hvalid Hu) as (Hfile & Hok & Hres).
    split; [done|]. rewrite Hlen. split; [done|]. split; [done|].
    intros Hshort. unfold TGA.save. rewrite Hu. cbn [snd].
    rewrite save_stream_unbuffered, save_stream_buffered by done.
    apply Nat.leb_gt in Hshort. by rewrite Hshort.
Qed.

Lemma save_outcomes_witness :
  (TGA.save unbuffered (mkFS ∅ (fun _ => false) 20)
            (Image.mk 1 1 [1; 2; 3]) "o.tga").2
  = Throw (WriteFailed "o.tga").
Proof.
  assert (valid_image (Image.mk 1 1 [1; 2; 3])) as Hv.
  { unfold valid_image, is_u16; cbn; repeat split; try lia.
    repeat constructor; unfold is_byte; lia. }
  destruct (save_outcomes unbuffered (mkFS ∅ (fun _ => false) 20)
              (Image.mk 1 1 [1; 2; 3]) "o.tga" Hv) as (_ & _ & Hopen).
  destruct (Hopen eq_refl) as (_ & _ & _ & Hshort).
  exact (proj1 (Hshort ltac:(cbn; lia))).
Defined.

(** X5: Flipping the rows twice gives the rows back. *)
Theorem flip_rows_involutive (w h : Z) (px : list Z) :
  0 <= w -> 0 <= h ->
  Z.of_nat (length px) = w * h * Image.PIXEL_SIZE ->
  length (TGA.flip_rows w h px) = length px /\
  TGA.flip_rows w h (TGA.flip_rows w h px) = px.
Proof.
  intros Hw Hh Hlen.
  set (n := Z.to_nat (w * Image.PIXEL_SIZE)). set (k := Z.to_nat h).
  assert (length px = (k * n)%nat) as Hl.
  { subst n k. unfold Image.PIXEL_SIZE in *. nia. }
  rewrite (flip_rows_units w h px) by done. fold n k.
  assert (length (concat (reverse (units n k px))) = length px) as Hl2
    by by rewrite reverse_units_length.
  split; [done|].
  rewrite flip_rows_units by (try done; lia). fold n k.
  replace k with (length (reverse (units n k px))) at 1
    by (by rewrite length_reverse, units_length).
  rewrite units_of_concat by (by apply Forall_reverse, units_uniform).
  by rewrite reverse_involutive, units_concat.
Qed.

Lemma flip_rows_involutive_witness :
  TGA.flip_rows 1 2 (TGA.flip_rows 1 2 [1; 2; 3; 4; 5; 6]) = [1; 2; 3; 4; 5; 6].
Proof.
  exact (proj2 (flip_rows_involutive 1 2 [1; 2; 3; 4; 5; 6]
                  ltac:(lia) ltac:(lia) eq_refl)).
Defined.

(** ** The blend engine on whole buffers *)

Lemma valid_image_size img :
  valid_image img ->
  0 <= Image.width img * Image.height img /\
  length (Image.pixels img)
  = (3 * Z.to_nat (Image.width img * Image.height img))%nat.
Proof.
  intros (Hw & Hh & Hl & _). unfold is_u16, Image.PIXEL_SIZE in *. nia.
Qed.

(** What [apply] returns for operands of equal size. *)
Lemma apply_bytes L bot top m :
  Image.width bot = Image.width top -> Image.height bot = Image.height top ->
  0 <= Image.width bot * Image.height bot <= INT_MAX ->
  exists L' out,
    Blend.apply L bot top m = (L', Ok out) /\
    Image.width out = Image.width bot /\
    Image.height out = Image.height bot /\
    length (Image.pixels out)
    = (3 * Z.to_nat (Image.width bot * Image.height bot))%nat /\
    forall i : nat,
      (i < 3 * Z.to_nat (Image.width bot * Image.height bot))%nat ->
      Image.pixels out !! i
      = Some (Blend.blendChannel (Blend.init_luts L) m
                (at_ (Image.pixels bot) (Z.of_nat i))
                (at_ (Image.pixels top) (Z.of_nat i))).
Proof.
  intros Hw Hh Hfit. rewrite apply_defined by done.
  destruct (apply_loop_bytes m
              (Z.to_nat (Image.width bot * Image.height bot)) L
              (Image.pixels bot) (Image.pixels top)) as (_ & Hlen & Hlk).
  destruct (Blend.apply_loop _ L _ _ _) as [L' out]. cbn [fst snd] in *.
  by exists L', {| Image.width := Image.width bot;
                   Image.height := Image.height bot;
                   Image.pixels := out |}.
Qed.

Lemma blendChannel_byte L m a b :
  lut_inv L -> is_byte a -> is_byte b ->
  is_byte (Blend.blendChannel (Blend.init_luts L) m a b).
Proof.
  intros HL Ha Hb. destruct m.
  - simpl. unfold to_uint8, is_byte. apply Z.mod_pos_bound. lia.
  - rewrite blendChannel_subtract by done. unfold is_byte in *. lia.
  - rewrite blendChannel_multiply by done. unfold is_byte in *.
    split; [apply Z.div_pos; nia | apply Z.div_lt_upper_bound; nia].
  - rewrite blendChannel_screen by done. unfold is_byte in *.
    assert (0 <= ((255 - a) * (255 - b) + 127) / 255 <= 255); [|lia].
    split; [apply Z.div_pos; nia | apply Z.lt_succ_r, Z.div_lt_upper_bound; nia].
  - simpl. unfold to_uint8, is_byte. apply Z.mod_pos_bound. lia.
Qed.

Lemma init_luts_inv_eq L1 L2 m a b :
  lut_inv L1 -> lut_inv L2 ->
  Blend.blendChannel (Blend.init_luts L1) m a b
  = Blend.blendChannel (Blend.init_luts L2) m a b.
Proof.
  intros H1 H2.
  destruct (init_luts_tables L1 H1) as [Hm1 Hs1].
  destruct (init_luts_tables L2 H2) as [Hm2 Hs2].
  destruct m; simpl; try done; congruence.
Qed.

Lemma apply_returns_valid L bot top m :
  lut_inv L -> valid_image bot -> valid_image top -> fits_int bot ->
  Image.width bot = Image.width top -> Image.height bot = Image.height top ->
  exists L' out,
    Blend.apply L bot top m = (L', Ok out) /\
    valid_image out /\
    Image.width out = Image.width bot /\
    Image.height out = Image.height bot /\
    forall i : nat,
      (i < 3 * Z.to_nat (Image.width bot * Image.height bot))%nat ->
      Image.pixels out !! i
      = Some (Blend.blendChannel (Blend.init_luts L) m
                (at_ (Image.pixels bot) (Z.of_nat i))
                (at_ (Image.pixels top) (Z.of_nat i))).
Proof.
  intros HL Hvb (_ & _ & Hlt & Hbt) Hfit Hwe Hhe.
  destruct (apply_bytes L bot top m Hwe Hhe (valid_fits_nonneg bot Hvb Hfit))
    as (L1 & o1 & E1 & Hw1 & Hh1 & Hl1 & Hk1).
  destruct Hvb as (Hw & Hh & Hlb & Hbb).
  exists L1, o1. split; [done|]. split; [|done].
  unfold valid_image, is_u16, Image.PIXEL_SIZE in *.
  rewrite Hw1, Hh1. split; [done|]. split; [done|]. split; [nia|].
  apply Forall_lookup. intros i x Hx.
  assert (i < 3 * Z.to_nat (Image.width bot * Image.height bot))%nat as Hi.
  { apply lookup_lt_Some in Hx. lia. }
  rewrite Hk1 in Hx by done. injection Hx as <-.
  apply blendChannel_byte; [done|by apply at_byte|by apply at_byte].
Qed.

(** X6: On valid operands of equal size and at most [INT_MAX] pixels, [apply]
    returns a valid buffer of that size and leaves the tables filled or
    untouched; the buffer is the same whether or not the tables had been
    filled before the call. *)
Theorem apply_valid_and_table_independent
    (L1 L2 : Blend.Luts) (bot top : Image) (m : Blend.Mode) :
  lut_inv L1 -> lut_inv L2 ->
  valid_image bot -> valid_image top -> fits_int bot ->
  Image.width bot = Image.width top -> Image.height bot = Image.height top ->
  exists out,
    (Blend.apply L1 bot top m).2 = Ok out /\
    (Blend.apply L2 bot top m).2 = Ok out /\
    valid_image out /\
    Image.width out = Image.width bot /\
    Image.height out = Image.height bot /\
    lut_inv (Blend.apply L1 bot top m).1.
Proof.
  intros H1 H2 Hvb Hvt Hfit Hwe Hhe.
  pose proof (apply_preserves_lut_inv L1 bot top m H1) as Hinv.
  destruct (apply_returns_valid L1 bot top m H1 Hvb Hvt Hfit Hwe Hhe)
    as (L1' & o1 & E1 & Hv1 & Hw1 & Hh1 & Hk1).
  destruct (apply_returns_valid L2 bot top m H2 Hvb Hvt Hfit Hwe Hhe)
    as (L2' & o2 & E2 & Hv2 & Hw2 & Hh2 & Hk2).
  rewrite E1, E2 in *. cbn [fst snd] in *.
  assert (Image.pixels o1 = Image.pixels o2) as Hpx.
  { destruct (valid_image_size o1 Hv1) as [_ Hl1].
    destruct (valid_image_size o2 Hv2) as [_ Hl2].
    rewrite Hw1, Hh1 in Hl1. rewrite Hw2, Hh2 in Hl2.
    apply list_eq_same_length
      with (3 * Z.to_nat (Image.width bot * Image.height bot))%nat;
      [done|done|].
    intros i x y Hi. rewrite Hk1, Hk2 by done.
    rewrite (init_luts_inv_eq L1 L2) by done. congruence. }
  assert (o1 = o2) as <-.
  { destruct o1, o2. cbn in *. congruence. }
  by exists o1.
Qed.

Lemma apply_valid_witness :
  exists out,
    (Blend.apply Blend.luts_static (Image.mk 1 1 [1; 150; 200])
                 (Image.mk 1 1 [128; 128; 128]) Blend.MULTIPLY).2 = Ok out /\
    (Blend.apply Blend._lut_bootstrap (Image.mk 1 1 [1; 150; 200])
                 (Image.mk 1 1 [128; 128; 128]) Blend.MULTIPLY).2 = Ok out.
Proof.
  assert (valid_image (Image.mk 1 1 [1; 150; 200])) as Hb.
  { unfold valid_image, is_u16; cbn; repeat split; try lia.
    repeat constructor; unfold is_byte; lia. }
  assert (valid_image (Image.mk 1 1 [128; 128; 128])) as Ht.
  { unfold valid_image, is_u16; cbn; repeat split; try lia.
    repeat constructor; unfold is_byte; lia. }
  destruct (apply_valid_and_table_independent
              Blend.luts_static Blend._lut_bootstrap _ _ Blend.MULTIPLY
              lut_inv_static lut_inv_bootstrap Hb Ht
              ltac:(unfold fits_int, INT_MAX; cbn; lia) eq_refl eq_refl)
    as (out & H1 & H2 & _).
  exists out. split; [exact H1 | exact H2].
Defined.

(** The byte [apply] stores at index [i], for valid operands of equal size
    and tables in a reachable state. *)
Lemma apply_lookup L bot top m out L' (i : nat) B O :
  lut_inv L -> valid_image bot -> valid_image top -> fits_int bot ->
  Image.width bot = Image.width top -> Image.height bot = Image.height top ->
  Blend.apply L bot top m = (L', Ok out) ->
  Image.pixels bot !! i = Some B -> Image.pixels top !! i = Some O ->
  is_byte B /\ is_byte O /\
  Image.pixels out !! i
  = Some (Blend.blendChannel (Blend.init_luts L) m B O).
Proof.
  intros HL Hvb (_ & _ & Hlt & Hbt) Hfit Hwe Hhe Happ HB HO.
  destruct (apply_bytes L bot top m Hwe Hhe (valid_fits_nonneg bot Hvb Hfit))
    as (L2 & o2 & E & _ & _ & _ & Hk).
  destruct Hvb as (Hw & Hh & Hlb & Hbb).
  rewrite E in Happ. injection Happ as <- <-.
  assert (is_byte B) as HBb by (eapply Forall_lookup in Hbb; eauto).
  assert (is_byte O) as HOb by (eapply Forall_lookup in Hbt; eauto).
  split; [done|]. split; [done|].
  assert (i < length (Image.pixels bot))%nat as Hi by by eapply lookup_lt_Some.
  unfold is_u16, Image.PIXEL_SIZE in *.
  rewrite Hk by nia.
  by rewrite (at_lookup _ _ _ HB), (at_lookup _ _ _ HO).
Qed.

(** X7: On valid operands of equal size and at most [INT_MAX] pixels, Add
    stores the sum of the two samples, 255 when the sum is larger; it never
    wraps around, and the order of the operands does not matter. *)
Theorem add_saturates (L : Blend.Luts) (bot top : Image) :
  lut_inv L -> valid_image bot -> valid_image top -> fits_int bot ->
  Image.width bot = Image.width top -> Image.height bot = Image.height top ->
  exists out out',
    (Blend.apply L bot top Blend.ADD).2 = Ok out /\
    (Blend.apply L top bot Blend.ADD).2 = Ok out' /\
    Image.pixels out = Image.pixels out' /\
    forall (i : nat) (B O : Z),
      Image.pixels bot !! i = Some B -> Image.pixels top !! i = Some O ->
      Image.pixels out !! i = Some (Z.min 255 (B + O)) /\
      B <= Z.min 255 (B + O) /\ O <= Z.min 255 (B + O).
Proof.
  intros HL Hvb Hvt Hfit Hwe Hhe.
  pose proof (valid_fits_nonneg bot Hvb Hfit) as Hn.
  destruct (apply_bytes L bot top Blend.ADD Hwe Hhe Hn)
    as (L1 & o1 & E1 & _ & _ & Hl1 & Hk1).
  destruct (apply_bytes L top bot Blend.ADD (eq_sym Hwe) (eq_sym Hhe)
              ltac:(by rewrite <- Hwe, <- Hhe))
    as (L2 & o2 & E2 & _ & _ & Hl2 & Hk2).
  exists o1, o2. rewrite E1, E2. cbn [snd].
  split; [done|]. split; [done|].
  assert (forall a b, is_byte a -> is_byte b ->
            Blend.blendChannel (Blend.init_luts L) Blend.ADD a b
            = Z.min 255 (a + b)) as Hadd.
  { intros a b Ha Hb. unfold is_byte in *. simpl.
    destruct (255 <? a + b) eqn:E.
    - apply Z.ltb_lt in E. rewrite to_uint8_byte by (unfold is_byte; lia). lia.
    - apply Z.ltb_ge in E. rewrite to_uint8_byte by (unfold is_byte; lia). lia. }
  split.
  - apply list_eq_same_length
      with (3 * Z.to_nat (Image.width bot * Image.height bot))%nat.
    + rewrite Hl2, <- Hwe, <- Hhe. done.
    + done.
    + intros i x y Hi. rewrite Hk1 by done.
      rewrite Hk2 by (rewrite <- Hwe, <- Hhe; done).
      destruct Hvb as (_ & _ & _ & Hbb). destruct Hvt as (_ & _ & _ & Hbt).
      rewrite !Hadd by (by apply at_byte). rewrite Z.add_comm. congruence.
  - intros i B O HB HO.
    destruct (apply_lookup L bot top Blend.ADD o1 L1 i B O)
      as (HBb & HOb & ->); try done.
    rewrite Hadd by done. unfold is_byte in *. split; [done|]. lia.
Qed.

Lemma add_saturates_witness :
  exists out,
    (Blend.apply Blend.luts_static (Image.mk 1 1 [250; 250; 250])
                 (Image.mk 1 1 [10; 10; 10]) Blend.ADD).2 = Ok out /\
    Image.pixels out !! 0%nat = Some 255.
Proof.
  assert (valid_image (Image.mk 1 1 [250; 250; 250])) as Hb.
  { unfold valid_image, is_u16; cbn; repeat split; try lia.
    repeat constructor; unfold is_byte; lia. }
  assert (valid_image (Image.mk 1 1 [10; 10; 10])) as Ht.
  { unfold valid_image, is_u16; cbn; repeat split; try lia.
    repeat constructor; unfold is_byte; lia. }
  destruct (add_saturates Blend.luts_static _ _ lut_inv_static Hb Ht
              ltac:(unfold fits_int, INT_MAX; cbn; lia)
              eq_refl eq_refl) as (out & _ & H1 & _ & _ & Hpx).
  exists out. split; [exact H1|].
  exact (proj1 (Hpx 0%nat 250 10 eq_refl eq_refl)).
Defined.

(** The pixels [apply] returns, from a formula for its bytes. *)
Lemma apply_pixels_eq L bot top m (f : Z -> Z -> Z) (expected : list Z) :
  lut_inv L -> valid_image bot -> valid_image top -> fits_int bot ->
  Image.width bot = Image.width top -> Image.height bot = Image.height top ->
  length expected = length (Image.pixels bot) ->
  (forall a b, is_byte a -> is_byte b ->
     Blend.blendChannel (Blend.init_luts L) m a b = f a b) ->
  (forall (i : nat) B O,
     Image.pixels bot !! i = Some B -> Image.pixels top !! i = Some O ->
     expected !! i = Some (f B O)) ->
  exists out,
    (Blend.apply L bot top m).2 = Ok out /\
    Image.width out = Image.width bot /\ Image.height out = Image.height bot /\
    Image.pixels out = expected.
Proof.
  intros HL Hvb Hvt Hfit Hwe Hhe Hlen Hf Hexp.
  destruct (apply_bytes L bot top m Hwe Hhe (valid_fits_nonneg bot Hvb Hfit))
    as (L1 & o1 & E1 & Hw1 & Hh1 & Hl1 & Hk1).
  exists o1. rewrite E1. cbn [snd]. split; [done|]. split; [done|].
  split; [done|].
  destruct (valid_image_size bot Hvb) as [_ Hsb].
  destruct (valid_image_size top Hvt) as [_ Hst].
  rewrite <- Hwe, <- Hhe in Hst.
  apply list_eq_same_length
    with (3 * Z.to_nat (Image.width bot * Image.height bot))%nat;
    [lia|done|].
  intros i x y Hi Hx Hy.
  destruct (lookup_lt_is_Some_2 (Image.pixels bot) i ltac:(lia)) as [B HB].
  destruct (lookup_lt_is_Some_2 (Image.pixels top) i ltac:(lia)) as [O HO].
  destruct (apply_lookup L bot top m o1 L1 i B O) as (HBb & HOb & Hout);
    try done.
  rewrite (Hexp i B O HB HO) in Hy. rewrite Hout, Hf in Hx by done.
  congruence.
Qed.

(** X8: On valid operands of equal size and at most [INT_MAX] pixels, a white
    overlay leaves the base as it is under Multiply and a black overlay
    gives black; a black overlay leaves the base as it is under Screen and
    a white overlay gives white. *)
Theorem multiply_screen_neutral_overlays
    (L : Blend.Luts) (bot top : Image) (v : Z) :
  lut_inv L -> valid_image bot -> valid_image top -> fits_int bot ->
  Image.width bot = Image.width top -> Image.height bot = Image.height top ->
  Image.pixels top = replicate (length (Image.pixels bot)) v ->
  (v = 255 ->
   (exists out, (Blend.apply L bot top Blend.MULTIPLY).2 = Ok out /\
                Image.pixels out = Image.pixels bot) /\
   (exists out, (Blend.apply L bot top Blend.SCREEN).2 = Ok out /\
                Image.pixels out = replicate (length (Image.pixels bot)) 255)) /\
  (v = 0 ->
   (exists out, (Blend.apply L bot top Blend.MULTIPLY).2 = Ok out /\
                Image.pixels out = replicate (length (Image.pixels bot)) 0) /\
   (exists out, (Blend.apply L bot top Blend.SCREEN).2 = Ok out /\
                Image.pixels out = Image.pixels bot)).
Proof.
  intros HL Hvb Hvt Hfit Hwe Hhe Htop.
  assert (forall (i : nat) O, Image.pixels top !! i = Some O -> O = v) as Hv.
  { intros i O. rewrite Htop. by intros [-> _]%lookup_replicate. }
  assert (forall m f expected,
            length expected = length (Image.pixels bot) ->
            (forall a b, is_byte a -> is_byte b ->
               Blend.blendChannel (Blend.init_luts L) m a b = f a b) ->
            (forall (i : nat) B,
               Image.pixels bot !! i = Some B -> is_byte B ->
               expected !! i = Some (f B v)) ->
            exists out, (Blend.apply L bot top m).2 = Ok out /\
                        Image.pixels out = expected) as Hgen.
  { intros m f expected Hlen Hf Hexp.
    destruct (apply_pixels_eq L bot top m f expected) as (out & E & _ & _ & Hp);
      try done; [|by exists out].
    intros i B O HB HO. rewrite (Hv _ _ HO). apply Hexp; [done|].
    destruct Hvb as (_ & _ & _ & Hbb). eapply Forall_lookup in Hbb; eauto. }
  split; intros ->; split.
  - apply (Hgen _ (fun a b => (a * b + 127) / 255)); [done| |].
    + intros a b Ha Hb. by apply blendChannel_multiply.
    + intros i B HB HBb. rewrite HB. f_equal. unfold is_byte in *.
      apply (Z.div_unique _ _ _ 127); lia.
  - apply (Hgen _ (fun a b => 255 - ((255 - a) * (255 - b) + 127) / 255)).
    + by rewrite length_replicate.
    + intros a b Ha Hb. by apply blendChannel_screen.
    + intros i B HB HBb. rewrite lookup_replicate_2 by by eapply lookup_lt_Some.
      f_equal. by rewrite Z.sub_diag, Z.mul_0_r.
  - apply (Hgen _ (fun a b => (a * b + 127) / 255)).
    + by rewrite length_replicate.
    + intros a b Ha Hb. by apply blendChannel_multiply.
    + intros i B HB HBb. rewrite lookup_replicate_2 by by eapply lookup_lt_Some.
      f_equal. by rewrite Z.mul_0_r.
  - apply (Hgen _ (fun a b => 255 - ((255 - a) * (255 - b) + 127) / 255));
      [done| |].
    + intros a b Ha Hb. by apply blendChannel_screen.
    + intros i B HB HBb. rewrite HB. f_equal. unfold is_byte in *.
      assert (((255 - B) * (255 - 0) + 127) / 255 = 255 - B) as ->; [|lia].
      symmetry. apply (Z.div_unique _ _ _ 127); lia.
Qed.

Lemma multiply_screen_neutral_witness :
  exists out,
    (Blend.apply Blend.luts_static (Image.mk 1 1 [1; 150; 200])
                 (Image.mk 1 1 [255; 255; 255]) Blend.MULTIPLY).2 = Ok out /\
    Image.pixels out = [1; 150; 200].
Proof.
  assert (valid_image (Image.mk 1 1 [1; 150; 200])) as Hb.
  { unfold valid_image, is_u16; cbn; repeat split; try lia.
    repeat constructor; unfold is_byte; lia. }
  assert (valid_image (Image.mk 1 1 [255; 255; 255])) as Ht.
  { unfold valid_image, is_u16; cbn; repeat split; try lia.
    repeat constructor; unfold is_byte; lia. }
  destruct (multiply_screen_neutral_overlays Blend.luts_static _ _ 255
              lut_inv_static Hb Ht ltac:(unfold fits_int, INT_MAX; cbn; lia)
              eq_refl eq_refl eq_refl) as [Hwhite _].
  exact (proj1 (Hwhite eq_refl)).
Defined.

(** X9: On valid operands of equal size and at most [INT_MAX] pixels,
    Multiply and Screen do not depend on which operand is the base. *)
Theorem multiply_screen_commute
    (L : Blend.Luts) (bot top : Image) (m : Blend.Mode) :
  lut_inv L -> valid_image bot -> valid_image top -> fits_int bot ->
  Image.width bot = Image.width top -> Image.height bot = Image.height top ->
  m = Blend.MULTIPLY \/ m = Blend.SCREEN ->
  exists out,
    (Blend.apply L bot top m).2 = Ok out /\
    (Blend.apply L top bot m).2 = Ok out.
Proof.
  intros HL Hvb Hvt Hfit Hwe Hhe Hm.
  pose proof (valid_fits_nonneg bot Hvb Hfit) as Hn.
  destruct (apply_bytes L bot top m Hwe Hhe Hn)
    as (L1 & o1 & E1 & Hw1 & Hh1 & Hl1 & Hk1).
  destruct (apply_bytes L top bot m (eq_sym Hwe) (eq_sym Hhe)
              ltac:(by rewrite <- Hwe, <- Hhe))
    as (L2 & o2 & E2 & Hw2 & Hh2 & Hl2 & Hk2).
  rewrite E1, E2. cbn [snd]. exists o1. split; [done|]. f_equal.
  assert (Image.pixels o2 = Image.pixels o1) as Hpx.
  { apply list_eq_same_length
      with (3 * Z.to_nat (Image.width bot * Image.height bot))%nat;
      [done|by rewrite Hl2, <- Hwe, <- Hhe|].
    intros i x y Hi. rewrite Hk1 by done.
    rewrite Hk2 by (rewrite <- Hwe, <- Hhe; done).
    destruct Hvb as (_ & _ & _ & Hbb). destruct Hvt as (_ & _ & _ & Hbt).
    pose proof (at_byte _ (Z.of_nat i) Hbb) as Ha.
    pose proof (at_byte _ (Z.of_nat i) Hbt) as Hb.
    destruct Hm as [-> | ->].
    - rewrite !blendChannel_multiply by done. rewrite Z.mul_comm. congruence.
    - rewrite !blendChannel_screen by done. rewrite Z.mul_comm. congruence. }
  destruct o1, o2. cbn in *. congruence.
Qed.

Lemma multiply_screen_commute_witness :
  exists out,
    (Blend.apply Blend.luts_static (Image.mk 1 1 [1; 150; 200])
                 (Image.mk 1 1 [128; 128; 128]) Blend.SCREEN).2 = Ok out /\
    (Blend.apply Blend.luts_static (Image.mk 1 1 [128; 128; 128])
                 (Image.mk 1 1 [1; 150; 200]) Blend.SCREEN).2 = Ok out.
Proof.
  assert (valid_image (Image.mk 1 1 [1; 150; 200])) as Hb.
  { unfold valid_image, is_u16; cbn; repeat split; try lia.
    repeat constructor; unfold is_byte; lia. }
  assert (valid_image (Image.mk 1 1 [128; 128; 128])) as Ht.
  { unfold valid_image, is_u16; cbn; repeat split; try lia.
    repeat constructor; unfold is_byte; lia. }
  exact (multiply_screen_commute Blend.luts_static _ _ Blend.SCREEN
           lut_inv_static Hb Ht ltac:(unfold fits_int, INT_MAX; cbn; lia)
           eq_refl eq_refl (or_intror eq_refl)).
Defined.

Lemma rotate180_lookup src (p c : nat) :
  valid_image src ->
  (p < Z.to_nat (Image.width src * Image.height src))%nat -> (c < 3)%nat ->
  Image.pixels (rotate180_out src) !! (p * 3 + c)%nat
  = Image.pixels src
      !! ((Z.to_nat (Image.width src * Image.height src) - 1 - p) * 3 + c)%nat.
Proof.
  intros Hv Hp Hc. destruct (valid_image_size src Hv) as [Hpos Hlen].
  destruct Hv as (_ & _ & Hl & _).
  rewrite rotate180_units by done. apply reverse_units_lookup; [lia|done|done].
Qed.

(** X10: Blending commutes with the half-turn: on valid operands of equal size
    and at most [INT_MAX] pixels, the blend of the two rotated buffers is
    the rotated blend of the buffers, for every mode. *)
Theorem rotate180_apply_commute
    (L : Blend.Luts) (bot top : Image) (m : Blend.Mode) :
  lut_inv L -> valid_image bot -> valid_image top -> fits_int bot ->
  Image.width bot = Image.width top -> Image.height bot = Image.height top ->
  exists out rbot rtop rout,
    (Blend.apply L bot top m).2 = Ok out /\
    rotate180 bot = Ok rbot /\ rotate180 top = Ok rtop /\
    rotate180 out = Ok rout /\
    (Blend.apply L rbot rtop m).2 = Ok rout.
Proof.
  intros HL Hvb Hvt Hfit Hwe Hhe.
  destruct (apply_returns_valid L bot top m HL Hvb Hvt Hfit Hwe Hhe)
    as (L1 & out & E1 & Hvo & Hwo & Hho & Hk1).
  assert (fits_int top) as Hfit_t by (unfold fits_int; by rewrite <- Hwe, <- Hhe).
  assert (fits_int out) as Hfit_o by (unfold fits_int; by rewrite Hwo, Hho).
  exists out, (rotate180_out bot), (rotate180_out top), (rotate180_out out).
  rewrite E1. cbn [snd]. split; [done|].
  rewrite !rotate180_defined by done. do 3 (split; [done|]).
  destruct (apply_bytes L (rotate180_out bot) (rotate180_out top) m)
    as (L2 & o2 & E2 & Hw2 & Hh2 & Hl2 & Hk2);
    [done|done|exact (valid_fits_nonneg bot Hvb Hfit)|].
  rewrite E2. cbn [snd]. f_equal.
  cbn [rotate180_out Image.width Image.height] in Hw2, Hh2, Hl2, Hk2.
  set (k := Z.to_nat (Image.width bot * Image.height bot)) in *.
  assert (Z.to_nat (Image.width out * Image.height out) = k) as Hko
    by (by rewrite Hwo, Hho).
  assert (Z.to_nat (Image.width top * Image.height top) = k) as Hkt
    by (by rewrite <- Hwe, <- Hhe).
  assert (Image.pixels o2 = Image.pixels (rotate180_out out)) as Hpx.
  { apply list_eq_same_length with (k * 3)%nat.
    - destruct (valid_image_size _ (rotate180_out_valid out Hvo)) as [_ ->].
      cbn [rotate180_out Image.width Image.height]. lia.
    - lia.
    - intros i x y Hi.
      destruct (index_split 3 k i Hi) as (p & c & Hp & Hc & ->).
      rewrite Hk2 by lia.
      rewrite rotate180_lookup by (try done; lia). rewrite Hko.
      rewrite Hk1 by lia.
      assert (forall src, valid_image src ->
                Z.to_nat (Image.width src * Image.height src) = k ->
                at_ (Image.pixels (rotate180_out src)) (Z.of_nat (p * 3 + c))
                = at_ (Image.pixels src)
                      (Z.of_nat ((k - 1 - p) * 3 + c))) as Hat.
      { intros src Hsrc Hks. unfold at_. rewrite !Nat2Z.id.
        rewrite rotate180_lookup by (try done; lia). by rewrite Hks. }
      rewrite (Hat bot), (Hat top) by done. congruence. }
  destruct o2 as [w2 h2 p2]. unfold rotate180_out at 1.
  cbn [Image.width Image.height Image.pixels] in *.
  unfold rotate180_out in Hpx. cbn [Image.pixels] in Hpx.
  rewrite Hw2, Hh2, Hpx, Hwo, Hho. done.
Qed.

Lemma rotate180_apply_commute_witness :
  exists out rbot rtop rout,
    (Blend.apply Blend.luts_static
                 (Image.mk 2 1 [1; 2; 3; 4; 5; 6])
                 (Image.mk 2 1 [9; 9; 9; 0; 0; 0]) Blend.SUBTRACT).2 = Ok out /\
    rotate180 (Image.mk 2 1 [1; 2; 3; 4; 5; 6]) = Ok rbot /\
    rotate180 (Image.mk 2 1 [9; 9; 9; 0; 0; 0]) = Ok rtop /\
    rotate180 out = Ok rout /\
    (Blend.apply Blend.luts_static rbot rtop Blend.SUBTRACT).2 = Ok rout.
Proof.
  assert (valid_image (Image.mk 2 1 [1; 2; 3; 4; 5; 6])) as Hb.
  { unfold valid_image, is_u16; cbn; repeat split; try lia.
    repeat constructor; unfold is_byte; lia. }
  assert (valid_image (Image.mk 2 1 [9; 9; 9; 0; 0; 0])) as Ht.
  { unfold valid_image, is_u16; cbn; repeat split; try lia.
    repeat constructor; unfold is_byte; lia. }
  exact (rotate180_apply_commute Blend.luts_static _ _ Blend.SUBTRACT
           lut_inv_static Hb Ht ltac:(unfold fits_int, INT_MAX; cbn; lia)
           eq_refl eq_refl).
Defined.

(** ** Channel adjustment *)

Lemma clampByte_spec v : ColorMath.clampByte v = Z.max 0 (Z.min 255 v).
Proof.
  unfold ColorMath.clampByte.
  destruct (v <? 0) eqn:E1; [apply Z.ltb_lt in E1|apply Z.ltb_ge in E1].
  - rewrite to_uint8_byte by (unfold is_byte; lia). lia.
  - destruct (255 <? v) eqn:E2; [apply Z.ltb_lt in E2|apply Z.ltb_ge in E2];
      rewrite to_uint8_byte by (unfold is_byte; lia); lia.
Qed.

Section add_channel.
Variables (k : nat) (orig : list Z) (idx : nat) (delta : Z).
Hypothesis Hlen : length orig = (k * 3)%nat.
Hypothesis Hidx : (idx < 3)%nat.
Variable step : list Z -> Z -> list Z.
Hypothesis Hstep :
  forall px i,
    step px i
    = set_at px (i + Z.of_nat idx)
             (ColorMath.clampByte
                (int_wrap (at_ px (i + Z.of_nat idx) + delta))).

Lemma add_loop_inv (t : nat) :
  (t <= k)%nat ->
  length (foldl step orig ((fun p => p * 3) <$> seqZ 0 (Z.of_nat t)))
  = length orig /\
  forall p c : nat,
    (p < k)%nat -> (c < 3)%nat ->
    foldl step orig ((fun p => p * 3) <$> seqZ 0 (Z.of_nat t))
      !! (p * 3 + c)%nat
    = if decide (p < t /\ c = idx)%nat
      then Some (ColorMath.clampByte
                   (int_wrap (at_ orig (Z.of_nat (p * 3 + c)) + delta)))
      else orig !! (p * 3 + c)%nat.
Proof using Hlen Hidx Hstep.
  induction t as [|t IH]; intros Ht.
  - rewrite seqZ_nil by lia.
    change (foldl step orig ((fun p => p * 3) <$> [])) with orig.
    split; [done|]. intros p c Hp Hc. case_decide; [lia|done].
  - destruct IH as [IHlen IHlk]; [lia|].
    rewrite seqZ_S, fmap_app, foldl_app. simpl.
    set (tmp := foldl step orig _) in *.
    rewrite Hstep, Z.add_0_l.
    replace (Z.of_nat t * 3 + Z.of_nat idx) with (Z.of_nat (t * 3 + idx))
      by lia.
    split; [by rewrite set_at_length|].
    intros p c Hp Hc.
    destruct (decide (p = t /\ c = idx)) as [[-> ->]|Hne].
    + rewrite set_at_lookup_eq by lia.
      case_decide; [|lia].
      do 3 f_equal. unfold at_. rewrite !Nat2Z.id.
      rewrite IHlk by lia. case_decide; [lia|done].
    + rewrite set_at_lookup_ne by lia. rewrite IHlk by done.
      destruct (decide (p < t /\ c = idx)%nat) as [[H1 H2]|H1];
        destruct (decide (p < S t /\ c = idx)%nat) as [[H3 H4]|H3];
        try done; lia.
Qed.
End add_channel.

Lemma addToChannel_lookup img (idx : nat) delta (p c : nat) :
  valid_image img -> (idx < 3)%nat ->
  (p < Z.to_nat (Image.width img * Image.height img))%nat -> (c < 3)%nat ->
  length (Image.pixels (addToChannel img (Z.of_nat idx) delta))
  = length (Image.pixels img) /\
  Image.pixels (addToChannel img (Z.of_nat idx) delta) !! (p * 3 + c)%nat
  = if decide (c = idx)
    then Some (ColorMath.clampByte
                 (int_wrap
                    (at_ (Image.pixels img) (Z.of_nat (p * 3 + c)) + delta)))
    else Image.pixels img !! (p * 3 + c)%nat.
Proof.
  intros Hv Hidx Hp Hc. destruct (valid_image_size img Hv) as [Hpos Hlen].
  set (k := Z.to_nat (Image.width img * Image.height img)) in *.
  unfold addToChannel. cbn [Image.pixels].
  replace (Z.of_nat (length (Image.pixels img)))
    with (Z.of_nat k * Image.PIXEL_SIZE) by (unfold Image.PIXEL_SIZE; lia).
  rewrite pixel_offsets_units. unfold Image.PIXEL_SIZE.
  match goal with
  | |- context [foldl ?f _ _] =>
      destruct (add_loop_inv k (Image.pixels img) idx delta ltac:(lia) Hidx
                  f (fun _ _ => eq_refl) k ltac:(lia)) as [Hl Hlk]
  end.
  split; [done|]. rewrite Hlk by done.
  destruct (decide (c = idx)) as [->|Hne]; case_decide; try done; lia.
Qed.

Lemma addToChannel_valid img (idx : nat) delta :
  valid_image img -> (idx < 3)%nat ->
  valid_image (addToChannel img (Z.of_nat idx) delta).
Proof.
  intros Hv Hidx. destruct (valid_image_size img Hv) as [Hpos Hlen].
  pose proof Hv as (Hw & Hh & Hl & Hb).
  assert (length (Image.pixels (addToChannel img (Z.of_nat idx) delta))
          = length (Image.pixels img)) as Hlo.
  { destruct (decide (0 < Z.to_nat (Image.width img * Image.height img))%nat)
      as [Hk|Hk].
    - by destruct (addToChannel_lookup img idx delta 0 0 Hv Hidx Hk ltac:(lia)).
    - unfold addToChannel. cbn [Image.pixels].
      replace (Image.pixels img) with (@nil Z)
        by (symmetry; apply length_zero_iff_nil; lia).
      done. }
  unfold valid_image. cbn [addToChannel Image.width Image.height].
  split; [done|]. split; [done|].
  change (foldl _ _ _)
    with (Image.pixels (addToChannel img (Z.of_nat idx) delta)).
  rewrite Hlo. split; [done|].
  apply Forall_lookup. intros i x Hx.
  assert (i < Z.to_nat (Image.width img * Image.height img) * 3)%nat as Hi.
  { apply lookup_lt_Some in Hx. lia. }
  destruct (index_split 3 _ i Hi) as (p & c & Hp & Hc & ->).
  destruct (addToChannel_lookup img idx delta p c Hv Hidx Hp Hc) as [_ Hlk].
  rewrite Hlk in Hx. destruct (decide (c = idx)).
  - injection Hx as <-. rewrite clampByte_spec. unfold is_byte. lia.
  - eapply Forall_lookup in Hb; eauto.
Qed.

(** The clamped [int] sum of a byte and an [int]. *)
Lemma clamp_wrap_sum v delta :
  is_byte v -> INT_MIN <= delta <= INT_MAX ->
  ColorMath.clampByte (int_wrap (v + delta))
  = if decide (v + delta <= INT_MAX) then Z.max 0 (Z.min 255 (v + delta))
    else 0.
Proof.
  unfold is_byte. intros Hv Hd. rewrite clampByte_spec.
  case_decide as Hs.
  - rewrite int_wrap_id; [done|]. lia.
  - rewrite int_wrap_over.
    + unfold INT_MAX in *. change (2 ^ 31) with 2147483648 in *.
      change (2 ^ 32) with 4294967296. lia.
    + unfold INT_MAX in *. change (2 ^ 31) with 2147483648 in *. lia.
Qed.

(** X11: [addToChannel] on slot [idx] of a valid buffer, with an [int]
    [delta], replaces every sample of that slot by the sample plus [delta],
    clamped to 0..255, as long as the sum is within [int]; where the sum
    exceeds [INT_MAX] it wraps around and the sample becomes 0.  The samples
    of the other two slots and the dimensions stay as they are; the result
    is a valid buffer. *)
Theorem addToChannel_clamps_one_slot (img : Image) (idx : nat) (delta : Z) :
  valid_image img -> (idx < 3)%nat -> INT_MIN <= delta <= INT_MAX ->
  let out := addToChannel img (Z.of_nat idx) delta in
  Image.width out = Image.width img /\
  Image.height out = Image.height img /\
  valid_image out /\
  forall (p c : nat) (v : Z),
    (c < 3)%nat ->
    Image.pixels img !! (p * 3 + c)%nat = Some v ->
    Image.pixels out !! (p * 3 + c)%nat
    = Some (if decide (c = idx)
            then if decide (v + delta <= INT_MAX)
                 then Z.max 0 (Z.min 255 (v + delta))
                 else 0
            else v).
Proof.
  intros Hv Hidx Hdelta out. destruct (valid_image_size img Hv) as [Hpos Hlen].
  pose proof Hv as (Hw & Hh & Hl & Hb).
  assert (forall (p c : nat) (v : Z),
            (c < 3)%nat ->
            Image.pixels img !! (p * 3 + c)%nat = Some v ->
            Image.pixels out !! (p * 3 + c)%nat
            = Some (if decide (c = idx)
                    then if decide (v + delta <= INT_MAX)
                         then Z.max 0 (Z.min 255 (v + delta))
                         else 0
                    else v)) as Hlk.
  { intros p c v Hc Hv0. subst out.
    assert (p < Z.to_nat (Image.width img * Image.height img))%nat as Hp.
    { apply lookup_lt_Some in Hv0. lia. }
    destruct (addToChannel_lookup img idx delta p c Hv Hidx Hp Hc) as [_ ->].
    destruct (decide (c = idx)); [|done].
    rewrite (at_lookup _ _ _ Hv0). f_equal.
    apply clamp_wrap_sum; [|done]. eapply Forall_lookup in Hb; eauto. }
  split; [done|]. split; [done|]. split; [|done].
  subst out. by apply addToChannel_valid.
Qed.

Lemma addToChannel_clamps_witness :
  Image.pixels (addToChannel (Image.mk 1 1 [10; 100; 250]) 1 200)
    !! 1%nat = Some 255.
Proof.
  assert (valid_image (Image.mk 1 1 [10; 100; 250])) as Hv.
  { unfold valid_image, is_u16; cbn; repeat split; try lia.
    repeat constructor; unfold is_byte; lia. }
  destruct (addToChannel_clamps_one_slot (Image.mk 1 1 [10; 100; 250]) 1 200
              Hv ltac:(lia) ltac:(unfold INT_MIN, INT_MAX; lia))
    as (_ & _ & _ & Hlk).
  exact (Hlk 0%nat 1%nat 100 ltac:(lia) eq_refl).
Defined.

(** A [delta] close to [INT_MAX] darkens instead of brightening. *)
Remark addToChannel_wraps :
  Image.pixels (addToChannel (Image.mk 1 1 [10; 100; 250]) 1 INT_MAX)
  = [10; 0; 250].
Proof. reflexivity. Qed.

Lemma image_eq (a b : Image) :
  Image.width a = Image.width b -> Image.height a = Image.height b ->
  Image.pixels a = Image.pixels b -> a = b.
Proof. destruct a, b. cbn. congruence. Qed.

Lemma pixels_eq_by_slots (k : nat) (l1 l2 : list Z) :
  length l1 = (k * 3)%nat -> length l2 = (k * 3)%nat ->
  (forall p c : nat, (p < k)%nat -> (c < 3)%nat ->
     l1 !! (p * 3 + c)%nat = l2 !! (p * 3 + c)%nat) ->
  l1 = l2.
Proof.
  intros H1 H2 Hlk. apply list_eq_same_length with (k * 3)%nat; [done|done|].
  intros i x y Hi. destruct (index_split 3 k i Hi) as (p & c & Hp & Hc & ->).
  rewrite Hlk by done. congruence.
Qed.

(** X12: Adjustments of different slots can be made in either order; two
    adjustments of one slot by deltas of the same sign whose sum lies
    between [INT_MIN] and [INT_MAX - 255] amount to one adjustment by
    their sum; a zero delta changes nothing. *)
Theorem addToChannel_compose (img : Image) (i j : nat) (d e : Z) :
  valid_image img -> (i < 3)%nat -> (j < 3)%nat ->
  (i <> j ->
   addToChannel (addToChannel img (Z.of_nat i) d) (Z.of_nat j) e
   = addToChannel (addToChannel img (Z.of_nat j) e) (Z.of_nat i) d) /\
  (0 <= d * e -> INT_MIN <= d + e <= INT_MAX - 255 ->
   addToChannel (addToChannel img (Z.of_nat i) d) (Z.of_nat i) e
   = addToChannel img (Z.of_nat i) (d + e)) /\
  addToChannel img (Z.of_nat i) 0 = img.
Proof.
  intros Hv Hi Hj. destruct (valid_image_size img Hv) as [Hpos Hlen].
  pose proof Hv as (_ & _ & _ & Hb).
  set (k := Z.to_nat (Image.width img * Image.height img)) in *.
  assert (forall a dd, (a < 3)%nat ->
            length (Image.pixels (addToChannel img (Z.of_nat a) dd))
            = (k * 3)%nat) as Hl1.
  { intros a dd Ha.
    destruct (valid_image_size _ (addToChannel_valid img a dd Hv Ha)) as [_ ->].
    cbn [addToChannel Image.width Image.height]. lia. }
  assert (forall a dd b ee, (a < 3)%nat -> (b < 3)%nat ->
            length (Image.pixels (addToChannel
                                    (addToChannel img (Z.of_nat a) dd)
                                    (Z.of_nat b) ee))
            = (k * 3)%nat) as Hl2.
  { intros a dd b ee Ha Hb'.
    destruct (valid_image_size _
                (addToChannel_valid _ b ee (addToChannel_valid img a dd Hv Ha) Hb'))
      as [_ ->].
    cbn [addToChannel Image.width Image.height]. lia. }
  assert (forall a dd b ee (p c : nat),
            (a < 3)%nat -> (b < 3)%nat -> (p < k)%nat -> (c < 3)%nat ->
            Image.pixels (addToChannel (addToChannel img (Z.of_nat a) dd)
                                       (Z.of_nat b) ee) !! (p * 3 + c)%nat
            = Some (let v := at_ (Image.pixels img) (Z.of_nat (p * 3 + c)) in
                    let v1 := if decide (c = a)
                              then ColorMath.clampByte (int_wrap (v + dd))
                              else v in
                    if decide (c = b)
                    then ColorMath.clampByte (int_wrap (v1 + ee)) else v1)) as Hk2.
  { intros a dd b ee p c Ha Hb' Hp Hc.
    destruct (addToChannel_lookup (addToChannel img (Z.of_nat a) dd) b ee p c)
      as [_ ->]; [by apply addToChannel_valid|done|done|done|].
    destruct (addToChannel_lookup img a dd p c Hv Ha Hp Hc) as [_ Hin].
    unfold at_ at 1. rewrite Nat2Z.id, Hin.
    rewrite (at_in_range (Image.pixels img)) by lia.
    cbv zeta. destruct (decide (c = b)), (decide (c = a)); done. }
  split; [|split].
  - intros Hne. apply image_eq; [done|done|].
    apply (pixels_eq_by_slots k); [by apply Hl2|by apply Hl2|].
    intros p c Hp Hc. rewrite !Hk2 by done. cbv zeta.
    destruct (decide (c = i)), (decide (c = j)); try done. lia.
  - intros Hsign Hsum. apply image_eq; [done|done|].
    apply (pixels_eq_by_slots k); [by apply Hl2|by apply Hl1|].
    intros p c Hp Hc. rewrite Hk2 by done.
    destruct (addToChannel_lookup img i (d + e) p c Hv Hi Hp Hc) as [_ ->].
    cbv zeta. destruct (decide (c = i)); [|by rewrite at_in_range by lia].
    f_equal. pose proof (at_byte _ (Z.of_nat (p * 3 + c)) Hb) as Hbyte.
    set (v := at_ (Image.pixels img) (Z.of_nat (p * 3 + c))) in *.
    unfold is_byte, INT_MIN, INT_MAX in *.
    change (2 ^ 31) with 2147483648 in *.
    assert ((0 <= d /\ 0 <= e) \/ (d <= 0 /\ e <= 0)) as Hde by nia.
    rewrite (int_wrap_id (v + d))
      by (unfold INT_MIN, INT_MAX; change (2 ^ 31) with 2147483648; lia).
    rewrite (int_wrap_id (v + (d + e)))
      by (unfold INT_MIN, INT_MAX; change (2 ^ 31) with 2147483648; lia).
    rewrite (clampByte_spec (v + d)).
    rewrite int_wrap_id
      by (unfold INT_MIN, INT_MAX; change (2 ^ 31) with 2147483648; lia).
    rewrite !clampByte_spec. lia.
  - apply image_eq; [done|done|].
    apply (pixels_eq_by_slots k); [by apply Hl1|lia|].
    intros p c Hp Hc.
    destruct (addToChannel_lookup img i 0 p c Hv Hi Hp Hc) as [_ ->].
    destruct (decide (c = i)); [|done].
    rewrite (at_in_range (Image.pixels img)) by lia. f_equal.
    pose proof (at_byte _ (Z.of_nat (p * 3 + c)) Hb) as Hbyte.
    rewrite Z.add_0_r, int_wrap_id, clampByte_spec;
      unfold is_byte, INT_MIN, INT_MAX in *; lia.
Qed.

Lemma addToChannel_compose_witness :
  addToChannel (addToChannel (Image.mk 1 1 [10; 100; 250]) 1 100) 1 100
  = addToChannel (Image.mk 1 1 [10; 100; 250]) 1 200.
Proof.
  assert (valid_image (Image.mk 1 1 [10; 100; 250])) as Hv.
  { unfold valid_image, is_u16; cbn; repeat split; try lia.
    repeat constructor; unfold is_byte; lia. }
  destruct (addToChannel_compose (Image.mk 1 1 [10; 100; 250]) 1 1 100 100
              Hv ltac:(lia) ltac:(lia)) as (_ & Hsum & _).
  exact (Hsum ltac:(lia) ltac:(unfold INT_MIN, INT_MAX; lia)).
Defined.

(** Beyond that bound the first sum can wrap around where the single one
    does not clamp to the same value. *)
Remark addToChannel_compose_bound :
  Image.pixels (addToChannel (addToChannel (Image.mk 1 1 [10; 200; 250]) 1
                                           (INT_MAX - 100)) 1 50)
  = [10; 50; 250] /\
  Image.pixels (addToChannel (Image.mk 1 1 [10; 200; 250]) 1 (INT_MAX - 50))
  = [10; 0; 250].
Proof. split; reflexivity. Qed.

(** ** Channel split *)

Lemma resize_length v n : length (resize v n) = n.
Proof.
  unfold resize. rewrite length_app, length_take, length_replicate. lia.
Qed.

Section split.
Variables (k : nat) (src : Image).
Hypothesis Hlen : length (Image.pixels src) = (k * 3)%nat.
Variable set3 : Image -> Z -> Z -> Image.
Hypothesis Hset3 :
  forall d i v,
    set3 d i v
    = {| Image.width := Image.width d;
         Image.height := Image.height d;
         Image.pixels :=
           set_at (set_at (set_at (Image.pixels d) (i + 2) v) (i + 1) v)
                  (i + 0) v |}.
Variable step : Image * Image * Image -> Z -> Image * Image * Image.
Hypothesis Hstep :
  forall r g b i,
    step (r, g, b) i
    = (set3 r i (at_ (Image.pixels src) (i + 2)),
       set3 g i (at_ (Image.pixels src) (i + 1)),
       set3 b i (at_ (Image.pixels src) (i + 0))).

Lemma set3_good c d (t : nat) :
  (t < k)%nat -> (c < 3)%nat -> split_good src k c d t ->
  split_good src k c (set3 d (Z.of_nat t * 3)
               (at_ (Image.pixels src) (Z.of_nat t * 3 + Z.of_nat c)))
       (S t).
Proof using Hlen Hset3.
  intros Ht Hc (Hw & Hh & Hl & Hg). rewrite Hset3.
  unfold split_good. cbn [Image.width Image.height Image.pixels].
  replace (Z.of_nat t * 3 + 2) with (Z.of_nat (t * 3 + 2)) by lia.
  replace (Z.of_nat t * 3 + 1) with (Z.of_nat (t * 3 + 1)) by lia.
  replace (Z.of_nat t * 3 + 0) with (Z.of_nat (t * 3 + 0)) by lia.
  replace (Z.of_nat t * 3 + Z.of_nat c) with (Z.of_nat (t * 3 + c)) by lia.
  set (v := at_ (Image.pixels src) (Z.of_nat (t * 3 + c))).
  destruct (store3_lookup (Image.pixels d) t v v v) as (Hl' & H0 & H1 & H2 & Ho);
    [lia|].
  split; [done|]. split; [done|]. split; [lia|].
  intros p j Hp Hj. destruct (decide (p < t)%nat) as [Hlt|Hge].
  - rewrite Ho by lia. by apply Hg.
  - assert (p = t) as -> by lia.
    rewrite (at_in_range (Image.pixels src)) by lia. fold v.
    destruct j as [|[|[|j]]]; [exact H0|exact H1|exact H2|lia].
Qed.

Lemma split_loop_inv (r0 g0 b0 : Image) (t : nat) :
  (t <= k)%nat ->
  split_good src k 2 r0 0 -> split_good src k 1 g0 0 -> split_good src k 0 b0 0 ->
  exists r g b,
    foldl step (r0, g0, b0) ((fun p => p * 3) <$> seqZ 0 (Z.of_nat t))
    = (r, g, b) /\
    split_good src k 2 r t /\ split_good src k 1 g t /\ split_good src k 0 b t.
Proof using Hlen Hset3 Hstep.
  intros Ht Hr Hg Hb. induction t as [|t IH].
  - exists r0, g0, b0. done.
  - destruct IH as (r & g & b & E & Hr' & Hg' & Hb'); [lia|].
    rewrite seqZ_S, fmap_app, foldl_app, E. simpl. rewrite Z.add_0_l, Hstep.
    eexists _, _, _. split; [done|].
    split; [|split].
    + exact (set3_good 2 r t ltac:(lia) ltac:(lia) Hr').
    + exact (set3_good 1 g t ltac:(lia) ltac:(lia) Hg').
    + exact (set3_good 0 b t ltac:(lia) ltac:(lia) Hb').
Qed.
End split.

Lemma splitRGB_gray src r0 g0 b0 :
  valid_image src ->
  exists r g b,
    splitRGB src r0 g0 b0 = (r, g, b) /\
    (forall c d, (c, d) = (2%nat, r) \/ (c, d) = (1%nat, g)
                 \/ (c, d) = (0%nat, b) ->
       Image.width d = Image.width src /\ Image.height d = Image.height src /\
       length (Image.pixels d) = length (Image.pixels src) /\
       gray_of c (Image.pixels src) (Image.pixels d)
               (Z.to_nat (Image.width src * Image.height src))).
Proof.
  intros Hv. destruct (valid_image_size src Hv) as [Hpos Hlen].
  set (k := Z.to_nat (Image.width src * Image.height src)) in *.
  unfold splitRGB.
  replace (Z.of_nat (length (Image.pixels src)))
    with (Z.of_nat k * Image.PIXEL_SIZE) by (unfold Image.PIXEL_SIZE; lia).
  rewrite pixel_offsets_units. unfold Image.PIXEL_SIZE.
  match goal with
  | |- context [foldl ?f (?pr, ?pg, ?pb) _] =>
      destruct (split_loop_inv k src ltac:(lia) _ (fun _ _ _ => eq_refl)
                  f (fun _ _ _ _ => eq_refl) pr pg pb k ltac:(lia))
        as (r & g & b & E & Hr & Hg & Hb)
  end.
  1-3: (split; [done|]; split; [done|]; split;
        [cbn [Image.pixels]; rewrite resize_length; lia|];
        intros p j Hp; lia).
  exists r, g, b. split; [done|].
  intros c d [[= -> ->]|[[= -> ->]|[= -> ->]]].
  - destruct Hr as (? & ? & ? & ?). repeat split; try done. lia.
  - destruct Hg as (? & ? & ? & ?). repeat split; try done. lia.
  - destruct Hb as (? & ? & ? & ?). repeat split; try done. lia.
Qed.

Lemma gray_valid src d c :
  valid_image src -> (c < 3)%nat ->
  Image.width d = Image.width src -> Image.height d = Image.height src ->
  length (Image.pixels d) = length (Image.pixels src) ->
  gray_of c (Image.pixels src) (Image.pixels d)
          (Z.to_nat (Image.width src * Image.height src)) ->
  valid_image d.
Proof.
  intros Hv Hc Hw Hh Hl Hg. destruct (valid_image_size src Hv) as [Hpos Hlen].
  pose proof Hv as (Hws & Hhs & Hls & Hb).
  unfold valid_image. rewrite Hw, Hh, Hl. split; [done|]. split; [done|].
  split; [done|]. apply Forall_lookup. intros i x Hx.
  assert (i < Z.to_nat (Image.width src * Image.height src) * 3)%nat as Hi.
  { apply lookup_lt_Some in Hx. lia. }
  destruct (index_split 3 _ i Hi) as (p & j & Hp & Hj & ->).
  rewrite Hg in Hx by done. eapply Forall_lookup in Hb; eauto.
Qed.

Lemma gray_unique src d1 d2 c :
  valid_image src ->
  Image.width d1 = Image.width src -> Image.height d1 = Image.height src ->
  length (Image.pixels d1) = length (Image.pixels src) ->
  gray_of c (Image.pixels src) (Image.pixels d1)
          (Z.to_nat (Image.width src * Image.height src)) ->
  Image.width d2 = Image.width src -> Image.height d2 = Image.height src ->
  length (Image.pixels d2) = length (Image.pixels src) ->
  gray_of c (Image.pixels src) (Image.pixels d2)
          (Z.to_nat (Image.width src * Image.height src)) ->
  d1 = d2.
Proof.
  intros Hv Hw1 Hh1 Hl1 Hg1 Hw2 Hh2 Hl2 Hg2.
  destruct (valid_image_size src Hv) as [Hpos Hlen].
  apply image_eq; [congruence|congruence|].
  apply (pixels_eq_by_slots (Z.to_nat (Image.width src * Image.height src)));
    [lia|lia|].
  intros p j Hp Hj. by rewrite Hg1, Hg2.
Qed.

(** X13: [splitRGB] fills three valid buffers of the dimensions of the source;
    in the first all three samples of a pixel are the red sample of the
    source pixel, in the second the green one, in the third the blue one.
    What the three buffers held before the call does not matter. *)
Theorem splitRGB_broadcasts (src r0 g0 b0 r1 g1 b1 : Image) :
  valid_image src ->
  exists r g b,
    splitRGB src r0 g0 b0 = (r, g, b) /\
    splitRGB src r1 g1 b1 = (r, g, b) /\
    valid_image r /\ valid_image g /\ valid_image b /\
    Image.width r = Image.width src /\ Image.height r = Image.height src /\
    Image.width g = Image.width src /\ Image.height g = Image.height src /\
    Image.width b = Image.width src /\ Image.height b = Image.height src /\
    forall (p j : nat),
      (p < Z.to_nat (Image.width src * Image.height src))%nat -> (j < 3)%nat ->
      Image.pixels r !! (p * 3 + j)%nat = Image.pixels src !! (p * 3 + 2)%nat /\
      Image.pixels g !! (p * 3 + j)%nat = Image.pixels src !! (p * 3 + 1)%nat /\
      Image.pixels b !! (p * 3 + j)%nat = Image.pixels src !! (p * 3 + 0)%nat.
Proof.
  intros Hv.
  destruct (splitRGB_gray src r0 g0 b0 Hv) as (r & g & b & E & H).
  destruct (splitRGB_gray src r1 g1 b1 Hv) as (r' & g' & b' & E' & H').
  destruct (H 2%nat r ltac:(by left)) as (Hwr & Hhr & Hlr & Hgr).
  destruct (H 1%nat g ltac:(right; by left)) as (Hwg & Hhg & Hlg & Hgg).
  destruct (H 0%nat b ltac:(right; by right)) as (Hwb & Hhb & Hlb & Hgb).
  destruct (H' 2%nat r' ltac:(by left)) as (Hwr' & Hhr' & Hlr' & Hgr').
  destruct (H' 1%nat g' ltac:(right; by left)) as (Hwg' & Hhg' & Hlg' & Hgg').
  destruct (H' 0%nat b' ltac:(right; by right)) as (Hwb' & Hhb' & Hlb' & Hgb').
  assert (r' = r) as -> by by eapply (gray_unique src).
  assert (g' = g) as -> by by eapply (gray_unique src).
  assert (b' = b) as -> by by eapply (gray_unique src).
  exists r, g, b. split; [done|]. split; [done|].
  split; [apply (gray_valid src r 2); [done|lia|done..]|].
  split; [apply (gray_valid src g 1); [done|lia|done..]|].
  split; [apply (gray_valid src b 0); [done|lia|done..]|].
  do 6 (split; [done|]).
  intros p j Hp Hj. by rewrite Hgr, Hgg, Hgb.
Qed.

Lemma splitRGB_broadcasts_witness :
  exists r g b,
    splitRGB (Image.mk 1 1 [10; 20; 30]) (Image.mk 0 0 []) (Image.mk 0 0 [])
             (Image.mk 0 0 []) = (r, g, b) /\
    Image.pixels r !! 0%nat = Some 30.
Proof.
  assert (valid_image (Image.mk 1 1 [10; 20; 30])) as Hv.
  { unfold valid_image, is_u16; cbn; repeat split; try lia.
    repeat constructor; unfold is_byte; lia. }
  destruct (splitRGB_broadcasts (Image.mk 1 1 [10; 20; 30]) (Image.mk 0 0 [])
              (Image.mk 0 0 []) (Image.mk 0 0 []) (Image.mk 0 0 [])
              (Image.mk 0 0 []) (Image.mk 0 0 []) Hv)
    as (r & g & b & E & _ & _ & _ & _ & _ & _ & _ & _ & _ & _ & Hlk).
  exists r, g, b. split; [exact E|].
  exact (proj1 (Hlk 0%nat 0%nat ltac:(cbn; lia) ltac:(lia))).
Defined.

(** X14: Splitting a valid buffer of at most [INT_MAX] pixels and combining
    the three outputs gives the buffer back. *)
Theorem split_combine_roundtrip (src r0 g0 b0 : Image) :
  valid_image src -> fits_int src ->
  exists r g b,
    splitRGB src r0 g0 b0 = (r, g, b) /\ combineRGB r g b = Ok src.
Proof.
  intros Hv Hfit. destruct (valid_image_size src Hv) as [Hpos Hlen].
  destruct (splitRGB_gray src r0 g0 b0 Hv) as (r & g & b & E & H).
  destruct (H 2%nat r ltac:(by left)) as (Hwr & Hhr & Hlr & Hgr).
  destruct (H 1%nat g ltac:(right; by left)) as (Hwg & Hhg & Hlg & Hgg).
  destruct (H 0%nat b ltac:(right; by right)) as (Hwb & Hhb & Hlb & Hgb).
  exists r, g, b. split; [done|].
  destruct (combineRGB_reads_first_slot r g b)
    as (out & Eout & Hwo & Hho & Hlo & Hko);
    [congruence|congruence|congruence|congruence| | | | |].
  - apply (gray_valid src r 2); [done|lia|done..].
  - apply (gray_valid src g 1); [done|lia|done..].
  - apply (gray_valid src b 0); [done|lia|done..].
  - unfold fits_int. by rewrite Hwr, Hhr.
  - rewrite Eout. f_equal. apply image_eq; [congruence|congruence|].
    apply (pixels_eq_by_slots (Z.to_nat (Image.width src * Image.height src)));
      [lia|lia|].
    intros p c Hp Hc.
    destruct (Hko p) as (H0 & H1 & H2); [rewrite Hwr, Hhr; lia|].
    pose proof (Hgb p 0%nat Hp ltac:(lia)) as Eb.
    pose proof (Hgg p 0%nat Hp ltac:(lia)) as Eg.
    pose proof (Hgr p 0%nat Hp ltac:(lia)) as Er.
    replace (p * 3 + 0)%nat with (p * 3)%nat in Eb, Eg, Er by lia.
    destruct c as [|[|[|c]]]; [| | |lia].
    + rewrite H0, Eb. f_equal. lia.
    + by rewrite H1, Eg.
    + by rewrite H2, Er.
Qed.

Lemma split_combine_roundtrip_witness :
  exists r g b,
    splitRGB (Image.mk 1 1 [10; 20; 30]) (Image.mk 0 0 []) (Image.mk 0 0 [])
             (Image.mk 0 0 []) = (r, g, b) /\
    combineRGB r g b = Ok (Image.mk 1 1 [10; 20; 30]).
Proof.
  assert (valid_image (Image.mk 1 1 [10; 20; 30])) as Hv.
  { unfold valid_image, is_u16; cbn; repeat split; try lia.
    repeat constructor; unfold is_byte; lia. }
  exact (split_combine_roundtrip (Image.mk 1 1 [10; 20; 30]) (Image.mk 0 0 [])
           (Image.mk 0 0 []) (Image.mk 0 0 []) Hv
           ltac:(unfold fits_int, INT_MAX; cbn; lia)).
Defined.

Section count_diff.

Variables f g : Z -> Z.
Variable step : Z -> Z -> Z.
Hypothesis Hstep :
  forall d i, step d i = if negb (f i =? g i) then d + 1 else d.

Lemma count_loop_inv (t : nat) :
  let d := foldl step 0 (seqZ 0 (Z.of_nat t)) in
  0 <= d <= Z.of_nat t /\
  (d = 0 <-> forall i, 0 <= i < Z.of_nat t -> f i = g i).
Proof.
  induction t as [|t IH]; cbv zeta in *.
  - rewrite seqZ_nil by lia. cbn. split; [lia|]. split; [intros _ i; lia|done].
  - rewrite seqZ_S, foldl_snoc, Hstep.
    destruct IH as [Hr Hz]. rewrite Z.add_0_l.
    destruct (Z.eqb_spec (f (Z.of_nat t)) (g (Z.of_nat t))) as [E|E]; cbn [negb].
    + split; [lia|]. rewrite Hz. split.
      * intros H i Hi. destruct (decide (i = Z.of_nat t)) as [->|]; [done|].
        apply H. lia.
      * intros H i Hi. apply H. lia.
    + split; [lia|]. split; [lia|]. intros H. destruct E. apply H. lia.
Qed.

End count_diff.

Lemma countDiff_same_size (a b : Image) :
  Image.width a = Image.width b -> Image.height a = Image.height b ->
  let d := Tests.countDiff a b in
  0 <= d <= Z.of_nat (length (Image.pixels a)) /\
  (d = 0 <->
   forall i, 0 <= i < Z.of_nat (length (Image.pixels a)) ->
             at_ (Image.pixels a) i = at_ (Image.pixels b) i).
Proof.
  intros Hw Hh. unfold Tests.countDiff. rewrite Hw, Hh, !Z.eqb_refl.
  cbn [negb orb].
  match goal with
  | |- context [foldl ?s _ _] =>
      exact (count_loop_inv (at_ (Image.pixels a)) (at_ (Image.pixels b)) s
               (fun _ _ => eq_refl) (length (Image.pixels a)))
  end.
Qed.

Lemma at_ext (l1 l2 : list Z) :
  length l1 = length l2 ->
  (forall i, 0 <= i < Z.of_nat (length l1) -> at_ l1 i = at_ l2 i) ->
  l1 = l2.
Proof.
  intros Hl H. apply list_eq_same_length with (length l1); [done|done|].
  intros i x y Hi Hx Hy.
  specialize (H (Z.of_nat i) ltac:(lia)). unfold at_ in H.
  rewrite Nat2Z.id, Hx, Hy in H. by cbn in H.
Qed.

(** X15: For two valid buffers, [countDiff] is [SIZE_MAX] when the dimensions
    differ; otherwise it is a number between 0 and the number of bytes, which
    is below [SIZE_MAX], and it is 0 exactly when the two buffers are
    equal. *)
Theorem countDiff_zero_iff_equal (a b : Image) :
  valid_image a -> valid_image b ->
  (Image.width a <> Image.width b \/ Image.height a <> Image.height b ->
   Tests.countDiff a b = Tests.SIZE_MAX) /\
  (Image.width a = Image.width b -> Image.height a = Image.height b ->
   0 <= Tests.countDiff a b <= Z.of_nat (length (Image.pixels a)) /\
   Tests.countDiff a b < Tests.SIZE_MAX /\
   (Tests.countDiff a b = 0 <-> a = b)).
Proof.
  intros Ha Hb. split.
  - intros H. unfold Tests.countDiff.
    destruct (Z.eqb_spec (Image.width a) (Image.width b));
      destruct (Z.eqb_spec (Image.height a) (Image.height b));
      cbn [negb orb]; try done. by destruct H.
  - intros Hw Hh.
    destruct (countDiff_same_size a b Hw Hh) as [Hr Hz].
    pose proof Ha as (Hwa & Hha & Hla & _). pose proof Hb as (_ & _ & Hlb & _).
    unfold is_u16, Image.PIXEL_SIZE in *.
    split; [done|]. split.
    { unfold Tests.SIZE_MAX. change (2 ^ 64 - 1) with 18446744073709551615.
      nia. }
    rewrite Hz. split.
    + intros H. apply image_eq; [done|done|]. apply at_ext; [|done].
      rewrite Hw, Hh in Hla. lia.
    + by intros ->.
Qed.

Lemma countDiff_zero_iff_equal_witness :
  Tests.countDiff (Image.mk 1 1 [1; 2; 3]) (Image.mk 1 1 [1; 2; 3]) = 0
  <-> Image.mk 1 1 [1; 2; 3] = Image.mk 1 1 [1; 2; 3].
Proof.
  assert (valid_image (Image.mk 1 1 [1; 2; 3])) as Hv.
  { unfold valid_image, is_u16; cbn; repeat split; try lia.
    repeat constructor; unfold is_byte; lia. }
  exact (proj2 (proj2 (proj2 (countDiff_zero_iff_equal
           (Image.mk 1 1 [1; 2; 3]) (Image.mk 1 1 [1; 2; 3]) Hv Hv)
           eq_refl eq_refl))).
Defined.

Lemma px_defined img x y :
  valid_image img -> fits_int img ->
  0 <= x < Image.width img -> 0 <= y < Image.height img ->
  Image.px img x y = Some ((y * Image.width img + x) * 3).
Proof.
  intros (Hw & Hh & _) Hfit Hx Hy.
  unfold Image.px, Image.PIXEL_SIZE, fits_int, is_u16 in *.
  assert (y * Image.width img + Image.width img
          <= Image.width img * Image.height img) by nia.
  rewrite !in_int_true by (unfold INT_MIN; nia). done.
Qed.

(** X16: [px(x, y)] with [x], [y] inside a valid buffer of at most [INT_MAX]
    pixels is the offset of a 3-byte slot inside the byte vector, and
    distinct coordinates get disjoint slots: the offset is 3 times the
    pixel's number, row [y] counted from the first row of the vector. *)
Theorem px_in_range_and_injective (img : Image) (x y x' y' : Z) :
  valid_image img -> fits_int img ->
  0 <= x < Image.width img -> 0 <= y < Image.height img ->
  0 <= x' < Image.width img -> 0 <= y' < Image.height img ->
  exists o o',
    Image.px img x y = Some o /\ Image.px img x' y' = Some o' /\
    o = (y * Image.width img + x) * 3 /\
    0 <= o /\
    o + 3 <= Z.of_nat (length (Image.pixels img)) /\
    (o = o' -> x = x' /\ y = y') /\
    ((x, y) <> (x', y') -> o + 3 <= o' \/ o' + 3 <= o).
Proof.
  intros Hv Hfit Hx Hy Hx' Hy'.
  exists ((y * Image.width img + x) * 3), ((y' * Image.width img + x') * 3).
  split; [by apply px_defined|]. split; [by apply px_defined|].
  split; [done|].
  destruct Hv as (Hw & Hh & Hl & _).
  unfold Image.PIXEL_SIZE, is_u16 in *.
  assert (y = y' -> x = x' -> (x, y) = (x', y')) as Heq by congruence.
  assert (y < y' \/ y = y' \/ y' < y) as [H|[H|H]] by lia.
  - assert ((y + 1) * Image.width img <= y' * Image.width img) by nia.
    assert (y' * Image.width img + Image.width img
            <= Image.height img * Image.width img) by nia.
    repeat split; try lia; nia.
  - subst y'.
    assert (y * Image.width img + Image.width img
            <= Image.height img * Image.width img) by nia.
    repeat split; try lia; try nia.
    intros Hne. assert (x <> x') by (intros ->; by apply Hne). lia.
  - assert ((y' + 1) * Image.width img <= y * Image.width img) by nia.
    assert (y * Image.width img + Image.width img
            <= Image.height img * Image.width img) by nia.
    repeat split; try lia; nia.
Qed.

Lemma px_in_range_and_injective_witness :
  exists o,
    Image.px (Image.mk 2 2 [0; 0; 255; 0; 255; 0; 255; 0; 0; 128; 128; 128])
             1 1 = Some o /\
    o + 3 <= 12.
Proof.
  assert (valid_image
            (Image.mk 2 2 [0; 0; 255; 0; 255; 0; 255; 0; 0; 128; 128; 128]))
    as Hv.
  { unfold valid_image, is_u16; cbn; repeat split; try lia.
    repeat constructor; unfold is_byte; lia. }
  destruct (px_in_range_and_injective
              (Image.mk 2 2 [0; 0; 255; 0; 255; 0; 255; 0; 0; 128; 128; 128])
              1 1 0 0 Hv ltac:(unfold fits_int, INT_MAX; cbn; lia)
              ltac:(cbn; lia) ltac:(cbn; lia) ltac:(cbn; lia) ltac:(cbn; lia))
    as (o & o' & E & _ & _ & _ & Hle & _).
  exists o. split; [exact E | exact Hle].
Defined.

(** ** The second copy of the tool *)

Lemma tool_outcome_Ok {A : Type} (r : result A) (a : A) :
  tool_outcome r = Ok a -> r = Ok a.
Proof. by destruct r. Qed.

Lemma Copy2_load_eq fs path :
  (forall bytes, files fs !! path = Some bytes ->
     TGA.colorMapType (TGA.Header_of_bytes (take 18 bytes)) = 0) ->
  tool_outcome (Copy2.load fs path) = TGA.load fs path.
Proof.
  intros Hcm. unfold Copy2.load, TGA.load.
  destruct (files fs !! path) as [bytes|] eqn:E; [|done].
  specialize (Hcm bytes eq_refl). rewrite <- read_header in Hcm.
  destruct (read _ TGA.sizeof_Header) as [hb f]. cbn [fst] in Hcm.
  cbv zeta. rewrite Hcm. cbn [Z.eqb negb].
  destruct (negb (TGA.dataTypeCode (TGA.Header_of_bytes hb) =? 2)); [done|].
  destruct (negb (TGA.bitsPerPixel (TGA.Header_of_bytes hb) =? 24)); [done|].
  destruct (negb (in_int _)); [done|].
  destruct (read _ _) as [pb f']. by destruct (in_fail f').
Qed.

(** X17: The second copy of [load] differs from the tool's only in the missing
    colour-map check and in the wording of three messages: whenever the
    tool's [load] does not reject the file as colour-mapped, both give the
    same result up to that wording, and the same buffer when the tool
    returns one; the copy never reports a colour-mapped file. *)
Theorem Copy2_load_drops_colormap_check (fs : FileSystem) (path : string) :
  (TGA.load fs path <> Throw (OnlyUnmapped path) ->
   tool_outcome (Copy2.load fs path) = TGA.load fs path) /\
  (forall img, TGA.load fs path = Ok img -> Copy2.load fs path = Ok img) /\
  (forall p, tool_outcome (Copy2.load fs path) <> Throw (OnlyUnmapped p)).
Proof.
  assert (TGA.load fs path <> Throw (OnlyUnmapped path) ->
          tool_outcome (Copy2.load fs path) = TGA.load fs path) as H.
  { intros Hne. apply Copy2_load_eq. intros bytes E.
    destruct (decide (TGA.colorMapType
                        (TGA.Header_of_bytes (take 18 bytes)) = 0))
      as [|Hcm]; [done|].
    destruct Hne. revert Hcm. rewrite <- read_header.
    unfold TGA.load. rewrite E.
    destruct (read _ TGA.sizeof_Header) as [hb f]. cbn [fst]. cbv zeta.
    intros Hcm. apply Z.eqb_neq in Hcm. by rewrite Hcm. }
  split; [done|]. split.
  - intros img E. apply tool_outcome_Ok. rewrite H; [done|]. by rewrite E.
  - intros p. unfold Copy2.load.
    destruct (files fs !! path) as [bytes|]; [|done].
    destruct (read _ TGA.sizeof_Header) as [hb f]. cbv zeta.
    repeat (match goal with |- context [if ?c then _ else _] => destruct c end;
            try done).
    all: by destruct (read _ _) as [pb f']; destruct (in_fail f').
Qed.

Lemma Copy2_load_drops_colormap_check_witness :
  tool_outcome
    (Copy2.load (mkFS {[ "a.tga" := [0; 0; 2; 0; 0; 0; 0; 0; 0; 0; 0; 0; 1; 0;
                                     1; 0; 24; 0; 7; 8; 9] ]}
                      (fun _ => false) 0) "a.tga")
  = TGA.load (mkFS {[ "a.tga" := [0; 0; 2; 0; 0; 0; 0; 0; 0; 0; 0; 0; 1; 0; 1; 0;
                                  24; 0; 7; 8; 9] ]} (fun _ => false) 0) "a.tga".
Proof.
  apply (proj1 (Copy2_load_drops_colormap_check
                  (mkFS {[ "a.tga" := [0; 0; 2; 0; 0; 0; 0; 0; 0; 0; 0; 0; 1; 0;
                                       1; 0; 24; 0; 7; 8; 9] ]}
                        (fun _ => false) 0) "a.tga")).
  vm_compute. discriminate.
Defined.

Lemma Copy2_rows img :
  0 <= Image.width img -> 0 <= Image.height img ->
  Copy2.row img <$> seqZ 0 (Image.height img)
  = reverse (units (Z.to_nat (Image.width img * Image.PIXEL_SIZE))
                   (Z.to_nat (Image.height img)) (Image.pixels img)).
Proof.
  intros Hw Hh.
  apply list_eq_same_length with (Z.to_nat (Image.height img)).
  - by rewrite length_reverse, units_length.
  - by rewrite length_fmap, length_seqZ.
  - intros i x y Hi.
    rewrite list_lookup_fmap, lookup_seqZ_lt by lia.
    rewrite reverse_lookup by (by rewrite units_length).
    rewrite units_length, units_lookup by lia. simpl.
    intros [= <-] [= <-]. unfold Copy2.row, Image.PIXEL_SIZE.
    do 2 f_equal. nia.
Qed.

Lemma Copy2_save_stream_inv fl cap img :
  valid_image img ->
  stream_inv cap (Copy2.save_stream fl cap img)
             (TGA.Header_bytes (TGA.save_header img)
              ++ Image.pixels (rows_reversed img)).
Proof.
  intros (Hw & Hh & Hlen & _). unfold is_u16 in *.
  unfold Copy2.save_stream. rewrite <- foldl_fmap, Copy2_rows by lia.
  apply write_all_inv.
  apply (write_inv fl cap ofstream_open _ []), stream_inv_open.
Qed.

Lemma rows_reversed_valid img : valid_image img -> valid_image (rows_reversed img).
Proof.
  intros (Hw & Hh & Hlen & Hb). unfold is_u16 in *.
  assert (length (Image.pixels img)
          = (Z.to_nat (Image.height img)
             * Z.to_nat (Image.width img * Image.PIXEL_SIZE))%nat) as Hl
    by (unfold Image.PIXEL_SIZE in *; nia).
  unfold valid_image, rows_reversed. cbn [Image.width Image.height Image.pixels].
  split; [done|]. split; [done|]. split.
  - rewrite reverse_units_length by done. unfold Image.PIXEL_SIZE in *. nia.
  - by apply reverse_units_Forall.
Qed.

Lemma rows_reversed_involutive img :
  valid_image img -> rows_reversed (rows_reversed img) = img.
Proof.
  intros (Hw & Hh & Hlen & Hb). unfold is_u16 in *.
  set (n := Z.to_nat (Image.width img * Image.PIXEL_SIZE)).
  set (k := Z.to_nat (Image.height img)).
  assert (length (Image.pixels img) = (k * n)%nat) as Hl
    by (subst n k; unfold Image.PIXEL_SIZE in *; nia).
  apply image_eq; [done|done|].
  unfold rows_reversed. cbn [Image.width Image.height Image.pixels]. fold n k.
  replace k with (length (reverse (units n k (Image.pixels img)))) at 1
    by (by rewrite length_reverse, units_length).
  rewrite units_of_concat by (by apply Forall_reverse, units_uniform).
  by rewrite reverse_involutive, units_concat.
Qed.

Lemma load_saved fs path img (payload : list Z) hdr :
  is_u16 (Image.width img) -> is_u16 (Image.height img) -> fits_int img ->
  hdr = TGA.save_header img \/ hdr = Copy3.save_header img ->
  Z.of_nat (length payload)
    = Image.width img * Image.height img * Image.PIXEL_SIZE ->
  files fs !! path = Some (TGA.Header_bytes hdr ++ payload) ->
  TGA.load fs path
  = Ok {| Image.width := Image.width img;
          Image.height := Image.height img;
          Image.pixels := oriented hdr payload |}.
Proof.
  intros Hw Hh Hfit Hhdr Hlen Hf.
  assert (valid_header hdr) as Hv.
  { destruct Hhdr as [->| ->]; [by apply valid_save_header|].
    unfold valid_header, Copy3.save_header, is_byte, is_u16 in *.
    cbn. repeat split; lia. }
  rewrite (load_tga_file fs path hdr [] payload []).
  - by destruct Hhdr as [->| ->].
  - unfold tga_file. by rewrite app_nil_l, app_nil_r.
  - done.
  - by destruct Hhdr as [->| ->].
  - by destruct Hhdr as [->| ->].
  - by destruct Hhdr as [->| ->].
  - by destruct Hhdr as [->| ->].
  - by destruct Hhdr as [->| ->].
  - by destruct Hhdr as [->| ->].
Qed.

Lemma Copy2_px_defined img x y :
  valid_image img -> fits_int img ->
  0 <= x < Image.width img -> 0 <= y < Image.height img ->
  Copy2.px img x y
  = Some (((Image.height img - 1 - y) * Image.width img + x) * 3).
Proof.
  intros (Hw & Hh & _) Hfit Hx Hy.
  unfold Copy2.px, Image.PIXEL_SIZE, fits_int, is_u16 in *. cbv zeta.
  assert ((Image.height img - 1 - y) * Image.width img + Image.width img
          <= Image.width img * Image.height img) by nia.
  rewrite !in_int_true by (unfold INT_MIN, INT_MAX in *; nia). done.
Qed.

Lemma Copy2_save_load fl fs img path :
  valid_image img -> fits_int img ->
  unwritable fs path = false ->
  (18 + length (Image.pixels img) <= space fs)%nat ->
  (Copy2.save fl fs img path).2 = Ok tt /\
  Copy2.load (Copy2.save fl fs img path).1 path = Ok (rows_reversed img) /\
  TGA.load (Copy2.save fl fs img path).1 path = Ok (rows_reversed img).
Proof.
  intros Hv Hfit Hopen Hroom.
  pose proof Hv as (Hw & Hh & Hlen & _).
  assert (length (Image.pixels (rows_reversed img))
          = length (Image.pixels img)) as Hl.
  { pose proof (rows_reversed_valid img Hv) as (_ & _ & Hl' & _).
    cbn [rows_reversed Image.width Image.height] in Hl'. lia. }
  unfold Copy2.save. rewrite Hopen. cbn [fst snd].
  destruct (tested_stream (space fs) _ _ path
              (Copy2_save_stream_inv fl (space fs) img Hv))
    as (_ & Hfits & _).
  destruct Hfits as [Hc Hok];
    [rewrite length_app, Header_bytes_length, Hl; lia|].
  split; [done|]. rewrite Hc.
  assert (TGA.load
            {| files := <[path := TGA.Header_bytes (TGA.save_header img)
                                  ++ Image.pixels (rows_reversed img)]>
                          (files fs);
               unwritable := unwritable fs; space := space fs |} path
          = Ok (rows_reversed img)) as Hload.
  { rewrite (load_saved _ path img (Image.pixels (rows_reversed img))
               (TGA.save_header img)).
    - by rewrite oriented_clear.
    - done.
    - done.
    - done.
    - by left.
    - rewrite Hl. done.
    - cbn [files]. by rewrite lookup_insert_eq. }
  split; [|done]. apply tool_outcome_Ok. rewrite <- Hload.
  apply Copy2_load_eq.
  intros bytes. cbn [files]. rewrite lookup_insert_eq. intros Hb.
  replace bytes with (TGA.Header_bytes (TGA.save_header img)
                      ++ Image.pixels (rows_reversed img)) by congruence.
  rewrite take_app_length' by (by rewrite Header_bytes_length).
  rewrite Header_roundtrip by (by apply valid_save_header). done.
Qed.

(** X18: Saving a valid buffer of at most [INT_MAX] pixels with the second
    copy, on a device with room for the file, and loading it, with the
    copy's [load] or the tool's, gives the buffer with its scanlines in
    reverse order: the copy writes the rows last to first under descriptor 0,
    which [load] does not flip.  Seen through the copy's own [px], pixel
    (x, y) of the loaded buffer is pixel (x, height - 1 - y) of the saved
    one, and a second round trip restores the buffer. *)
Theorem Copy2_save_load_reverses_rows
    (fl : flush_policy) (fs : FileSystem) (img : Image) (path : string) :
  valid_image img -> fits_int img ->
  (unwritable fs path = false ->
   (18 + length (Image.pixels img) <= space fs)%nat ->
   (Copy2.save fl fs img path).2 = Ok tt /\
   Copy2.load (Copy2.save fl fs img path).1 path = Ok (rows_reversed img) /\
   TGA.load (Copy2.save fl fs img path).1 path = Ok (rows_reversed img)) /\
  (forall x y c : Z,
     0 <= x < Image.width img -> 0 <= y < Image.height img -> 0 <= c < 3 ->
     exists o o',
       Copy2.px (rows_reversed img) x y = Some o /\
       Copy2.px img x (Image.height img - 1 - y) = Some o' /\
       at_ (Image.pixels (rows_reversed img)) (o + c)
       = at_ (Image.pixels img) (o' + c)) /\
  rows_reversed (rows_reversed img) = img.
Proof.
  intros Hv Hfit.
  pose proof Hv as (Hw & Hh & Hlen & _).
  split; [|split].
  - intros Hopen Hroom. by apply Copy2_save_load.
  - intros x y c Hx Hy Hc.
    rewrite (Copy2_px_defined (rows_reversed img))
      by (try done; by apply rows_reversed_valid).
    rewrite (Copy2_px_defined img) by (try done; lia).
    eexists _, _. split; [done|]. split; [done|].
    unfold is_u16, Image.PIXEL_SIZE in *.
    set (n := Z.to_nat (Image.width img * 3)).
    set (k := Z.to_nat (Image.height img)).
    assert (length (Image.pixels img) = (k * n)%nat) as Hl'
      by (subst n k; nia).
    unfold rows_reversed, Image.PIXEL_SIZE.
    cbn [Image.width Image.height Image.pixels]. fold n k.
    unfold at_. f_equal.
    replace (Z.to_nat (((Image.height img - 1 - y) * Image.width img + x) * 3 + c))
      with (Z.to_nat (Image.height img - 1 - y) * n + Z.to_nat (x * 3 + c))%nat
      by (subst n; nia).
    rewrite reverse_units_lookup by (subst n k; lia).
    f_equal. subst n k. nia.
  - by apply rows_reversed_involutive.
Qed.

Lemma Copy2_save_load_reverses_rows_witness :
  Copy2.load (Copy2.save buffered (mkFS ∅ (fun _ => false) 64)
                         (Image.mk 1 2 [1; 2; 3; 4; 5; 6]) "t.tga").1 "t.tga"
  = Ok (rows_reversed (Image.mk 1 2 [1; 2; 3; 4; 5; 6])).
Proof.
  assert (valid_image (Image.mk 1 2 [1; 2; 3; 4; 5; 6])) as Hv.
  { unfold valid_image, is_u16; cbn; repeat split; try lia.
    repeat constructor; unfold is_byte; lia. }
  exact (proj1 (proj2 (proj1 (Copy2_save_load_reverses_rows buffered
           (mkFS ∅ (fun _ => false) 64) (Image.mk 1 2 [1; 2; 3; 4; 5; 6])
           "t.tga" Hv ltac:(unfold fits_int, INT_MAX; cbn; lia))
           eq_refl ltac:(cbn; lia)))).
Defined.

Lemma Copy2_apply_loop_lookup m (n : nat) :
  forall (b t : list Z) (i : nat),
    (i < 3 * n)%nat ->
    Copy2.apply_loop n m b t !! i
    = Some (Copy2.blendChannel m (at_ b (Z.of_nat i)) (at_ t (Z.of_nat i))).
Proof.
  induction n as [|n IH]; intros b t i Hi; [lia|].
  cbn [Copy2.apply_loop].
  destruct (decide (i < 3)%nat) as [Hlt|Hge].
  - rewrite lookup_app_l by done.
    unfold Copy2.blendPixel. rewrite list_lookup_fmap, lookup_seqZ_lt by lia.
    simpl. by rewrite Z.add_0_l.
  - rewrite lookup_app_r
      by (change (length (Copy2.blendPixel m b t)) with 3%nat; lia).
    change (length (Copy2.blendPixel m b t)) with 3%nat.
    rewrite IH by lia. rewrite !at_drop. do 3 f_equal; lia.
Qed.

Lemma Copy2_apply_loop_length m (n : nat) :
  forall b t, length (Copy2.apply_loop n m b t) = (3 * n)%nat.
Proof.
  induction n as [|n IH]; intros b t; [done|].
  cbn [Copy2.apply_loop]. rewrite length_app, IH.
  change (length (Copy2.blendPixel m b t)) with 3%nat. lia.
Qed.

Lemma Copy2_blendChannel_spec m a b :
  is_byte a -> is_byte b ->
  Copy2.blendChannel m a b
  = match m with
    | Blend.ADD => Z.min 255 (a + b)
    | Blend.SUBTRACT => Z.max 0 (a - b)
    | Blend.MULTIPLY => a * b / 255
    | Blend.SCREEN => 255 - (255 - a) * (255 - b) / 255
    | Blend.OVERLAY =>
        if a <? 128 then 2 * a * b / 255
        else 255 - 2 * (255 - a) * (255 - b) / 255
    end /\
  is_byte (Copy2.blendChannel m a b).
Proof.
  unfold is_byte. intros Ha Hb.
  assert (forall v, 0 <= v < 256 -> to_uint8 v = v) as Hu
    by (intros; by apply to_uint8_byte).
  assert (forall p, 0 <= p <= 65025 -> 0 <= p / 255 <= 255) as Hq.
  { intros p Hp. split; [apply Z.div_pos; lia|].
    apply Z.div_le_upper_bound; lia. }
  destruct m; cbn [Copy2.blendChannel].
  - destruct (255 <? a + b) eqn:E;
      [apply Z.ltb_lt in E|apply Z.ltb_ge in E]; rewrite Hu by lia; lia.
  - destruct (b <? a) eqn:E;
      [apply Z.ltb_lt in E|apply Z.ltb_ge in E]; rewrite Hu by lia; lia.
  - rewrite idiv_nonneg by nia.
    pose proof (Hq (a * b) ltac:(nia)). rewrite Hu by lia. lia.
  - rewrite idiv_nonneg by nia.
    pose proof (Hq ((255 - a) * (255 - b)) ltac:(nia)). rewrite Hu by lia. lia.
  - destruct (a <? 128) eqn:E;
      [apply Z.ltb_lt in E|apply Z.ltb_ge in E].
    + rewrite idiv_nonneg by nia.
      pose proof (Hq (2 * a * b) ltac:(nia)). rewrite Hu by lia. lia.
    + rewrite idiv_nonneg by nia.
      pose proof (Hq (2 * (255 - a) * (255 - b)) ltac:(nia)).
      rewrite Hu by lia. lia.
Qed.

Lemma Copy2_apply_lookup bot top m :
  valid_image bot -> valid_image top -> fits_int bot ->
  Image.width bot = Image.width top -> Image.height bot = Image.height top ->
  exists out,
    Copy2.apply bot top m = Ok out /\
    Image.width out = Image.width bot /\
    Image.height out = Image.height bot /\
    length (Image.pixels out) = length (Image.pixels bot) /\
    forall (i : nat) B O,
      Image.pixels bot !! i = Some B -> Image.pixels top !! i = Some O ->
      is_byte B /\ is_byte O /\
      Image.pixels out !! i = Some (Copy2.blendChannel m B O).
Proof.
  intros Hvb Hvt Hfit Hw Hh.
  destruct (valid_image_size bot Hvb) as [Hpos Hlen].
  unfold Copy2.apply. rewrite <- Hw, <- Hh, !Z.eqb_refl. cbn [negb orb].
  cbv zeta.
  rewrite in_int_true
    by (pose proof (valid_fits_nonneg bot Hvb Hfit); unfold INT_MIN; lia).
  cbn [negb].
  eexists. split; [reflexivity|]. cbn [Image.width Image.height Image.pixels].
  split; [done|]. split; [done|].
  split; [by rewrite Copy2_apply_loop_length, Hlen|].
  intros i B O HB HO.
  pose proof Hvb as (_ & _ & _ & Hbb). pose proof Hvt as (_ & _ & _ & Hbt).
  split; [by eapply Forall_lookup in Hbb; eauto|].
  split; [by eapply Forall_lookup in Hbt; eauto|].
  rewrite Copy2_apply_loop_lookup by (apply lookup_lt_Some in HB; lia).
  by rewrite (at_lookup _ _ _ HB), (at_lookup _ _ _ HO).
Qed.

(** X19: The truncating blend of the second copy against the rounding blend of
    the tool, on valid buffers of equal size and at most [INT_MAX] pixels:
    ADD and SUBTRACT give the same
    buffer; every byte of MULTIPLY is the copy's byte plus one exactly when
    the remainder of the product by 255 is at least 128, every byte of SCREEN
    the copy's byte minus one in the same case; in all five modes the two
    bytes differ by at most one, and the copy's output is a valid buffer. *)
Theorem Copy2_blend_within_one_of_tool
    (L : Blend.Luts) (bot top : Image) (m : Blend.Mode) :
  lut_inv L -> valid_image bot -> valid_image top -> fits_int bot ->
  Image.width bot = Image.width top -> Image.height bot = Image.height top ->
  exists out out2,
    (Blend.apply L bot top m).2 = Ok out /\
    Copy2.apply bot top m = Ok out2 /\
    valid_image out2 /\
    Image.width out2 = Image.width out /\
    Image.height out2 = Image.height out /\
    length (Image.pixels out2) = length (Image.pixels out) /\
    (m = Blend.ADD \/ m = Blend.SUBTRACT -> out2 = out) /\
    forall (i : nat) (B O x y : Z),
      Image.pixels bot !! i = Some B -> Image.pixels top !! i = Some O ->
      Image.pixels out !! i = Some x -> Image.pixels out2 !! i = Some y ->
      y - 1 <= x <= y + 1 /\
      (m = Blend.MULTIPLY ->
       x = y + (if 128 <=? (B * O) `mod` 255 then 1 else 0)) /\
      (m = Blend.SCREEN ->
       x = y - (if 128 <=? ((255 - B) * (255 - O)) `mod` 255 then 1 else 0)).
Proof.
  intros HL Hvb Hvt Hfit Hw Hh.
  destruct (apply_returns_valid L bot top m HL Hvb Hvt Hfit Hw Hh)
    as (L' & out & E1 & Hvo & Hwo & Hho & Hko).
  destruct (Copy2_apply_lookup bot top m Hvb Hvt Hfit Hw Hh)
    as (out2 & E2 & Hw2 & Hh2 & Hl2 & Hk2).
  destruct (valid_image_size bot Hvb) as [Hpos Hlen].
  destruct (valid_image_size out Hvo) as [_ Hleno]. rewrite Hwo, Hho in Hleno.
  assert (forall (i : nat) B O,
            Image.pixels bot !! i = Some B -> Image.pixels top !! i = Some O ->
            is_byte B /\ is_byte O /\
            Image.pixels out !! i
            = Some (Blend.blendChannel (Blend.init_luts L) m B O)) as Hk1.
  { intros i B O HB HO. destruct (Hk2 i B O HB HO) as (HbB & HbO & _).
    split; [done|]. split; [done|].
    rewrite Hko by (apply lookup_lt_Some in HB; lia).
    by rewrite (at_lookup _ _ _ HB), (at_lookup _ _ _ HO). }
  assert (forall i : nat, (i < length (Image.pixels bot))%nat ->
            exists B O, Image.pixels bot !! i = Some B /\
                        Image.pixels top !! i = Some O) as Hex.
  { intros i Hi. destruct (valid_image_size top Hvt) as [_ Hlent].
    rewrite <- Hw, <- Hh in Hlent.
    destruct (lookup_lt_is_Some_2 (Image.pixels bot) i Hi) as [B HB].
    destruct (lookup_lt_is_Some_2 (Image.pixels top) i ltac:(lia)) as [O HO].
    eauto. }
  exists out, out2. rewrite E1. split; [done|]. split; [done|].
  split.
  { pose proof Hvb as (Hwb & Hhb & Hlb & _).
    unfold valid_image. rewrite Hw2, Hh2, Hl2. do 3 (split; [done|]).
    apply Forall_lookup. intros i y Hy.
    destruct (Hex i) as (B & O & HB & HO).
    { apply lookup_lt_Some in Hy. lia. }
    destruct (Hk2 i B O HB HO) as (HbB & HbO & Hy').
    rewrite Hy' in Hy. injection Hy as <-.
    by apply Copy2_blendChannel_spec. }
  split; [congruence|]. split; [congruence|]. split; [lia|]. split.
  - intros Hm. apply image_eq; [congruence|congruence|].
    apply list_eq_same_length with (length (Image.pixels bot)); [lia|lia|].
    intros i y x Hi Hy Hx. destruct (Hex i Hi) as (B & O & HB & HO).
    destruct (Hk1 i B O HB HO) as (HbB & HbO & Hx').
    destruct (Hk2 i B O HB HO) as (_ & _ & Hy').
    rewrite Hx' in Hx. rewrite Hy' in Hy. injection Hx as <-. injection Hy as <-.
    by destruct Hm as [-> | ->].
  - intros i B O x y HB HO Hx Hy.
    destruct (Hk1 i B O HB HO) as (HbB & HbO & Hx').
    destruct (Hk2 i B O HB HO) as (_ & _ & Hy').
    rewrite Hx' in Hx. rewrite Hy' in Hy. injection Hx as <-. injection Hy as <-.
    destruct (Copy2_blendChannel_spec m B O HbB HbO) as [-> _].
    unfold is_byte in *.
    destruct m.
    + split; [cbn [Blend.blendChannel]|done].
      destruct (255 <? B + O) eqn:E;
        [apply Z.ltb_lt in E|apply Z.ltb_ge in E];
        rewrite to_uint8_byte by (unfold is_byte; lia); lia.
    + rewrite blendChannel_subtract by done. split; [lia|done].
    + rewrite blendChannel_multiply by done.
      rewrite round255_trunc by nia.
      destruct (128 <=? (B * O) `mod` 255); split; try lia; split; done.
    + rewrite blendChannel_screen by done.
      rewrite round255_trunc by nia.
      destruct (128 <=? ((255 - B) * (255 - O)) `mod` 255);
        split; try lia; split; try done; intros _; lia.
    + rewrite blendChannel_overlay by done.
      destruct (B <? 128) eqn:E;
        [apply Z.ltb_lt in E|apply Z.ltb_ge in E].
      * rewrite round255_trunc by nia.
        destruct (128 <=? (2 * B * O) `mod` 255); split; try lia; done.
      * rewrite round255_trunc by nia.
        destruct (128 <=? (2 * (255 - B) * (255 - O)) `mod` 255);
          split; try lia; done.
Qed.

Lemma Copy2_blend_within_one_witness :
  exists out out2,
    (Blend.apply Blend.luts_static (Image.mk 1 1 [1; 150; 200])
                 (Image.mk 1 1 [128; 128; 128]) Blend.MULTIPLY).2 = Ok out /\
    Copy2.apply (Image.mk 1 1 [1; 150; 200]) (Image.mk 1 1 [128; 128; 128])
                Blend.MULTIPLY = Ok out2 /\
    length (Image.pixels out2) = length (Image.pixels out).
Proof.
  assert (valid_image (Image.mk 1 1 [1; 150; 200])) as Hv1.
  { unfold valid_image, is_u16; cbn; repeat split; try lia.
    repeat constructor; unfold is_byte; lia. }
  assert (valid_image (Image.mk 1 1 [128; 128; 128])) as Hv2.
  { unfold valid_image, is_u16; cbn; repeat split; try lia.
    repeat constructor; unfold is_byte; lia. }
  destruct (Copy2_blend_within_one_of_tool Blend.luts_static
              (Image.mk 1 1 [1; 150; 200]) (Image.mk 1 1 [128; 128; 128])
              Blend.MULTIPLY lut_inv_static Hv1 Hv2
              ltac:(unfold fits_int, INT_MAX; cbn; lia) eq_refl eq_refl)
    as (out & out2 & E1 & E2 & _ & _ & _ & Hl & _).
  exists out, out2. split; [exact E1|]. split; [exact E2|exact Hl].
Defined.

(** ** The codec of the third copy *)

Lemma Copy3_load_eq stack fs path :
  (forall bytes, files fs !! path = Some bytes ->
     (18 <= length bytes)%nat /\
     0 <= TGA.idLength (TGA.Header_of_bytes (take 18 bytes))) ->
  tool_outcome (Copy3.load stack fs path) = tool_outcome (Copy2.load fs path).
Proof.
  intros H. unfold Copy3.load, Copy2.load.
  destruct (files fs !! path) as [bytes|] eqn:E; [|done].
  destruct (H bytes eq_refl) as [Hlen Hid].
  rewrite <- read_header in Hid.
  assert (read_into {| rest := bytes; in_fail := false |} (resize stack 18)
          = read {| rest := bytes; in_fail := false |} TGA.sizeof_Header) as ->.
  { unfold read_into, read. rewrite resize_length. cbn [in_fail rest].
    change (Z.to_nat TGA.sizeof_Header) with 18%nat.
    by destruct (Nat.leb_spec 18 (length bytes)); [|lia]. }
  destruct (read _ TGA.sizeof_Header) as [hb f]. cbn [fst] in Hid. cbv zeta.
  replace (0 <? TGA.idLength (TGA.Header_of_bytes hb))
    with (negb (TGA.idLength (TGA.Header_of_bytes hb) =? 0)).
  - destruct (negb (TGA.dataTypeCode (TGA.Header_of_bytes hb) =? 2)); [done|].
    destruct (negb (TGA.bitsPerPixel (TGA.Header_of_bytes hb) =? 24));
      [done|].
    destruct (negb (in_int _)); [done|].
    destruct (read _ _) as [pb f']. by destruct (in_fail f').
  - destruct (Z.eqb_spec (TGA.idLength (TGA.Header_of_bytes hb)) 0) as [->|];
      [done|]. symmetry. apply Z.ltb_lt. lia.
Qed.

Lemma Header_of_bytes_idLength bs :
  Forall is_byte bs -> 0 <= TGA.idLength (TGA.Header_of_bytes bs).
Proof. intros H. cbn. by apply at_nonneg. Qed.

(** X20: The header that the third copy of [load] reads into is not
    initialised.  For a file of at least 18 bytes this does not show: the
    result is that of the second copy's [load] up to the wording of the
    messages, whatever the header held.  For a shorter file the checks run
    on what the header held before for the bytes the file does not reach;
    the call then throws one of the copy's three errors or, when the two
    extents have a product beyond [int], has no defined result: no image
    is returned. *)
Theorem Copy3_load_uninitialised_header
    (stack : list Z) (fs : FileSystem) (path : string) (bytes : list Z) :
  files fs !! path = Some bytes -> Forall is_byte bytes ->
  ((18 <= length bytes)%nat ->
   tool_outcome (Copy3.load stack fs path)
   = tool_outcome (Copy2.load fs path)) /\
  ((length bytes < 18)%nat ->
   let hdr := TGA.Header_of_bytes (bytes ++ drop (length bytes)
                                                  (resize stack 18)) in
   Copy3.load stack fs path
   = if negb (TGA.dataTypeCode hdr =? 2)
     then Throw (NeedUncompressed3 path (TGA.dataTypeCode hdr))
     else if negb (TGA.bitsPerPixel hdr =? 24)
     then Throw (Need24Bit3 path (TGA.bitsPerPixel hdr))
     else if negb (in_int (TGA.width hdr * TGA.height hdr))
     then Undefined
     else Throw (TruncatedFile3 path)) /\
  ((length bytes < 18)%nat ->
   forall img, Copy3.load stack fs path <> Ok img).
Proof.
  intros Hf Hb.
  assert ((length bytes < 18)%nat ->
          let hdr := TGA.Header_of_bytes (bytes ++ drop (length bytes)
                                                         (resize stack 18)) in
          Copy3.load stack fs path
          = if negb (TGA.dataTypeCode hdr =? 2)
            then Throw (NeedUncompressed3 path (TGA.dataTypeCode hdr))
            else if negb (TGA.bitsPerPixel hdr =? 24)
            then Throw (Need24Bit3 path (TGA.bitsPerPixel hdr))
            else if negb (in_int (TGA.width hdr * TGA.height hdr))
            then Undefined
            else Throw (TruncatedFile3 path)) as Hshort.
  { intros Hlen hdr. unfold Copy3.load. rewrite Hf.
    unfold read_into. rewrite resize_length. cbn [in_fail rest].
    destruct (Nat.leb_spec 18 (length bytes)); [lia|]. cbv zeta. fold hdr.
    destruct (negb (TGA.dataTypeCode hdr =? 2)); [done|].
    destruct (negb (TGA.bitsPerPixel hdr =? 24)); [done|].
    destruct (negb (in_int _)); [done|].
    destruct (0 <? TGA.idLength hdr); by unfold seekg_cur, read. }
  split; [|split; [done|]].
  - intros Hlen. apply Copy3_load_eq. intros bytes' Hf'.
    assert (bytes' = bytes) as -> by congruence. split; [done|].
    apply Header_of_bytes_idLength. by apply Forall_take.
  - intros Hlen img. rewrite (Hshort Hlen).
    repeat (match goal with |- context [if ?c then _ else _] => destruct c end;
            try done).
Qed.

Lemma Copy3_load_uninitialised_header_witness :
  Copy3.load [0; 0; 2; 0; 0; 0; 0; 0; 0; 0; 0; 0; 0; 0; 0; 0; 24; 0]
             (mkFS {[ "s.tga" := [0; 0; 2] ]} (fun _ => false) 0) "s.tga"
  = Throw (TruncatedFile3 "s.tga").
Proof.
  assert (Forall is_byte [0; 0; 2]) as Hb
    by (repeat constructor; unfold is_byte; lia).
  exact (proj1 (proj2 (Copy3_load_uninitialised_header
           [0; 0; 2; 0; 0; 0; 0; 0; 0; 0; 0; 0; 0; 0; 0; 0; 24; 0]
           (mkFS {[ "s.tga" := [0; 0; 2] ]} (fun _ => false) 0) "s.tga"
           [0; 0; 2] eq_refl Hb)) ltac:(cbn; lia)).
Defined.

Lemma loads_saved stack fs path img (payload : list Z) hdr :
  is_u16 (Image.width img) -> is_u16 (Image.height img) -> fits_int img ->
  hdr = TGA.save_header img \/ hdr = Copy3.save_header img ->
  Z.of_nat (length payload)
    = Image.width img * Image.height img * Image.PIXEL_SIZE ->
  files fs !! path = Some (TGA.Header_bytes hdr ++ payload) ->
  Copy3.load stack fs path
  = Ok {| Image.width := Image.width img;
          Image.height := Image.height img;
          Image.pixels := oriented hdr payload |}.
Proof.
  intros Hw Hh Hfit Hhdr Hlen Hf.
  assert (valid_header hdr) as Hv.
  { destruct Hhdr as [->| ->]; [by apply valid_save_header|].
    unfold valid_header, Copy3.save_header, is_byte, is_u16 in *.
    cbn. repeat split; lia. }
  apply tool_outcome_Ok.
  rewrite <- (load_saved fs path img payload hdr) by done.
  rewrite <- (Copy2_load_eq fs path).
  - apply Copy3_load_eq. intros bytes Hb.
    replace bytes with (TGA.Header_bytes hdr ++ payload) by congruence.
    split; [rewrite length_app, Header_bytes_length; lia|].
    rewrite take_app_length' by (by rewrite Header_bytes_length).
    rewrite Header_roundtrip by done. by destruct Hhdr as [->| ->].
  - intros bytes Hb.
    replace bytes with (TGA.Header_bytes hdr ++ payload) by congruence.
    rewrite take_app_length' by (by rewrite Header_bytes_length).
    rewrite Header_roundtrip by done. by destruct Hhdr as [->| ->].
Qed.

Lemma Copy3_save_spec fl fs img path :
  unwritable fs path = false ->
  (18 + length (Image.pixels img) <= space fs)%nat ->
  files (Copy3.save fl fs img path).1 !! path
  = Some (TGA.Header_bytes (Copy3.save_header img) ++ Image.pixels img) /\
  (Copy3.save fl fs img path).2 = Ok tt.
Proof.
  intros Hopen Hroom. unfold Copy3.save. rewrite Hopen. cbn [fst snd files].
  rewrite lookup_insert_eq.
  destruct (tested_stream (space fs)
              (write fl (space fs)
                 (write fl (space fs) ofstream_open
                    (TGA.Header_bytes (Copy3.save_header img)))
                 (Image.pixels img))
              (TGA.Header_bytes (Copy3.save_header img) ++ Image.pixels img)
              path) as (_ & Hfits & _).
  { apply write_inv.
    apply (write_inv fl (space fs) ofstream_open _ []), stream_inv_open. }
  destruct Hfits as [-> ->]; [|done].
  rewrite length_app, Header_bytes_length. lia.
Qed.

(** X21: The third copy of [save] writes the byte vector as it is under
    descriptor 0x20, and every [load] flips such a file: a valid buffer of
    at most [INT_MAX] pixels saved by the third copy, on a device with room
    for the file, comes back, from the third copy's [load] and from the
    tool's, with its scanlines in reverse order.  A file saved by the tool
    is loaded by the third copy as the buffer itself. *)
Theorem Copy3_save_load_reverses_rows
    (fl : flush_policy) (stack : list Z) (fs : FileSystem) (img : Image)
    (path : string) :
  valid_image img -> fits_int img ->
  unwritable fs path = false ->
  (18 + length (Image.pixels img) <= space fs)%nat ->
  (Copy3.save fl fs img path).2 = Ok tt /\
  Copy3.load stack (Copy3.save fl fs img path).1 path
  = Ok (rows_reversed img) /\
  TGA.load (Copy3.save fl fs img path).1 path = Ok (rows_reversed img) /\
  Copy3.load stack (TGA.save fl fs img path).1 path = Ok img.
Proof.
  intros Hv Hfit Hopen Hroom. pose proof Hv as (Hw & Hh & Hlen & _).
  destruct (Copy3_save_spec fl fs img path Hopen Hroom) as [Hfile Hok].
  split; [done|].
  assert (oriented (Copy3.save_header img) (Image.pixels img)
          = Image.pixels (rows_reversed img)) as Ho.
  { rewrite oriented_set; [done|done|..]; cbn; unfold is_u16 in *; lia. }
  split; [|split].
  - rewrite (loads_saved stack _ path img (Image.pixels img)
               (Copy3.save_header img)); [|done|done|done|by right|done|done].
    by rewrite Ho.
  - rewrite (load_saved _ path img (Image.pixels img)
               (Copy3.save_header img)); [|done|done|done|by right|done|done].
    by rewrite Ho.
  - destruct (save_spec fl fs img path Hv Hopen) as (Hfile' & _ & _).
    rewrite take_ge in Hfile'
      by (rewrite length_app, Header_bytes_length; lia).
    rewrite (loads_saved stack _ path img (Image.pixels img)
               (TGA.save_header img)); [|done|done|done|by left|done|done].
    rewrite oriented_clear by done. by destruct img.
Qed.

Lemma Copy3_save_load_reverses_rows_witness :
  Copy3.load [] (Copy3.save buffered (mkFS ∅ (fun _ => false) 64)
                            (Image.mk 1 2 [1; 2; 3; 4; 5; 6]) "t.tga").1 "t.tga"
  = Ok (rows_reversed (Image.mk 1 2 [1; 2; 3; 4; 5; 6])).
Proof.
  assert (valid_image (Image.mk 1 2 [1; 2; 3; 4; 5; 6])) as Hv.
  { unfold valid_image, is_u16; cbn; repeat split; try lia.
    repeat constructor; unfold is_byte; lia. }
  exact (proj1 (proj2 (Copy3_save_load_reverses_rows buffered []
           (mkFS ∅ (fun _ => false) 64) (Image.mk 1 2 [1; 2; 3; 4; 5; 6])
           "t.tga" Hv ltac:(unfold fits_int, INT_MAX; cbn; lia)
           eq_refl ltac:(cbn; lia)))).
Defined.

(** ** The batch program *)

Lemma pixels_of_bytes_of ps : Project2.pixels_of (Project2.bytes_of ps) = ps.
Proof.
  induction ps as [|[x0 x1 x2] ps IH]; [done|].
  unfold Project2.bytes_of in *. cbn [fmap list_fmap concat app].
  cbn. f_equal. exact IH.
Qed.

Lemma bytes_of_cons p ps :
  Project2.bytes_of (p :: ps)
  = Project2.b p :: Project2.g p :: Project2.r p :: Project2.bytes_of ps.
Proof. done. Qed.

Lemma bytes_of_length ps :
  length (Project2.bytes_of ps) = (length ps * 3)%nat.
Proof.
  induction ps as [|p ps IH]; [done|]. rewrite bytes_of_cons. cbn. lia.
Qed.

Lemma bytes_of_lookup ps (p c : nat) :
  (c < 3)%nat ->
  Project2.bytes_of ps !! (p * 3 + c)%nat = slot c <$> ps !! p.
Proof.
  intros Hc. revert p. induction ps as [|q ps IH]; intros p.
  - by rewrite !lookup_nil.
  - rewrite bytes_of_cons. destruct p as [|p].
    + destruct c as [|[|[|c]]]; [done|done|done|lia].
    + replace (S p * 3 + c)%nat with (S (S (S (p * 3 + c)))) by lia.
      cbn [lookup list_lookup]. apply IH.
Qed.

Lemma bytes_of_pixels_of (k : nat) :
  forall bs, length bs = (k * 3)%nat ->
    Project2.bytes_of (Project2.pixels_of bs) = bs /\
    length (Project2.pixels_of bs) = k.
Proof.
  induction k as [|k IH]; intros bs Hl.
  - by destruct bs.
  - destruct bs as [|x0 [|x1 [|x2 bs]]]; try (cbn in Hl; lia).
    cbn [Project2.pixels_of]. rewrite bytes_of_cons. cbn.
    destruct (IH bs) as [-> ->]; [cbn in Hl; lia|done].
Qed.

Lemma bytes_of_inj ps qs :
  Project2.bytes_of ps = Project2.bytes_of qs -> ps = qs.
Proof.
  intros H. by rewrite <- (pixels_of_bytes_of ps), H, pixels_of_bytes_of.
Qed.

Lemma buffer_of_size im :
  valid_image (buffer_of im) ->
  length (Project2.px im)
  = Z.to_nat (Image.width (buffer_of im) * Image.height (buffer_of im)).
Proof.
  intros (_ & _ & Hl & _). cbn [buffer_of Image.pixels] in Hl.
  rewrite bytes_of_length in Hl. unfold Image.PIXEL_SIZE in Hl. lia.
Qed.

Lemma slot_byte im (p c : nat) q :
  valid_image (buffer_of im) -> (c < 3)%nat ->
  Project2.px im !! p = Some q -> is_byte (slot c q).
Proof.
  intros (_ & _ & _ & Hb) Hc Hq. cbn [buffer_of Image.pixels] in Hb.
  eapply Forall_lookup in Hb; [exact Hb|].
  by rewrite (bytes_of_lookup _ p c), Hq.
Qed.

Lemma imap_lookup_total {A B : Type} `{Inhabited A} (f : A -> A -> B)
    (l1 l2 : list A) (i : nat) x y :
  l1 !! i = Some x -> l2 !! i = Some y ->
  imap (fun i a => f a (l2 !!! i)) l1 !! i = Some (f x y).
Proof.
  intros H1 H2. rewrite list_lookup_imap, H1. cbn.
  by rewrite (list_lookup_total_correct _ _ _ H2).
Qed.

Lemma c255_byte v : is_byte v -> Project2.c255 v = v.
Proof.
  unfold is_byte. intros Hv. unfold Project2.c255, Project2.CLAMP.
  destruct (v <? 0) eqn:E1; [apply Z.ltb_lt in E1; lia|].
  destruct (255 <? v) eqn:E2; [apply Z.ltb_lt in E2; lia|].
  by apply to_uint8_byte.
Qed.

Lemma c255_clampByte v : Project2.c255 v = ColorMath.clampByte v.
Proof. done. Qed.

Lemma blend_channels a b :
  is_byte a -> is_byte b ->
  Project2.c255 (idiv (a * b) 255) = Copy2.blendChannel Blend.MULTIPLY b a /\
  Project2.c255 (b - a) = Copy2.blendChannel Blend.SUBTRACT b a /\
  Project2.c255 (Project2.S a b) = Copy2.blendChannel Blend.SCREEN b a /\
  Project2.c255 (Project2.O a b) = Copy2.blendChannel Blend.OVERLAY b a.
Proof.
  intros Ha Hb.
  pose proof (Copy2_blendChannel_spec Blend.MULTIPLY b a Hb Ha) as [E1 B1].
  pose proof (Copy2_blendChannel_spec Blend.SUBTRACT b a Hb Ha) as [E2 B2].
  pose proof (Copy2_blendChannel_spec Blend.SCREEN b a Hb Ha) as [E3 B3].
  pose proof (Copy2_blendChannel_spec Blend.OVERLAY b a Hb Ha) as [E4 B4].
  rewrite E1 in B1. rewrite E2 in B2. rewrite E3 in B3. rewrite E4 in B4.
  rewrite E1, E2, E3, E4. unfold is_byte in Ha, Hb.
  split; [|split; [|split]].
  - rewrite idiv_nonneg by nia. rewrite (Z.mul_comm a b). by apply c255_byte.
  - unfold Project2.c255, Project2.CLAMP.
    destruct (b - a <? 0) eqn:E; [apply Z.ltb_lt in E|apply Z.ltb_ge in E].
    + rewrite to_uint8_byte by (unfold is_byte; lia). lia.
    + destruct (255 <? b - a) eqn:E'; [apply Z.ltb_lt in E'; lia|].
      rewrite to_uint8_byte by (unfold is_byte; lia). lia.
  - unfold Project2.S. rewrite idiv_nonneg by nia.
    rewrite (Z.mul_comm (255 - a)). by apply c255_byte.
  - unfold Project2.O. destruct (b <? 128).
    + rewrite idiv_nonneg by nia.
      replace (2 * a * b) with (2 * b * a) by lia. by apply c255_byte.
    + rewrite idiv_nonneg by nia.
      replace (2 * (255 - a) * (255 - b)) with (2 * (255 - b) * (255 - a))
        by lia.
      by apply c255_byte.
Qed.

Lemma blend_px_slot m (c : nat) A B :
  (forall c', (c' < 3)%nat -> is_byte (slot c' A) /\ is_byte (slot c' B)) ->
  (c < 3)%nat ->
  slot c (Project2.blend_px m A B)
  = Copy2.blendChannel (mode_of m) (slot c B) (slot c A).
Proof.
  intros Hb Hc. destruct (Hb c Hc) as [HA HB].
  destruct (blend_channels (slot c A) (slot c B) HA HB) as (E1 & E2 & E3 & E4).
  destruct c as [|[|[|c]]]; [| | |lia]; destruct m; done.
Qed.

(** X22: [blend] of [project2.cpp] computes what the second copy's [Blend::apply]
    computes with the bottom image as base and the top image as overlay:
    on images whose byte buffers are valid, of equal size and of at most
    [INT_MAX] pixels, the buffer of the result is the result of [apply] in
    the corresponding mode, and the header of the result is that of the top
    image. *)
Theorem blend_is_Copy2_apply (top bottom : Project2.Img) (m : Project2.Mode) :
  valid_image (buffer_of top) -> valid_image (buffer_of bottom) ->
  fits_int (buffer_of bottom) ->
  TGA.width (Project2.h top) = TGA.width (Project2.h bottom) ->
  TGA.height (Project2.h top) = TGA.height (Project2.h bottom) ->
  exists out,
    Project2.blend top bottom m = Project2.Return out /\
    Project2.h out = Project2.h top /\
    length (Project2.px out) = length (Project2.px top) /\
    Copy2.apply (buffer_of bottom) (buffer_of top) (mode_of m)
    = Ok (buffer_of out).
Proof.
  intros Hvt Hvb Hfit Hw Hh.
  unfold Project2.blend. rewrite Hw, Hh, !Z.eqb_refl. cbn [negb orb].
  eexists. split; [reflexivity|]. cbn [Project2.h Project2.px].
  split; [done|]. split; [by rewrite length_imap|].
  destruct (Copy2_apply_lookup (buffer_of bottom) (buffer_of top) (mode_of m))
    as (out2 & -> & Hw2 & Hh2 & Hl2 & Hk2); [done|done|done|by cbn|by cbn|].
  f_equal. pose proof (buffer_of_size top Hvt) as Hkt.
  pose proof (buffer_of_size bottom Hvb) as Hkb.
  cbn [buffer_of Image.width Image.height Image.pixels] in *.
  rewrite bytes_of_length in Hl2.
  assert (length (Project2.px bottom) = length (Project2.px top)) as Hlen
    by (rewrite Hkt, Hkb, Hw, Hh; done).
  apply image_eq;
    cbn [buffer_of Image.width Image.height Image.pixels Project2.h Project2.px];
    [congruence|congruence|].
  apply (pixels_eq_by_slots (length (Project2.px top)));
    [lia|by rewrite bytes_of_length, length_imap|].
  intros p c Hp Hc.
  destruct (lookup_lt_is_Some_2 (Project2.px top) p Hp) as [A HA].
  destruct (lookup_lt_is_Some_2 (Project2.px bottom) p ltac:(lia)) as [B HB].
  destruct (Hk2 (p * 3 + c)%nat (slot c B) (slot c A)) as (_ & _ & ->).
  { by rewrite bytes_of_lookup, HB. }
  { by rewrite bytes_of_lookup, HA. }
  rewrite bytes_of_lookup by done.
  rewrite (imap_lookup_total (Project2.blend_px m) _ _ p A B HA HB). cbn.
  f_equal. symmetry. apply blend_px_slot; [|done].
  intros c' Hc'. split.
  - by apply (slot_byte top p c' A).
  - by apply (slot_byte bottom p c' B).
Qed.

Lemma blend_is_Copy2_apply_witness :
  exists out,
    Project2.blend
      (Project2.mkImg (TGA.mkHeader 0 0 2 0 0 0 0 0 1 1 24 0)
                      [Project2.mkPixel 1 1 1])
      (Project2.mkImg (TGA.mkHeader 0 0 2 0 0 0 0 0 1 1 24 0)
                      [Project2.mkPixel 128 128 128])
      Project2.MULTI = Project2.Return out /\
    Copy2.apply (Image.mk 1 1 [128; 128; 128]) (Image.mk 1 1 [1; 1; 1])
                Blend.MULTIPLY = Ok (buffer_of out).
Proof.
  assert (valid_image (Image.mk 1 1 [1; 1; 1])) as Hv1.
  { unfold valid_image, is_u16; cbn; repeat split; try lia.
    repeat constructor; unfold is_byte; lia. }
  assert (valid_image (Image.mk 1 1 [128; 128; 128])) as Hv2.
  { unfold valid_image, is_u16; cbn; repeat split; try lia.
    repeat constructor; unfold is_byte; lia. }
  destruct (blend_is_Copy2_apply
              (Project2.mkImg (TGA.mkHeader 0 0 2 0 0 0 0 0 1 1 24 0)
                              [Project2.mkPixel 1 1 1])
              (Project2.mkImg (TGA.mkHeader 0 0 2 0 0 0 0 0 1 1 24 0)
                              [Project2.mkPixel 128 128 128])
              Project2.MULTI Hv1 Hv2
              ltac:(unfold fits_int, INT_MAX; cbn; lia) eq_refl eq_refl)
    as (out & E & _ & _ & E2).
  exists out. split; [exact E|exact E2].
Defined.

(** X23: [addChan] of [project2.cpp] is three calls of the tool's
    [addToChannel], one per channel: red is slot 2, green slot 1, blue
    slot 0. *)
Theorem addChan_is_addToChannel (im : Project2.Img) (dr dg db : Z) :
  valid_image (buffer_of im) ->
  buffer_of (Project2.addChan im dr dg db)
  = addToChannel (addToChannel (addToChannel (buffer_of im) 2 dr) 1 dg) 0 db.
Proof.
  intros Hv. pose proof (buffer_of_size im Hv) as Hk.
  change 2 with (Z.of_nat 2). change 1 with (Z.of_nat 1).
  change 0 with (Z.of_nat 0).
  pose proof (addToChannel_valid _ 2 dr Hv ltac:(lia)) as Hv1.
  pose proof (addToChannel_valid _ 1 dg Hv1 ltac:(lia)) as Hv2.
  pose proof (addToChannel_valid _ 0 db Hv2 ltac:(lia)) as Hv3.
  destruct (valid_image_size _ Hv) as [_ Hl0].
  destruct (valid_image_size _ Hv3) as [_ Hl3].
  apply image_eq; [done|done|].
  apply (pixels_eq_by_slots (length (Project2.px im))).
  - cbn [buffer_of Image.pixels Project2.addChan Project2.px].
    by rewrite bytes_of_length, length_fmap.
  - rewrite Hl3, Hk. cbn [addToChannel Image.width Image.height]. lia.
  - intros p c Hp Hc.
    destruct (lookup_lt_is_Some_2 (Project2.px im) p Hp) as [q Hq].
    destruct (addToChannel_lookup _ 0 db p c Hv2 ltac:(lia)) as [_ ->];
      [cbn [addToChannel Image.width Image.height]; lia|done|].
    destruct (addToChannel_lookup _ 1 dg p c Hv1 ltac:(lia)) as [_ E1];
      [cbn [addToChannel Image.width Image.height]; lia|done|].
    destruct (addToChannel_lookup _ 2 dr p c Hv ltac:(lia)) as [_ E2];
      [lia|done|].
    assert (Image.pixels (buffer_of im) !! (p * 3 + c)%nat = Some (slot c q))
      as E0 by (cbn [buffer_of Image.pixels]; by rewrite bytes_of_lookup, Hq).
    cbn [buffer_of Image.pixels Project2.addChan Project2.px].
    rewrite bytes_of_lookup, list_lookup_fmap, Hq by done. cbn [fmap option_fmap option_map].
    destruct c as [|[|[|c]]]; [| | |lia].
    + rewrite decide_True by done. rewrite decide_False in E1 by done.
      rewrite decide_False in E2 by done.
      rewrite E2 in E1. rewrite (at_lookup _ _ _ (eq_trans E1 E0)). done.
    + rewrite decide_False by done. rewrite decide_True in E1 by done.
      rewrite decide_False in E2 by done.
      rewrite E1, (at_lookup _ _ _ (eq_trans E2 E0)). done.
    + rewrite decide_False by done. rewrite decide_False in E1 by done.
      rewrite decide_True in E2 by done.
      rewrite E1, E2, (at_lookup _ _ _ E0). done.
Qed.

Lemma addChan_is_addToChannel_witness :
  buffer_of (Project2.addChan
               (Project2.mkImg (TGA.mkHeader 0 0 2 0 0 0 0 0 1 1 24 0)
                               [Project2.mkPixel 10 100 250]) 0 200 0)
  = addToChannel (addToChannel (addToChannel (Image.mk 1 1 [10; 100; 250]) 2 0)
                               1 200) 0 0.
Proof.
  assert (valid_image (Image.mk 1 1 [10; 100; 250])) as Hv.
  { unfold valid_image, is_u16; cbn; repeat split; try lia.
    repeat constructor; unfold is_byte; lia. }
  exact (addChan_is_addToChannel
           (Project2.mkImg (TGA.mkHeader 0 0 2 0 0 0 0 0 1 1 24 0)
                           [Project2.mkPixel 10 100 250]) 0 200 0 Hv).
Defined.

Lemma pickChannel_lookup src which (i : nat) q :
  Project2.px src !! i = Some q ->
  Project2.px (Project2.pickChannel src which) !! i
  = Some (let v := if Ascii.eqb which "r"%char then Project2.r q
                   else if Ascii.eqb which "g"%char then Project2.g q
                        else Project2.b q in
          Project2.mkPixel v v v).
Proof.
  intros Hq. unfold Project2.pickChannel, Project2.cloneLike.
  cbn [Project2.px]. rewrite list_lookup_imap.
  rewrite lookup_replicate_2 by (by apply lookup_lt_Some in Hq). cbn.
  by rewrite (list_lookup_total_correct _ _ _ Hq).
Qed.

Lemma pickChannel_length src which :
  length (Project2.px (Project2.pickChannel src which))
  = length (Project2.px src).
Proof.
  unfold Project2.pickChannel, Project2.cloneLike. cbn [Project2.px].
  by rewrite length_imap, length_replicate.
Qed.

(** X24: Combining the three channel pictures that [pickChannel] makes of an
    image gives the image back, for every image; each picture has the header
    of the image and, in every pixel, the selected sample three times.  Any
    character other than 'r' and 'g' selects blue. *)
Theorem pickChannel_combineRGB_roundtrip (src : Project2.Img) :
  Project2.combineRGB (Project2.pickChannel src "r")
                      (Project2.pickChannel src "g")
                      (Project2.pickChannel src "b")
  = Project2.Return src /\
  forall (which : Ascii.ascii) (i : nat) (q : Project2.Pixel),
    Project2.px src !! i = Some q ->
    Project2.h (Project2.pickChannel src which) = Project2.h src /\
    exists v,
      Project2.px (Project2.pickChannel src which) !! i
      = Some (Project2.mkPixel v v v) /\
      (which = "r"%char -> v = Project2.r q) /\
      (which = "g"%char -> v = Project2.g q) /\
      (which <> "r"%char -> which <> "g"%char -> v = Project2.b q).
Proof.
  split.
  - unfold Project2.combineRGB.
    change (Project2.h (Project2.pickChannel src ?c)) with (Project2.h src).
    rewrite !Z.eqb_refl. cbn [negb orb]. f_equal.
    destruct src as [hd ps]. f_equal. cbn [Project2.h Project2.px].
    apply list_eq_same_length with (length ps);
      [done|by rewrite length_imap, pickChannel_length|].
    intros i x y Hi Hx Hy. rewrite list_lookup_imap in Hx.
    assert (Project2.px (Project2.mkImg hd ps) !! i = Some y) as Hy' by done.
    rewrite (list_lookup_total_correct _ _ _
               (pickChannel_lookup _ "r" i y Hy')) in Hx.
    rewrite (list_lookup_total_correct _ _ _
               (pickChannel_lookup _ "g" i y Hy')) in Hx.
    rewrite (list_lookup_total_correct _ _ _
               (pickChannel_lookup _ "b" i y Hy')) in Hx.
    rewrite (pickChannel_lookup _ "r" i y Hy') in Hx.
    cbn in Hx. injection Hx as <-. by destruct y.
  - intros which i q Hq. split; [done|].
    rewrite (pickChannel_lookup src which i q Hq). cbv zeta.
    eexists. split; [reflexivity|].
    split; [by intros ->|]. split; [by intros ->|].
    intros Hr Hg.
    destruct (Ascii.eqb_spec which "r"%char); [done|].
    by destruct (Ascii.eqb_spec which "g"%char).
Qed.

Lemma slot_gray v c : (c < 3)%nat -> slot c (Project2.mkPixel v v v) = v.
Proof. intros Hc. destruct c as [|[|[|c]]]; [done|done|done|lia]. Qed.

Lemma pickChannel_gray src which (c : nat) :
  valid_image (buffer_of src) ->
  which = "r"%char /\ c = 2%nat \/ which = "g"%char /\ c = 1%nat \/
  which = "b"%char /\ c = 0%nat ->
  Image.width (buffer_of (Project2.pickChannel src which))
  = Image.width (buffer_of src) /\
  Image.height (buffer_of (Project2.pickChannel src which))
  = Image.height (buffer_of src) /\
  length (Image.pixels (buffer_of (Project2.pickChannel src which)))
  = length (Image.pixels (buffer_of src)) /\
  gray_of c (Image.pixels (buffer_of src))
          (Image.pixels (buffer_of (Project2.pickChannel src which)))
          (Z.to_nat (Image.width (buffer_of src) * Image.height (buffer_of src))).
Proof.
  intros Hv Hc. pose proof (buffer_of_size src Hv) as Hk.
  split; [done|]. split; [done|]. split.
  { cbn [buffer_of Image.pixels].
    by rewrite !bytes_of_length, pickChannel_length. }
  intros p j Hp Hj. rewrite <- Hk in Hp.
  destruct (lookup_lt_is_Some_2 (Project2.px src) p Hp) as [q Hq].
  cbn [buffer_of Image.pixels].
  rewrite !bytes_of_lookup by (destruct Hc as [[_ ->]|[[_ ->]|[_ ->]]]; lia).
  rewrite (pickChannel_lookup src which p q Hq), Hq. cbn [fmap option_fmap option_map].
  cbv zeta. rewrite slot_gray by done.
  by destruct Hc as [[-> ->]|[[-> ->]|[-> ->]]].
Qed.

(** X25: The three pictures that [pickChannel] of [project2.cpp] makes for 'r',
    'g' and 'b' are, as byte buffers, the three outputs of the tool's
    [splitRGB]. *)
Theorem pickChannel_is_splitRGB (src : Project2.Img) (r0 g0 b0 : Image) :
  valid_image (buffer_of src) ->
  splitRGB (buffer_of src) r0 g0 b0
  = (buffer_of (Project2.pickChannel src "r"),
     buffer_of (Project2.pickChannel src "g"),
     buffer_of (Project2.pickChannel src "b")).
Proof.
  intros Hv.
  destruct (splitRGB_gray (buffer_of src) r0 g0 b0 Hv) as (r & g & b & -> & H).
  destruct (H 2%nat r ltac:(by left)) as (Hwr & Hhr & Hlr & Hgr).
  destruct (H 1%nat g ltac:(right; by left)) as (Hwg & Hhg & Hlg & Hgg).
  destruct (H 0%nat b ltac:(right; by right)) as (Hwb & Hhb & Hlb & Hgb).
  destruct (pickChannel_gray src "r" 2 Hv ltac:(by left)) as (? & ? & ? & ?).
  destruct (pickChannel_gray src "g" 1 Hv ltac:(right; by left))
    as (? & ? & ? & ?).
  destruct (pickChannel_gray src "b" 0 Hv ltac:(right; by right))
    as (? & ? & ? & ?).
  f_equal; [f_equal|]; by eapply (gray_unique (buffer_of src)).
Qed.

Lemma pickChannel_is_splitRGB_witness :
  splitRGB (Image.mk 1 1 [10; 20; 30]) (Image.mk 0 0 []) (Image.mk 0 0 [])
           (Image.mk 0 0 [])
  = (Image.mk 1 1 [30; 30; 30], Image.mk 1 1 [20; 20; 20],
     Image.mk 1 1 [10; 10; 10]).
Proof.
  assert (valid_image (Image.mk 1 1 [10; 20; 30])) as Hv.
  { unfold valid_image, is_u16; cbn; repeat split; try lia.
    repeat constructor; unfold is_byte; lia. }
  exact (pickChannel_is_splitRGB
           (Project2.mkImg (TGA.mkHeader 0 0 2 0 0 0 0 0 1 1 24 0)
                           [Project2.mkPixel 10 20 30])
           (Image.mk 0 0 []) (Image.mk 0 0 []) (Image.mk 0 0 []) Hv).
Defined.

(** X26: [rot180] of [project2.cpp] and the tool's [rotate180] compute the same
    byte buffer, for an image whose byte buffer is valid and has at most
    [INT_MAX] pixels. *)
Theorem rot180_is_rotate180 (src : Project2.Img) :
  valid_image (buffer_of src) -> fits_int (buffer_of src) ->
  rotate180 (buffer_of src) = Ok (buffer_of (Project2.rot180 src)).
Proof.
  intros Hv Hfit. rewrite rotate180_defined by done. f_equal. symmetry.
  pose proof (buffer_of_size src Hv) as Hk.
  pose proof (rotate180_out_valid _ Hv) as Hvr.
  destruct (valid_image_size _ Hvr) as [_ Hlr].
  assert (Image.width (rotate180_out (buffer_of src))
          = Image.width (buffer_of src)
          /\ Image.height (rotate180_out (buffer_of src))
             = Image.height (buffer_of src)) as [Hw Hh] by done.
  rewrite Hw, Hh in Hlr.
  apply image_eq; [done|done|].
  apply (pixels_eq_by_slots (length (Project2.px src))).
  - cbn [buffer_of Image.pixels Project2.rot180 Project2.px].
    by rewrite bytes_of_length, length_reverse.
  - rewrite Hlr, Hk. lia.
  - intros p c Hp Hc.
    rewrite rotate180_lookup by (try done; lia). rewrite <- Hk.
    cbn [buffer_of Image.pixels Project2.rot180 Project2.px].
    rewrite !bytes_of_lookup by done.
    rewrite reverse_lookup by done. do 2 f_equal. lia.
Qed.

Lemma rot180_is_rotate180_witness :
  rotate180 (Image.mk 2 1 [1; 2; 3; 4; 5; 6])
  = Ok (buffer_of (Project2.rot180
                     (Project2.mkImg (TGA.mkHeader 0 0 2 0 0 0 0 0 2 1 24 0)
                                     [Project2.mkPixel 1 2 3;
                                      Project2.mkPixel 4 5 6]))).
Proof.
  assert (valid_image (Image.mk 2 1 [1; 2; 3; 4; 5; 6])) as Hv.
  { unfold valid_image, is_u16; cbn; repeat split; try lia.
    repeat constructor; unfold is_byte; lia. }
  exact (rot180_is_rotate180
           (Project2.mkImg (TGA.mkHeader 0 0 2 0 0 0 0 0 2 1 24 0)
                           [Project2.mkPixel 1 2 3; Project2.mkPixel 4 5 6]) Hv
           ltac:(unfold fits_int, INT_MAX; cbn; lia)).
Defined.

(** X27: The two [combineRGB] compared on valid buffers of equal size and at
    most [INT_MAX] pixels: the batch
    program takes red from the red sample of [r], green from the green
    sample of [g] and blue from the blue sample of [b]; the tool takes all
    three from the first (blue) sample.  The results are the same buffer
    exactly when, in every pixel, the red and blue samples of [r] are equal
    and the green and blue samples of [g] are equal. *)
Theorem combineRGB_agree_iff (r g b : Project2.Img) :
  valid_image (buffer_of r) -> valid_image (buffer_of g) ->
  valid_image (buffer_of b) -> fits_int (buffer_of r) ->
  TGA.width (Project2.h r) = TGA.width (Project2.h g) ->
  TGA.width (Project2.h r) = TGA.width (Project2.h b) ->
  TGA.height (Project2.h r) = TGA.height (Project2.h g) ->
  TGA.height (Project2.h r) = TGA.height (Project2.h b) ->
  exists o out,
    Project2.combineRGB r g b = Project2.Return o /\
    combineRGB (buffer_of r) (buffer_of g) (buffer_of b) = Ok out /\
    (forall (i : nat) qr qg qb,
       Project2.px r !! i = Some qr -> Project2.px g !! i = Some qg ->
       Project2.px b !! i = Some qb ->
       Project2.px o !! i
       = Some (Project2.mkPixel (Project2.b qb) (Project2.g qg) (Project2.r qr))
       /\
       Project2.pixels_of (Image.pixels out) !! i
       = Some (Project2.mkPixel (Project2.b qb) (Project2.b qg)
                                (Project2.b qr))) /\
    (out = buffer_of o <->
     (forall (i : nat) q, Project2.px r !! i = Some q ->
                          Project2.r q = Project2.b q) /\
     (forall (i : nat) q, Project2.px g !! i = Some q ->
                          Project2.g q = Project2.b q)).
Proof.
  intros Hvr Hvg Hvb Hfit Hwg Hwb Hhg Hhb.
  pose proof (buffer_of_size r Hvr) as Hkr.
  pose proof (buffer_of_size g Hvg) as Hkg.
  pose proof (buffer_of_size b Hvb) as Hkb.
  cbn [buffer_of Image.width Image.height] in Hkr, Hkg, Hkb.
  assert (length (Project2.px g) = length (Project2.px r)) as Hlg
    by (rewrite Hkr, Hkg, Hwg, Hhg; done).
  assert (length (Project2.px b) = length (Project2.px r)) as Hlb
    by (rewrite Hkr, Hkb, Hwb, Hhb; done).
  destruct (combineRGB_reads_first_slot (buffer_of r) (buffer_of g)
              (buffer_of b)) as (out & Eout & Hwo & Hho & Hlo & Hko);
    try done.
  cbn [buffer_of Image.width Image.height Image.pixels] in Hwo, Hho, Hlo, Hko.
  rewrite bytes_of_length in Hlo.
  unfold Project2.combineRGB.
  rewrite <- Hwg, <- Hwb, <- Hhg, <- Hhb, !Z.eqb_refl. cbn [negb orb].
  eexists. exists out. split; [reflexivity|]. split; [done|].
  cbn [Project2.px Project2.h].
  assert (forall (i : nat) qr qg qb,
            Project2.px r !! i = Some qr -> Project2.px g !! i = Some qg ->
            Project2.px b !! i = Some qb ->
            imap (fun i _ =>
                    {| Project2.b := Project2.b (Project2.px b !!! i);
                       Project2.g := Project2.g (Project2.px g !!! i);
                       Project2.r := Project2.r (Project2.px r !!! i) |})
                 (Project2.px r) !! i
            = Some (Project2.mkPixel (Project2.b qb) (Project2.g qg)
                                     (Project2.r qr)) /\
            forall c, (c < 3)%nat ->
              Image.pixels out !! (i * 3 + c)%nat
              = Some (slot c (Project2.mkPixel (Project2.b qb) (Project2.b qg)
                                               (Project2.b qr)))) as Hpx.
  { intros i qr qg qb Hr Hg Hb. split.
    - rewrite list_lookup_imap, Hr. cbn.
      by rewrite (list_lookup_total_correct _ _ _ Hr),
                 (list_lookup_total_correct _ _ _ Hg),
                 (list_lookup_total_correct _ _ _ Hb).
    - intros c Hc. destruct (Hko i) as (H0 & H1 & H2).
      { apply lookup_lt_Some in Hr. lia. }
      pose proof (bytes_of_lookup (Project2.px r) i 0 ltac:(lia)) as Er.
      pose proof (bytes_of_lookup (Project2.px g) i 0 ltac:(lia)) as Eg.
      pose proof (bytes_of_lookup (Project2.px b) i 0 ltac:(lia)) as Eb.
      rewrite Nat.add_0_r in Er, Eg, Eb. rewrite Hr in Er. rewrite Hg in Eg.
      rewrite Hb in Eb. rewrite Eb in H0. rewrite Eg in H1. rewrite Er in H2.
      destruct c as [|[|[|c]]]; [done|done|done|lia]. }
  assert (forall i : nat, (i < length (Project2.px r))%nat ->
            exists qr qg qb,
              Project2.px r !! i = Some qr /\ Project2.px g !! i = Some qg /\
              Project2.px b !! i = Some qb) as Hex.
  { intros i Hi.
    destruct (lookup_lt_is_Some_2 (Project2.px r) i Hi) as [qr Hr].
    destruct (lookup_lt_is_Some_2 (Project2.px g) i ltac:(lia)) as [qg Hg].
    destruct (lookup_lt_is_Some_2 (Project2.px b) i ltac:(lia)) as [qb Hb].
    eauto 6. }
  assert (Image.pixels out
          = Project2.bytes_of
              (imap (fun i _ =>
                       {| Project2.b := Project2.b (Project2.px b !!! i);
                          Project2.g := Project2.b (Project2.px g !!! i);
                          Project2.r := Project2.b (Project2.px r !!! i) |})
                    (Project2.px r))) as Hout.
  { apply (pixels_eq_by_slots (length (Project2.px r)));
      [done|by rewrite bytes_of_length, length_imap|].
    intros p c Hp Hc. destruct (Hex p Hp) as (qr & qg & qb & Hr & Hg & Hb).
    destruct (Hpx p qr qg qb Hr Hg Hb) as [_ Hslot]. rewrite Hslot by done.
    rewrite bytes_of_lookup, list_lookup_imap, Hr by done. cbn.
    by rewrite (list_lookup_total_correct _ _ _ Hr),
               (list_lookup_total_correct _ _ _ Hg),
               (list_lookup_total_correct _ _ _ Hb). }
  split.
  - intros i qr qg qb Hr Hg Hb. destruct (Hpx i qr qg qb Hr Hg Hb) as [-> _].
    split; [done|]. rewrite Hout, pixels_of_bytes_of, list_lookup_imap, Hr. cbn.
    by rewrite (list_lookup_total_correct _ _ _ Hr),
               (list_lookup_total_correct _ _ _ Hg),
               (list_lookup_total_correct _ _ _ Hb).
  - split.
    + intros E. apply (f_equal Image.pixels) in E.
      cbn [buffer_of Image.pixels Project2.px] in E. rewrite Hout in E.
      apply bytes_of_inj in E.
      assert (forall i qr qg, Project2.px r !! i = Some qr ->
                Project2.px g !! i = Some qg ->
                Project2.b qg = Project2.g qg /\ Project2.b qr = Project2.r qr)
        as Hboth.
      { intros i qr qg Hr Hg.
        destruct (Hex i) as (qr' & qg' & qb & Hr' & Hg' & Hb).
        { by apply lookup_lt_Some in Hr. }
        apply (f_equal (fun l => l !! i)) in E.
        rewrite !list_lookup_imap, Hr in E. cbn in E.
        rewrite (list_lookup_total_correct _ _ _ Hr),
                (list_lookup_total_correct _ _ _ Hg),
                (list_lookup_total_correct _ _ _ Hb) in E.
        by injection E. }
      split.
      * intros i q Hq. destruct (Hex i) as (qr & qg & qb & Hr & Hg & Hb).
        { by apply lookup_lt_Some in Hq. }
        assert (qr = q) as -> by congruence.
        by destruct (Hboth i q qg Hr Hg).
      * intros i q Hq. destruct (Hex i) as (qr & qg & qb & Hr & Hg & Hb).
        { apply lookup_lt_Some in Hq. lia. }
        assert (qg = q) as -> by congruence.
        by destruct (Hboth i qr q Hr Hg).
    + intros [Hr Hg]. apply image_eq; [done|done|].
      cbn [buffer_of Image.pixels Project2.px]. rewrite Hout. f_equal.
      apply list_eq_same_length with (length (Project2.px r));
        [by rewrite length_imap|by rewrite length_imap|].
      intros i x y Hi. destruct (Hex i Hi) as (qr & qg & qb & Er & Eg & Eb).
      rewrite !list_lookup_imap, Er. cbn.
      rewrite (list_lookup_total_correct _ _ _ Er),
              (list_lookup_total_correct _ _ _ Eg),
              (list_lookup_total_correct _ _ _ Eb).
      intros [= <-] [= <-]. by rewrite (Hr i qr Er), (Hg i qg Eg).
Qed.

Lemma combineRGB_agree_iff_witness :
  exists o out,
    Project2.combineRGB
      (Project2.mkImg (TGA.mkHeader 0 0 2 0 0 0 0 0 1 1 24 0)
                      [Project2.mkPixel 10 20 30])
      (Project2.mkImg (TGA.mkHeader 0 0 2 0 0 0 0 0 1 1 24 0)
                      [Project2.mkPixel 40 50 60])
      (Project2.mkImg (TGA.mkHeader 0 0 2 0 0 0 0 0 1 1 24 0)
                      [Project2.mkPixel 70 80 90]) = Project2.Return o /\
    combineRGB (Image.mk 1 1 [10; 20; 30]) (Image.mk 1 1 [40; 50; 60])
               (Image.mk 1 1 [70; 80; 90]) = Ok out.
Proof.
  assert (forall x y z, is_byte x /\ is_byte y /\ is_byte z ->
            valid_image (Image.mk 1 1 [x; y; z])) as Hv.
  { intros x y z (Hx & Hy & Hz). unfold valid_image, is_u16; cbn.
    split; [lia|]. split; [lia|]. split; [done|].
    apply Forall_cons_2; [done|]. apply Forall_cons_2; [done|].
    apply Forall_cons_2; [done|]. apply Forall_nil_2. }
  destruct (combineRGB_agree_iff
              (Project2.mkImg (TGA.mkHeader 0 0 2 0 0 0 0 0 1 1 24 0)
                              [Project2.mkPixel 10 20 30])
              (Project2.mkImg (TGA.mkHeader 0 0 2 0 0 0 0 0 1 1 24 0)
                              [Project2.mkPixel 40 50 60])
              (Project2.mkImg (TGA.mkHeader 0 0 2 0 0 0 0 0 1 1 24 0)
                              [Project2.mkPixel 70 80 90])
              (Hv 10 20 30 ltac:(unfold is_byte; lia))
              (Hv 40 50 60 ltac:(unfold is_byte; lia))
              (Hv 70 80 90 ltac:(unfold is_byte; lia))
              ltac:(unfold fits_int, INT_MAX; cbn; lia)
              eq_refl eq_refl eq_refl eq_refl)
    as (o & out & E1 & E2 & _).
  exists o, out. split; [exact E1|exact E2].
Defined.

Lemma as_char_small v : 0 <= v < 128 -> Project2.as_char v = v.
Proof.
  intros Hv. unfold Project2.as_char.
  destruct (v <? 128) eqn:E; [done|apply Z.ltb_ge in E; lia].
Qed.

Lemma as_char_eq v (c : Z) :
  is_byte v -> 0 <= c < 128 -> (Project2.as_char v =? c) = (v =? c).
Proof.
  unfold is_byte. intros Hv Hc. unfold Project2.as_char.
  destruct (v <? 128) eqn:E; [done|]. apply Z.ltb_ge in E.
  destruct (Z.eqb_spec (v - 256) c); destruct (Z.eqb_spec v c); lia || done.
Qed.

Lemma count_small w h :
  0 <= w < 32768 -> 0 <= h < 32768 ->
  Project2.to_size_t (Project2.to_size_t (Project2.as_short w)
                      * Project2.to_size_t (Project2.as_short h)) = w * h /\
  (Project2.max_size <? w * h) = false.
Proof.
  intros Hw Hh. unfold Project2.as_short, Project2.to_size_t.
  destruct (w <? 32768) eqn:Ew; [|apply Z.ltb_ge in Ew; lia].
  destruct (h <? 32768) eqn:Eh; [|apply Z.ltb_ge in Eh; lia].
  change (2 ^ 64) with 18446744073709551616.
  rewrite (Z.mod_small w), (Z.mod_small h) by lia.
  split; [apply Z.mod_small; nia|].
  apply Z.ltb_ge. unfold Project2.max_size.
  change ((2 ^ 63 - 1) / 3) with 3074457345618258602. nia.
Qed.

Lemma read_at_header bytes :
  read_at {| content := bytes; gpos := 0; at_fail := false |} TGA.sizeof_Header
  = if (18 <=? length bytes)%nat
    then (take 18 bytes,
          {| content := bytes; gpos := 18; at_fail := false |})
    else (bytes ++ replicate (18 - length bytes) 0,
          {| content := bytes; gpos := Z.of_nat (length bytes);
             at_fail := true |}).
Proof.
  unfold read_at. cbn [at_fail gpos content].
  change (Z.to_nat TGA.sizeof_Header) with 18%nat.
  change (Z.to_nat 0) with 0%nat. rewrite drop_0.
  destruct (18 <=? length bytes)%nat; [done|]. do 2 f_equal. lia.
Qed.

(** What [readTGA] does with a file that starts with a header of a 24-bit
    uncompressed image whose extents and ID length are non-negative as
    [short] and [char]. *)
Lemma readTGA_file fs fname hd tail :
  files fs !! fname = Some (TGA.Header_bytes hd ++ tail) ->
  valid_header hd ->
  TGA.dataTypeCode hd = 2 -> TGA.bitsPerPixel hd = 24 ->
  TGA.idLength hd < 128 -> TGA.width hd < 32768 -> TGA.height hd < 32768 ->
  let n := Z.to_nat (TGA.width hd * TGA.height hd * 3) in
  let avail := drop (Z.to_nat (TGA.idLength hd)) tail in
  Project2.readTGA fs fname
  = if (n <=? length avail)%nat
    then Some (Project2.Return
                 {| Project2.h := hd;
                    Project2.px := Project2.pixels_of (take n avail) |})
    else Some (Project2.Exit 4).
Proof.
  intros Hf Hv Hdtc Hbpp Hil Hw Hh.
  pose proof Hv as (Hil0 & _ & _ & _ & _ & _ & _ & _ & Hw0 & Hh0 & _ & _).
  unfold is_byte, is_u16 in *.
  unfold Project2.readTGA. rewrite Hf, read_at_header.
  rewrite length_app, Header_bytes_length.
  destruct (Nat.leb_spec 18 (18 + length tail)) as [_|]; [|lia].
  cbn [at_fail]. rewrite take_app_length' by (by rewrite Header_bytes_length).
  rewrite Header_roundtrip by done. rewrite Hdtc, Hbpp.
  change (negb (Project2.as_char 24 =? 24) || negb (Project2.as_char 2 =? 2))
    with false. cbv zeta.
  destruct (count_small (TGA.width hd) (TGA.height hd)) as [-> ->];
    [lia|lia|].
  rewrite (as_char_small (TGA.idLength hd)) by lia.
  assert ((if negb (TGA.idLength hd =? 0)
           then seekg_cur_at
                  {| content := TGA.Header_bytes hd ++ tail; gpos := 18;
                     at_fail := false |} (TGA.idLength hd)
           else {| content := TGA.Header_bytes hd ++ tail; gpos := 18;
                   at_fail := false |})
          = {| content := TGA.Header_bytes hd ++ tail;
               gpos := 18 + TGA.idLength hd; at_fail := false |}) as ->.
  { destruct (Z.eqb_spec (TGA.idLength hd) 0) as [->|Hne]; [done|].
    cbn [negb]. unfold seekg_cur_at. cbn [at_fail gpos content].
    by destruct (Z.ltb_spec (18 + TGA.idLength hd) 0); [lia|]. }
  unfold read_at. cbn [at_fail gpos content].
  replace (Z.to_nat (18 + TGA.idLength hd))
    with (length (TGA.Header_bytes hd) + Z.to_nat (TGA.idLength hd))%nat
    by (rewrite Header_bytes_length; lia).
  rewrite <- drop_drop, drop_app_length.
  by destruct (Z.to_nat (TGA.width hd * TGA.height hd * 3)
               <=? length (drop (Z.to_nat (TGA.idLength hd)) tail))%nat.
Qed.

(** X28: The exit code of [readTGA] names the failure: 1 exactly when there is
    no file, 2 exactly when the file has fewer than 18 bytes, 3 exactly when
    the header is complete and the bit depth is not 24 or the type is not 2;
    the only other code is 4.  The colour-map type and the descriptor are
    not looked at: a returned image carries the header of the file. *)
Theorem readTGA_exit_codes (fs : FileSystem) (fname : string) :
  (Project2.readTGA fs fname = Some (Project2.Exit 1)
   <-> files fs !! fname = None) /\
  forall bytes,
    files fs !! fname = Some bytes -> Forall is_byte bytes ->
    let hd := TGA.Header_of_bytes (take 18 bytes) in
    (Project2.readTGA fs fname = Some (Project2.Exit 2)
     <-> (length bytes < 18)%nat) /\
    (Project2.readTGA fs fname = Some (Project2.Exit 3)
     <-> (18 <= length bytes)%nat /\
         (TGA.bitsPerPixel hd <> 24 \/ TGA.dataTypeCode hd <> 2)) /\
    (forall code, Project2.readTGA fs fname = Some (Project2.Exit code) ->
                  code = 2 \/ code = 3 \/ code = 4) /\
    (forall im, Project2.readTGA fs fname = Some (Project2.Return im) ->
                Project2.h im = hd /\ TGA.bitsPerPixel hd = 24 /\
                TGA.dataTypeCode hd = 2).
Proof.
  split.
  - unfold Project2.readTGA.
    destruct (files fs !! fname) as [bytes|]; [|done].
    split; [|done]. rewrite read_at_header.
    destruct (18 <=? length bytes)%nat; cbn [at_fail]; [|done]. cbv zeta.
    destruct (_ || _); [done|]. destruct (_ <? _); [done|].
    destruct (read_at _ _) as [pb f]. by destruct (at_fail f).
  - intros bytes Hf Hb hd. unfold Project2.readTGA. rewrite Hf, read_at_header.
    destruct (Nat.leb_spec 18 (length bytes)) as [Hlen|Hlen]; cbn [at_fail].
    2:{ split; [split; [lia|done]|]. split; [split; [done|lia]|].
        split; [intros code [= <-]; by left|done]. }
    cbv zeta. fold hd.
    assert (is_byte (TGA.bitsPerPixel hd) /\ is_byte (TGA.dataTypeCode hd))
      as [Hbpp Hdtc].
    { split; apply at_byte; by apply Forall_take. }
    rewrite (as_char_eq _ 24 Hbpp), (as_char_eq _ 2 Hdtc) by lia.
    destruct (Z.eqb_spec (TGA.bitsPerPixel hd) 24) as [E1|E1];
      destruct (Z.eqb_spec (TGA.dataTypeCode hd) 2) as [E2|E2];
      cbn [negb orb].
    2,3,4: (split; [split; [done|lia]|]; split; [split; [intros _|done]|];
            [split; [done|tauto]|];
            split; [intros code [= <-]; right; by left|done]).
    destruct (_ <? _).
    { split; [split; [done|lia]|]. split; [split; [done|tauto]|]. done. }
    destruct (read_at _ _) as [pb f]. destruct (at_fail f).
    + split; [split; [done|lia]|]. split; [split; [done|tauto]|].
      split; [intros code [= <-]; right; by right|done].
    + split; [split; [done|lia]|]. split; [split; [done|tauto]|].
      split; [done|]. by intros im [= <-].
Qed.

Lemma readTGA_exit_codes_witness :
  Project2.readTGA (mkFS {[ "s.tga" := [0; 0; 2] ]} (fun _ => false) 0) "s.tga"
  = Some (Project2.Exit 2).
Proof.
  assert (Forall is_byte [0; 0; 2]) as Hb
    by (repeat constructor; unfold is_byte; lia).
  exact (proj2 (proj1 (proj2 (readTGA_exit_codes
           (mkFS {[ "s.tga" := [0; 0; 2] ]} (fun _ => false) 0) "s.tga")
           [0; 0; 2] eq_refl Hb)) ltac:(cbn; lia)).
Defined.

(** X29: For a 24-bit type-2 file with an ID length below 128, a width and a
    height below 32768 (the values that are not negative as [char] and
    [short]), and all its ID and payload bytes, [readTGA] returns the
    header and the payload as they are: the pixels are in file order
    whatever the descriptor says, and colour-mapped headers are accepted.
    The tool's [load] rejects such a file when the colour-map type is not 0
    and otherwise returns the payload oriented by the descriptor, so the
    two return the same bytes when the descriptor's bit 0x20 is clear. *)
Theorem readTGA_keeps_file_order
    (fs : FileSystem) (fname : string) (hd : TGA.Header)
    (id payload tl : list Z) :
  files fs !! fname = Some (tga_file hd id payload ++ tl) ->
  valid_header hd ->
  TGA.dataTypeCode hd = 2 -> TGA.bitsPerPixel hd = 24 ->
  TGA.idLength hd < 128 -> TGA.width hd < 32768 -> TGA.height hd < 32768 ->
  Z.of_nat (length id) = TGA.idLength hd ->
  Z.of_nat (length payload)
    = TGA.width hd * TGA.height hd * Image.PIXEL_SIZE ->
  exists im,
    Project2.readTGA fs fname = Some (Project2.Return im) /\
    Project2.h im = hd /\
    Image.pixels (buffer_of im) = payload /\
    (TGA.colorMapType hd <> 0 ->
     TGA.load fs fname = Throw (OnlyUnmapped fname)) /\
    (TGA.colorMapType hd = 0 ->
     TGA.load fs fname
     = Ok {| Image.width := TGA.width hd;
             Image.height := TGA.height hd;
             Image.pixels := oriented hd payload |}) /\
    (TGA.colorMapType hd = 0 ->
     Z.land (TGA.imageDescriptor hd) TGA.ORIGIN_TOP_LEFT = 0 ->
     TGA.load fs fname = Ok (buffer_of im)).
Proof.
  intros Hf Hv Hdtc Hbpp Hil Hw Hh Hid Hpay.
  pose proof Hv as (Hil0 & _ & _ & _ & _ & _ & _ & _ & Hw0 & Hh0 & _ & _).
  unfold is_byte, is_u16, Image.PIXEL_SIZE in *.
  assert (files fs !! fname
          = Some (TGA.Header_bytes hd ++ (id ++ payload ++ tl))) as Hf'.
  { rewrite Hf. unfold tga_file. by rewrite <- !app_assoc. }
  pose proof (readTGA_file fs fname hd _ Hf' Hv Hdtc Hbpp Hil Hw Hh) as Hr.
  cbv zeta in Hr. rewrite <- Hid, Nat2Z.id, drop_app_length in Hr.
  rewrite <- Hpay, Nat2Z.id in Hr.
  rewrite length_app in Hr.
  destruct (Nat.leb_spec (length payload) (length payload + length tl))
    as [_|]; [|lia].
  rewrite take_app_length in Hr.
  destruct (bytes_of_pixels_of
              (Z.to_nat (TGA.width hd * TGA.height hd)) payload) as [Hbo Hlp];
    [lia|].
  eexists. split; [exact Hr|]. cbn [Project2.h Project2.px buffer_of Image.pixels].
  split; [done|]. split; [done|]. split; [|split].
  - intros Hcm.
    assert (TGA.colorMapType (TGA.Header_of_bytes
              (take 18 (tga_file hd id payload ++ tl))) <> 0) as Hcm'.
    { unfold tga_file. rewrite <- !app_assoc.
      rewrite take_app_length' by (by rewrite Header_bytes_length).
      by rewrite Header_roundtrip. }
    revert Hcm'. rewrite <- read_header. unfold TGA.load. rewrite Hf.
    destruct (read _ TGA.sizeof_Header) as [hb f]. cbn [fst]. cbv zeta.
    intros Hcm'. apply Z.eqb_neq in Hcm'. by rewrite Hcm'.
  - intros Hcm. apply (load_tga_file fs fname hd id payload tl); try done.
    unfold INT_MAX. nia.
  - intros Hcm Hbit.
    rewrite (load_tga_file fs fname hd id payload tl)
      by (try done; unfold INT_MAX; nia).
    rewrite oriented_clear by done. unfold buffer_of.
    cbn [Project2.h Project2.px]. by rewrite Hbo.
Qed.

Lemma readTGA_keeps_file_order_witness :
  exists im,
    Project2.readTGA
      (mkFS {[ "top.tga" := tga_file (TGA.mkHeader 0 0 2 0 0 0 0 0 1 2 24 32) []
                                     [1; 2; 3; 4; 5; 6] ++ [] ]}
            (fun _ => false) 0) "top.tga" = Some (Project2.Return im) /\
    Image.pixels (buffer_of im) = [1; 2; 3; 4; 5; 6].
Proof.
  assert (valid_header (TGA.mkHeader 0 0 2 0 0 0 0 0 1 2 24 32)) as Hv.
  { unfold valid_header, is_byte, is_u16. cbn. repeat split; lia. }
  assert (files (mkFS {[ "top.tga" := tga_file
                                        (TGA.mkHeader 0 0 2 0 0 0 0 0 1 2 24 32)
                                        [] [1; 2; 3; 4; 5; 6] ++ [] ]}
                      (fun _ => false) 0) !! "top.tga"
          = Some (tga_file (TGA.mkHeader 0 0 2 0 0 0 0 0 1 2 24 32) []
                           [1; 2; 3; 4; 5; 6] ++ [])) as Hf by reflexivity.
  destruct (readTGA_keeps_file_order _ "top.tga"
              (TGA.mkHeader 0 0 2 0 0 0 0 0 1 2 24 32) [] [1; 2; 3; 4; 5; 6] []
              Hf Hv eq_refl eq_refl ltac:(cbn; lia) ltac:(cbn; lia)
              ltac:(cbn; lia) eq_refl eq_refl)
    as (im & E & _ & Hp & _).
  exists im. split; [exact E|exact Hp].
Defined.

(** X30: For an image with a 24-bit type-2 header whose ID length is below
    128 and whose width and height are below 32768 and have the number of
    pixels as product: [writeTGA] writes the header it was given and the
    pixels, and returns normally whether or not the device had room.  With
    room, an image whose header has ID length 0 is read back as it was; a
    non-empty image whose header has an ID length from 1 to 127 is not: the
    field is not written, and [readTGA] exits with code 4.  Without room
    for the header [readTGA] exits with code 2, without room for all pixels
    with code 4. *)
Theorem writeTGA_readTGA_roundtrip
    (fl : flush_policy) (fs : FileSystem) (im : Project2.Img)
    (fname : string) :
  valid_header (Project2.h im) ->
  TGA.dataTypeCode (Project2.h im) = 2 ->
  TGA.bitsPerPixel (Project2.h im) = 24 ->
  TGA.idLength (Project2.h im) < 128 ->
  TGA.width (Project2.h im) < 32768 -> TGA.height (Project2.h im) < 32768 ->
  Z.of_nat (length (Project2.px im))
    = TGA.width (Project2.h im) * TGA.height (Project2.h im) ->
  unwritable fs fname = false ->
  (Project2.writeTGA fl fs im fname).2 = Project2.Return tt /\
  ((18 + 3 * length (Project2.px im) <= space fs)%nat ->
   (TGA.idLength (Project2.h im) = 0 ->
    Project2.readTGA (Project2.writeTGA fl fs im fname).1 fname
    = Some (Project2.Return im)) /\
   (TGA.idLength (Project2.h im) <> 0 -> Project2.px im <> [] ->
    Project2.readTGA (Project2.writeTGA fl fs im fname).1 fname
    = Some (Project2.Exit 4))) /\
  ((space fs < 18)%nat ->
   Project2.readTGA (Project2.writeTGA fl fs im fname).1 fname
   = Some (Project2.Exit 2)) /\
  ((18 <= space fs < 18 + 3 * length (Project2.px im))%nat ->
   Project2.readTGA (Project2.writeTGA fl fs im fname).1 fname
   = Some (Project2.Exit 4)).
Proof.
  intros Hv Hdtc Hbpp Hil Hw Hh Hlen Hopen.
  pose proof Hv as (Hil0 & _ & _ & _ & _ & _ & _ & _ & Hw0 & Hh0 & _ & _).
  unfold is_byte, is_u16 in *.
  unfold Project2.writeTGA. rewrite Hopen. cbn [fst snd].
  split; [done|].
  rewrite (close_inv (space fs) _
             (TGA.Header_bytes (Project2.h im)
              ++ Project2.bytes_of (Project2.px im)))
    by (apply write_inv;
        apply (write_inv fl (space fs) ofstream_open _ []), stream_inv_open).
  pose proof (bytes_of_length (Project2.px im)) as Hbl.
  set (file := TGA.Header_bytes (Project2.h im)
               ++ Project2.bytes_of (Project2.px im)).
  assert (length file = (18 + 3 * length (Project2.px im))%nat) as Hfl
    by (subst file; rewrite length_app, Header_bytes_length; lia).
  split; [|split].
  - intros Hroom. rewrite take_ge by lia.
    pose proof (readTGA_file
                  {| files := <[fname := file]> (files fs);
                     unwritable := unwritable fs; space := space fs |}
                  fname (Project2.h im) (Project2.bytes_of (Project2.px im)))
      as Hr.
    cbv zeta in Hr. rewrite Hr; try done;
      [|cbn [files]; by rewrite lookup_insert_eq].
    rewrite length_drop, Hbl. split.
    + intros Hid0. rewrite Hid0. change (Z.to_nat 0) with 0%nat.
      rewrite drop_0, Nat.sub_0_r.
      destruct (Nat.leb_spec
                  (Z.to_nat (TGA.width (Project2.h im)
                             * TGA.height (Project2.h im) * 3))
                  (length (Project2.px im) * 3)) as [_|]; [|lia].
      rewrite take_ge by lia. rewrite pixels_of_bytes_of. by destruct im.
    + intros Hid Hne.
      assert (0 < length (Project2.px im))%nat
        by (destruct (Project2.px im); [done|cbn; lia]).
      by destruct (Nat.leb_spec
                     (Z.to_nat (TGA.width (Project2.h im)
                                * TGA.height (Project2.h im) * 3))
                     (length (Project2.px im) * 3
                      - Z.to_nat (TGA.idLength (Project2.h im))));
        [lia|].
  - intros Hsmall. unfold Project2.readTGA. cbn [files].
    rewrite lookup_insert_eq, read_at_header, length_take.
    by destruct (Nat.leb_spec 18 (space fs `min` length file)); [lia|].
  - intros Hmid.
    assert (take (space fs) file
            = TGA.Header_bytes (Project2.h im)
              ++ take (space fs - 18)
                      (Project2.bytes_of (Project2.px im))) as ->.
    { subst file. rewrite take_app, Header_bytes_length.
      by rewrite take_ge by (rewrite Header_bytes_length; lia). }
    pose proof (readTGA_file
                  {| files := <[fname := TGA.Header_bytes (Project2.h im)
                                         ++ take (space fs - 18)
                                              (Project2.bytes_of
                                                 (Project2.px im))]>
                                (files fs);
                     unwritable := unwritable fs; space := space fs |}
                  fname (Project2.h im)
                  (take (space fs - 18) (Project2.bytes_of (Project2.px im))))
      as Hr.
    cbv zeta in Hr. rewrite Hr; try done;
      [|cbn [files]; by rewrite lookup_insert_eq].
    rewrite length_drop, length_take, Hbl.
    by destruct (Nat.leb_spec
                   (Z.to_nat (TGA.width (Project2.h im)
                              * TGA.height (Project2.h im) * 3))
                   ((space fs - 18) `min` (length (Project2.px im) * 3)
                    - Z.to_nat (TGA.idLength (Project2.h im))));
      [lia|].
Qed.

Lemma writeTGA_readTGA_roundtrip_witness :
  Project2.readTGA
    (Project2.writeTGA buffered (mkFS ∅ (fun _ => false) 64)
       (Project2.mkImg (TGA.mkHeader 0 0 2 0 0 0 0 0 1 1 24 0)
                       [Project2.mkPixel 10 20 30]) "o.tga").1 "o.tga"
  = Some (Project2.Return
            (Project2.mkImg (TGA.mkHeader 0 0 2 0 0 0 0 0 1 1 24 0)
                            [Project2.mkPixel 10 20 30])).
Proof.
  assert (valid_header (TGA.mkHeader 0 0 2 0 0 0 0 0 1 1 24 0)) as Hv.
  { unfold valid_header, is_byte, is_u16. cbn. repeat split; lia. }
  exact (proj1 (proj1 (proj2 (writeTGA_readTGA_roundtrip buffered
           (mkFS ∅ (fun _ => false) 64)
           (Project2.mkImg (TGA.mkHeader 0 0 2 0 0 0 0 0 1 1 24 0)
                           [Project2.mkPixel 10 20 30]) "o.tga"
           Hv eq_refl eq_refl ltac:(cbn; lia) ltac:(cbn; lia) ltac:(cbn; lia)
           eq_refl eq_refl)) ltac:(cbn; lia)) eq_refl).
Defined.

(** An ID length of 128 or more is negative as [char]: [readTGA] then seeks
    backwards, and an image written with ID length 255 is read back with
    its bytes shifted by one. *)
Remark writeTGA_readTGA_idLength_255 :
  Project2.readTGA
    (Project2.writeTGA buffered (mkFS ∅ (fun _ => false) 64)
       (Project2.mkImg (TGA.mkHeader 255 0 2 0 0 0 0 0 1 1 24 0)
                       [Project2.mkPixel 10 20 30]) "o.tga").1 "o.tga"
  = Some (Project2.Return
            (Project2.mkImg (TGA.mkHeader 255 0 2 0 0 0 0 0 1 1 24 0)
                            [Project2.mkPixel 0 10 20])).
Proof. reflexivity. Qed.

(** * The other routines of the repository against the same properties *)

Lemma writeTGA_file fl fs im fname :
  unwritable fs fname = false ->
  files (Project2.writeTGA fl fs im fname).1 !! fname
  = Some (take (space fs)
               (TGA.Header_bytes (Project2.h im)
                ++ Project2.bytes_of (Project2.px im))).
Proof.
  intros Hopen. unfold Project2.writeTGA. rewrite Hopen. cbn [fst files].
  rewrite lookup_insert_eq. f_equal. apply close_inv.
  apply write_inv.
  apply (write_inv fl (space fs) ofstream_open _ []), stream_inv_open.
Qed.

Lemma Copy2_load_never_unmapped fs path p :
  Copy2.load fs path <> Throw (OnlyUnmapped p).
Proof.
  unfold Copy2.load.
  destruct (files fs !! path) as [bytes|]; [|done].
  destruct (read _ TGA.sizeof_Header) as [hb f]. cbv zeta.
  repeat (match goal with |- context [if ?c then _ else _] => destruct c end;
          try done).
  all: by destruct (read _ _) as [pb f']; destruct (in_fail f').
Qed.

(** C1: [blend] of [project2.cpp], unlike the table-driven engine of the
    tool, divides with truncation: in every channel Multiply stores
    [A*B/255] and Screen [255 - (255-A)*(255-B)/255].  For the samples 1
    and 128 it stores 0, where the quotient rounded to nearest,
    [(1*128 + 127)/255], is 1.  The tool's [apply] stores 1 on the same
    input, and [(B*O + 127)/255] and [255 - ((255-B)*(255-O) + 127)/255]
    for all samples. *)
Theorem Project2_blend_truncates :
  (forall (A B : Project2.Pixel) (c : nat),
     (c < 3)%nat -> is_byte (slot c A) -> is_byte (slot c B) ->
     slot c (Project2.blend_px Project2.MULTI A B)
     = slot c A * slot c B / 255 /\
     slot c (Project2.blend_px Project2.SCREEN A B)
     = 255 - (255 - slot c A) * (255 - slot c B) / 255) /\
  Project2.blend
    (Project2.mkImg (TGA.mkHeader 0 0 2 0 0 0 0 0 1 1 24 0)
                    [Project2.mkPixel 1 1 1])
    (Project2.mkImg (TGA.mkHeader 0 0 2 0 0 0 0 0 1 1 24 0)
                    [Project2.mkPixel 128 128 128])
    Project2.MULTI
  = Project2.Return
      (Project2.mkImg (TGA.mkHeader 0 0 2 0 0 0 0 0 1 1 24 0)
                      [Project2.mkPixel 0 0 0]) /\
  (1 * 128 + 127) / 255 = 1 /\
  nearest255 (1 * 128) 1 /\ ~ nearest255 (1 * 128) 0 /\
  (Blend.apply Blend._lut_bootstrap (Image.mk 1 1 [128; 128; 128])
               (Image.mk 1 1 [1; 1; 1]) Blend.MULTIPLY).2
  = Ok (Image.mk 1 1 [1; 1; 1]) /\
  (forall (L : Blend.Luts) (B O : Z),
     lut_inv L -> is_byte B -> is_byte O ->
     Blend.blendChannel (Blend.init_luts L) Blend.MULTIPLY B O
     = (B * O + 127) / 255 /\
     Blend.blendChannel (Blend.init_luts L) Blend.SCREEN B O
     = 255 - ((255 - B) * (255 - O) + 127) / 255).
Proof.
  split; [|split; [|split; [|split; [|split; [|split]]]]].
  - intros A B c Hc HA HB.
    assert (forall m, slot c (Project2.blend_px m A B)
                      = Copy2.blendChannel (mode_of m) (slot c B) (slot c A))
      as Hslot.
    { intros m. destruct (blend_channels (slot c A) (slot c B) HA HB)
        as (E1 & E2 & E3 & E4).
      destruct c as [|[|[|c]]]; [| | |lia]; destruct m; done. }
    rewrite !Hslot. cbn [mode_of].
    destruct (Copy2_blendChannel_spec Blend.MULTIPLY _ _ HB HA) as [-> _].
    destruct (Copy2_blendChannel_spec Blend.SCREEN _ _ HB HA) as [-> _].
    split; [by rewrite Z.mul_comm|].
    by rewrite (Z.mul_comm (255 - slot c B)).
  - reflexivity.
  - reflexivity.
  - unfold nearest255. lia.
  - unfold nearest255. lia.
  - by vm_compute.
  - intros L B O HL HB HO.
    by rewrite blendChannel_multiply, blendChannel_screen.
Qed.

(** C6: Overlay in [blend] of [project2.cpp] branches on the bottom sample
    at 128, as the tool does on the base, but divides with truncation: it
    stores [2*A*B/255] below 128 and [255 - 2*(255-A)*(255-B)/255] from 128
    on.  For the base 64 under the overlay 1 it stores 0, where
    [round(2*64*1/255)] is 1; the tool's [apply] stores 1 on the same
    input, and the rounded quotients for all samples. *)
Theorem Project2_overlay_truncates :
  (forall (A B : Project2.Pixel) (c : nat),
     (c < 3)%nat -> is_byte (slot c A) -> is_byte (slot c B) ->
     slot c (Project2.blend_px Project2.OVERLAY A B)
     = if slot c B <? 128 then 2 * slot c B * slot c A / 255
       else 255 - 2 * (255 - slot c B) * (255 - slot c A) / 255) /\
  Project2.blend
    (Project2.mkImg (TGA.mkHeader 0 0 2 0 0 0 0 0 1 1 24 0)
                    [Project2.mkPixel 1 1 1])
    (Project2.mkImg (TGA.mkHeader 0 0 2 0 0 0 0 0 1 1 24 0)
                    [Project2.mkPixel 64 64 64])
    Project2.OVERLAY
  = Project2.Return
      (Project2.mkImg (TGA.mkHeader 0 0 2 0 0 0 0 0 1 1 24 0)
                      [Project2.mkPixel 0 0 0]) /\
  (2 * 64 * 1 + 127) / 255 = 1 /\
  nearest255 (2 * 64 * 1) 1 /\ ~ nearest255 (2 * 64 * 1) 0 /\
  (Blend.apply Blend._lut_bootstrap (Image.mk 1 1 [64; 64; 64])
               (Image.mk 1 1 [1; 1; 1]) Blend.OVERLAY).2
  = Ok (Image.mk 1 1 [1; 1; 1]) /\
  (forall (L : Blend.Luts) (B O : Z),
     is_byte B -> is_byte O ->
     Blend.blendChannel L Blend.OVERLAY B O
     = if B <? 128 then (2 * B * O + 127) / 255
       else 255 - (2 * (255 - B) * (255 - O) + 127) / 255).
Proof.
  split; [|split; [|split; [|split; [|split; [|split]]]]].
  - intros A B c Hc HA HB.
    assert (slot c (Project2.blend_px Project2.OVERLAY A B)
            = Copy2.blendChannel Blend.OVERLAY (slot c B) (slot c A)) as ->.
    { destruct (blend_channels (slot c A) (slot c B) HA HB)
        as (E1 & E2 & E3 & E4).
      destruct c as [|[|[|c]]]; [| | |lia]; done. }
    by destruct (Copy2_blendChannel_spec Blend.OVERLAY _ _ HB HA) as [-> _].
  - reflexivity.
  - reflexivity.
  - unfold nearest255. lia.
  - unfold nearest255. lia.
  - by vm_compute.
  - intros L B O HB HO. by apply blendChannel_overlay.
Qed.

(** C3: the [save] of the second copy (lines 602-621), unlike the tool's
    [save], writes the rows last to first under descriptor 0, and [load]
    does not turn such a file back: the 1x2 buffer [1 2 3 | 4 5 6] saved by
    it is loaded, by the tool's [load] and by the copy's own, as
    [4 5 6 | 1 2 3].  The tool's own pair returns the buffer as it was: for
    every valid buffer of at most [INT_MAX] pixels, on a path that opens
    and a device with room. *)
Theorem Copy2_save_breaks_roundtrip (fl : flush_policy) :
  let img := Image.mk 1 2 [1; 2; 3; 4; 5; 6] in
  let fs := mkFS ∅ (fun _ => false) 64 in
  valid_image img /\
  (Copy2.save fl fs img "t.tga").2 = Ok tt /\
  TGA.load (Copy2.save fl fs img "t.tga").1 "t.tga"
  = Ok (Image.mk 1 2 [4; 5; 6; 1; 2; 3]) /\
  Copy2.load (Copy2.save fl fs img "t.tga").1 "t.tga"
  = Ok (Image.mk 1 2 [4; 5; 6; 1; 2; 3]) /\
  (TGA.save fl fs img "t.tga").2 = Ok tt /\
  TGA.load (TGA.save fl fs img "t.tga").1 "t.tga" = Ok img /\
  (forall (fs' : FileSystem) (img' : Image) (path : string),
     valid_image img' -> fits_int img' ->
     unwritable fs' path = false ->
     (18 + length (Image.pixels img') <= space fs')%nat ->
     TGA.load (TGA.save fl fs' img' path).1 path = Ok img' /\
     Copy2.load (Copy2.save fl fs' img' path).1 path
     = Ok (rows_reversed img')).
Proof.
  intros img fs.
  assert (valid_image img) as Hv.
  { unfold valid_image, is_u16; cbn; repeat split; try lia.
    repeat constructor; unfold is_byte; lia. }
  assert (fits_int img) as Hfit by (unfold fits_int, INT_MAX; cbn; lia).
  destruct (Copy2_save_load fl fs img "t.tga" Hv Hfit eq_refl
              ltac:(cbn; lia)) as (Hok2 & Hc2 & Ht2).
  destruct (save_load_roundtrip fl fs img "t.tga" Hv Hfit eq_refl
              ltac:(cbn; lia)) as (Hok1 & Ht1).
  split; [done|]. split; [done|]. split; [exact Ht2|]. split; [exact Hc2|].
  split; [done|]. split; [done|].
  intros fs' img' path Hv' Hfit' Hopen Hroom. split.
  - by apply save_load_roundtrip.
  - by apply Copy2_save_load.
Qed.

(** C4: [readTGA] of [project2.cpp], unlike the tool's [load], does not
    look at the orientation bit: it returns the payload in file order.  The
    same 1x2 image stored top-left and bottom-left is decoded by [load] to
    one buffer and by [readTGA] to two different pixel vectors; and for
    every complete 24-bit file of type 2 without ID field, with extents
    below 32768, [readTGA] returns the payload as it is, whatever the
    descriptor. *)
Theorem readTGA_ignores_orientation :
  let top_hd := TGA.mkHeader 0 0 2 0 0 0 0 0 1 2 24 32 in
  let bot_hd := TGA.mkHeader 0 0 2 0 0 0 0 0 1 2 24 0 in
  let fs :=
    mkFS {[ "top.tga" := tga_file top_hd [] [4; 5; 6; 1; 2; 3];
            "bot.tga" := tga_file bot_hd [] [1; 2; 3; 4; 5; 6] ]}
         (fun _ => false) 0 in
  TGA.load fs "top.tga" = Ok (Image.mk 1 2 [1; 2; 3; 4; 5; 6]) /\
  TGA.load fs "bot.tga" = Ok (Image.mk 1 2 [1; 2; 3; 4; 5; 6]) /\
  Project2.readTGA fs "top.tga"
  = Some (Project2.Return
            (Project2.mkImg top_hd
               [Project2.mkPixel 4 5 6; Project2.mkPixel 1 2 3])) /\
  Project2.readTGA fs "bot.tga"
  = Some (Project2.Return
            (Project2.mkImg bot_hd
               [Project2.mkPixel 1 2 3; Project2.mkPixel 4 5 6])) /\
  (forall (fs' : FileSystem) (fname : string) (hd : TGA.Header)
          (payload : list Z),
     files fs' !! fname = Some (TGA.Header_bytes hd ++ payload) ->
     valid_header hd ->
     TGA.dataTypeCode hd = 2 -> TGA.bitsPerPixel hd = 24 ->
     TGA.idLength hd = 0 -> TGA.width hd < 32768 -> TGA.height hd < 32768 ->
     Z.of_nat (length payload) = TGA.width hd * TGA.height hd * 3 ->
     exists im,
       Project2.readTGA fs' fname = Some (Project2.Return im) /\
       Project2.h im = hd /\
       Project2.bytes_of (Project2.px im) = payload).
Proof.
  intros top_hd bot_hd fs.
  split; [by vm_compute|]. split; [by vm_compute|].
  split; [by vm_compute|]. split; [by vm_compute|].
  intros fs' fname hd payload Hf Hv Hdtc Hbpp Hid Hw Hh Hlen.
  pose proof Hv as (_ & _ & _ & _ & _ & _ & _ & _ & Hw0 & Hh0 & _ & _).
  unfold is_u16 in *.
  pose proof (readTGA_file fs' fname hd payload Hf Hv Hdtc Hbpp
                ltac:(lia) Hw Hh) as Hr.
  cbv zeta in Hr. rewrite Hid in Hr. change (Z.to_nat 0) with 0%nat in Hr.
  rewrite drop_0, <- Hlen, Nat2Z.id in Hr.
  destruct (Nat.leb_spec (length payload) (length payload)) as [_|]; [|lia].
  rewrite take_ge in Hr by done.
  eexists. split; [exact Hr|]. cbn [Project2.h Project2.px].
  split; [done|].
  by destruct (bytes_of_pixels_of
                 (Z.to_nat (TGA.width hd * TGA.height hd)) payload
                 ltac:(lia)) as [-> _].
Qed.

(** C5: not every encoder of the repository writes descriptor 0.  On a
    path that opens and a device with room, the [save] of the third copy
    (lines 1015-1034) writes descriptor 0x20, for every buffer, and
    [writeTGA] of [project2.cpp] writes the header the image carries, with
    the descriptor, the ID length and the colour-map type the file it was
    read from had.  For the 1x1 buffer [1 2 3] the tool's [save] writes
    descriptor 0 and zeros in all fields but the type, the extents and the
    depth; the third copy's writes 32 in byte 17. *)
Theorem save_descriptor_varies
    (fl : flush_policy) (fs : FileSystem) (path : string) :
  unwritable fs path = false -> (21 <= space fs)%nat ->
  let img := Image.mk 1 1 [1; 2; 3] in
  let hd := TGA.mkHeader 3 1 2 0 0 0 0 0 1 1 24 32 in
  files (TGA.save fl fs img path).1 !! path
  = Some [0; 0; 2; 0; 0; 0; 0; 0; 0; 0; 0; 0; 1; 0; 1; 0; 24; 0; 1; 2; 3] /\
  files (Copy3.save fl fs img path).1 !! path
  = Some [0; 0; 2; 0; 0; 0; 0; 0; 0; 0; 0; 0; 1; 0; 1; 0; 24; 32; 1; 2; 3] /\
  files (Project2.writeTGA fl fs (Project2.mkImg hd [Project2.mkPixel 1 2 3])
                           path).1 !! path
  = Some [3; 1; 2; 0; 0; 0; 0; 0; 0; 0; 0; 0; 1; 0; 1; 0; 24; 32; 1; 2; 3] /\
  (forall img' : Image,
     (18 + length (Image.pixels img') <= space fs)%nat ->
     files (Copy3.save fl fs img' path).1 !! path
     = Some (TGA.Header_bytes (Copy3.save_header img') ++ Image.pixels img')
     /\ TGA.imageDescriptor (Copy3.save_header img') = 32) /\
  (forall im : Project2.Img,
     (18 + 3 * length (Project2.px im) <= space fs)%nat ->
     files (Project2.writeTGA fl fs im path).1 !! path
     = Some (TGA.Header_bytes (Project2.h im)
             ++ Project2.bytes_of (Project2.px im))).
Proof.
  intros Hopen Hroom img hd.
  assert (valid_image img) as Hv.
  { unfold valid_image, is_u16; cbn; repeat split; try lia.
    repeat constructor; unfold is_byte; lia. }
  split; [|split; [|split; [|split]]].
  - destruct (save_spec fl fs img path Hv Hopen) as (-> & _ & _).
    by rewrite take_ge by (cbn; lia).
  - by destruct (Copy3_save_spec fl fs img path Hopen ltac:(cbn; lia))
      as [-> _].
  - rewrite writeTGA_file by done. by rewrite take_ge by (cbn; lia).
  - intros img' Hroom'.
    by destruct (Copy3_save_spec fl fs img' path Hopen Hroom') as [-> _].
  - intros im Hroom'. rewrite writeTGA_file by done.
    rewrite take_ge; [done|].
    rewrite length_app, Header_bytes_length, bytes_of_length. lia.
Qed.

Lemma save_descriptor_varies_witness :
  files (Copy3.save buffered (mkFS ∅ (fun _ => false) 64)
                    (Image.mk 1 1 [1; 2; 3]) "o.tga").1 !! "o.tga"
  = Some [0; 0; 2; 0; 0; 0; 0; 0; 0; 0; 0; 0; 1; 0; 1; 0; 24; 32; 1; 2; 3].
Proof.
  exact (proj1 (proj2 (save_descriptor_varies buffered
                         (mkFS ∅ (fun _ => false) 64) "o.tga"
                         eq_refl ltac:(cbn; lia)))).
Defined.

(** C7: of the tool's [load], the [load] of the second copy and [readTGA]
    of [project2.cpp], only the first checks the colour-map type.  A
    colour-mapped 24-bit file of type 2 is rejected by the tool, returned
    as an image by the [load] of the second copy (lines 570-600), which
    never reports a colour map, and returned by [readTGA] of
    [project2.cpp].  [readTGA] ends with the one exit code 3 for a wrong
    type and for a wrong depth, where the tool has two errors. *)
Theorem colormap_check_only_in_tool :
  let fs :=
    mkFS {[ "mapped.tga" := [0; 1; 2; 0; 0; 0; 0; 0; 0; 0; 0; 0; 1; 0; 1; 0;
                             24; 0; 7; 8; 9];
            "rle.tga" := [0; 0; 10; 0; 0; 0; 0; 0; 0; 0; 0; 0; 1; 0; 1; 0;
                          24; 0; 7; 8; 9];
            "deep.tga" := [0; 0; 2; 0; 0; 0; 0; 0; 0; 0; 0; 0; 1; 0; 1; 0;
                           32; 0; 7; 8; 9; 255] ]}
         (fun _ => false) 0 in
  TGA.load fs "mapped.tga" = Throw (OnlyUnmapped "mapped.tga") /\
  Copy2.load fs "mapped.tga" = Ok (Image.mk 1 1 [7; 8; 9]) /\
  Project2.readTGA fs "mapped.tga"
  = Some (Project2.Return
            (Project2.mkImg (TGA.mkHeader 0 1 2 0 0 0 0 0 1 1 24 0)
                            [Project2.mkPixel 7 8 9])) /\
  TGA.load fs "rle.tga" = Throw (NeedUncompressed "rle.tga") /\
  TGA.load fs "deep.tga" = Throw (Need24Bit "deep.tga") /\
  Project2.readTGA fs "rle.tga" = Some (Project2.Exit 3) /\
  Project2.readTGA fs "deep.tga" = Some (Project2.Exit 3) /\
  (forall (fs' : FileSystem) (path p : string),
     Copy2.load fs' path <> Throw (OnlyUnmapped p)).
Proof.
  intros fs.
  split; [by vm_compute|]. split; [by vm_compute|].
  split; [by vm_compute|]. split; [by vm_compute|].
  split; [by vm_compute|]. split; [by vm_compute|].
  split; [by vm_compute|].
  intros fs' path p. apply Copy2_load_never_unmapped.
Qed.
